(** * Antidote: a shallow embedding of the asset-inlining pipeline

    The Go package [antidote] fetches a page and rewrites its document tree so
    that style sheets, scripts and images are inlined.  This development
    embeds the package's functions ([hasExtension], [addHttpProtocolIfNotExists],
    [normalizeSourceUrl], [fetch], [Mix], [Cure], [cureCSS], [cureJS],
    [cureImages], [cureAssets]) and the parts of the Go libraries they call,
    and proves properties of them.

    Conventions.
    - A Go [string] is a sequence of bytes: [string] of the Standard Library.
    - A Go function returning [(T, error)] returns a pair [T * option error];
      [None] is Go's [nil] error.
    - A Go call that may panic returns an [Outcome].
    - Library functions live in modules named after their Go package, so that
      [strings.Contains], [url.Parse] or [regexp.MatchString] read as in the
      source. *)

From Stdlib Require Import String Ascii List Bool Arith ZArith Lia.
Import ListNotations.
Open Scope list_scope.
Open Scope string_scope.

Set Implicit Arguments.

(** ** Errors, results and panics *)

(** Go [error] values.  The constructor records which library produced the
    error; the payload is its message. *)
Inductive error : Type :=
| errorString (msg : string)        (* errors.New *)
| urlError (msg : string)           (* *url.Error from net/url *)
| syntaxError (msg : string)        (* *syntax.Error from regexp *)
| transportError (msg : string)     (* error returned by the HTTP transport *)
| readError (msg : string)          (* error while reading a response body *)
| loadError (msg : string)          (* goquery.NewDocument failed *)
| renderError (msg : string).       (* Document.Html failed *)

Module errors.
Definition New (msg : string) : error := errorString msg.
End errors.

(** A library call that returns a pointer and an error returns exactly one of
    them: a Go result of type (pointer to T, error) is a [result T]. *)
Inductive result (A : Type) : Type :=
| Ok (a : A)
| Err (e : error).
Arguments Ok {A} a.
Arguments Err {A} e.

(** A computation that either returns or panics (a panic in any goroutine
    terminates the Go program). *)
Inductive Outcome (A : Type) : Type :=
| Returns (a : A)
| Panics (msg : string).
Arguments Returns {A} a.
Arguments Panics {A} msg.

Definition bindO {A B} (o : Outcome A) (k : A -> Outcome B) : Outcome B :=
  match o with
  | Returns a => k a
  | Panics m => Panics m
  end.

(** ** Bytes *)

Definition byte_in (lo hi c : ascii) : bool :=
  ((nat_of_ascii lo <=? nat_of_ascii c)%nat && (nat_of_ascii c <=? nat_of_ascii hi)%nat)%bool.

Definition is_lower (c : ascii) : bool := byte_in "a" "z" c.
Definition is_upper (c : ascii) : bool := byte_in "A" "Z" c.
Definition is_digit (c : ascii) : bool := byte_in "0" "9" c.
Definition is_alpha (c : ascii) : bool := is_lower c || is_upper c.
Definition is_alnum (c : ascii) : bool := is_alpha c || is_digit c.
Definition is_hex (c : ascii) : bool :=
  is_digit c || byte_in "a" "f" c || byte_in "A" "F" c.

Definition byte_elem (c : ascii) (s : string) : bool :=
  existsb (Ascii.eqb c) (list_ascii_of_string s).

(** ** Package [strings] *)

Module strings.

(** [strings.HasPrefix s prefix] *)
Fixpoint HasPrefix (s prefix : string) {struct prefix} : bool :=
  match prefix, s with
  | EmptyString, _ => true
  | String p prefix', String c s' => Ascii.eqb c p && HasPrefix s' prefix'
  | String _ _, EmptyString => false
  end.

(** [strings.Contains s substr] *)
Fixpoint Contains (s substr : string) : bool :=
  HasPrefix s substr ||
  match s with
  | EmptyString => false
  | String _ s' => Contains s' substr
  end.

(** The scan of [strings.Replace s old new n] for a non-empty [old]:
    occurrences are replaced left to right and do not overlap; at most [n]
    of them are replaced, all of them when [n < 0].  [skip] counts the bytes
    of the occurrence being replaced that are still to be dropped. *)
Fixpoint replace_scan (old new : string) (skip : nat) (n : Z) (s : string)
  : string :=
  match s with
  | EmptyString => EmptyString
  | String c s' =>
      match skip with
      | S k => replace_scan old new k n s'
      | O =>
          if (n =? 0)%Z then s
          else if HasPrefix s old
               then new ++ replace_scan old new (String.length old - 1) (n - 1) s'
               else String c (replace_scan old new 0 n s')
      end
  end.

(** [strings.Replace s old new n].  The source only calls it with the
    non-empty patterns "//" and "../"; the case of an empty [old] (Go inserts
    [new] around every rune) is not part of this model and returns [s]. *)
Definition Replace (s old new : string) (n : Z) : string :=
  match old with
  | EmptyString => s
  | String _ _ => replace_scan old new 0 n s
  end.

(** [strings.Index s substr], as an option. *)
Fixpoint Index (s substr : string) : option nat :=
  if HasPrefix s substr then Some 0
  else match s with
       | EmptyString => None
       | String _ s' => option_map S (Index s' substr)
       end.

(** [strings.LastIndex s substr], as an option. *)
Fixpoint LastIndex (s substr : string) : option nat :=
  match s with
  | EmptyString => if HasPrefix s substr then Some 0 else None
  | String _ s' =>
      match LastIndex s' substr with
      | Some i => Some (S i)
      | None => if HasPrefix s substr then Some 0 else None
      end
  end.

(** [s[:i]] and [s[i:]] *)
Fixpoint take (i : nat) (s : string) : string :=
  match i, s with
  | S k, String c s' => String c (take k s')
  | _, _ => EmptyString
  end.

Fixpoint drop (i : nat) (s : string) : string :=
  match i, s with
  | S k, String _ s' => drop k s'
  | _, _ => s
  end.

(** [strings.Cut s sep] *)
Definition Cut (s sep : string) : string * string * bool :=
  match Index s sep with
  | Some i => (take i s, drop (i + String.length sep) s, true)
  | None => (s, EmptyString, false)
  end.

(** [strings.ToLower] on bytes: only the ASCII letters change. *)
Definition lower_byte (c : ascii) : ascii :=
  if is_upper c then ascii_of_nat (nat_of_ascii c + 32) else c.

Fixpoint ToLower (s : string) : string :=
  match s with
  | EmptyString => EmptyString
  | String c s' => String (lower_byte c) (ToLower s')
  end.

Definition all_bytes (p : ascii -> bool) (s : string) : bool :=
  forallb p (list_ascii_of_string s).

End strings.

(** ** Package [net/url]

    [url.Parse] is a library function; the model follows its steps
    (fragment, control bytes, scheme, query, first path segment, authority,
    userinfo, host, port, percent escapes) and keeps the fields the package
    reads: [Scheme] and [Host], with [Path] for reference. *)

Module url.

Record URL : Type := mkURL {
  Scheme : string;
  Host : string;
  Path : string;
  RawQuery : string;
  Fragment : string
}.

(** every "%" is followed by two hexadecimal digits *)
Fixpoint escapes_ok (s : string) : bool :=
  match s with
  | EmptyString => true
  | String c s' =>
      if Ascii.eqb c "%"
      then match s' with
           | String h1 (String h2 _) => is_hex h1 && is_hex h2 && escapes_ok s'
           | _ => false
           end
      else escapes_ok s'
  end.

(** bytes that may stand unescaped in a host name *)
Definition host_byte (c : ascii) : bool :=
  is_alnum c || byte_elem c "-_.~!$&'()*+,;=:[]<>%" || (nat_of_ascii c =? 34)%nat
  || (128 <=? nat_of_ascii c)%nat.

(** in a host, a percent escape below 0x80 other than %25 is refused *)
Fixpoint host_escapes_ok (s : string) : bool :=
  match s with
  | EmptyString => true
  | String c s' =>
      if Ascii.eqb c "%"
      then match s' with
           | String h1 (String h2 _) =>
               is_hex h1 && is_hex h2
               && (negb (byte_in "0" "7" h1) || (Ascii.eqb h1 "2" && Ascii.eqb h2 "5"))
               && host_escapes_ok s'
           | _ => false
           end
      else host_escapes_ok s'
  end.

Definition validOptionalPort (port : string) : bool :=
  match port with
  | EmptyString => true
  | String c digits => Ascii.eqb c ":" && strings.all_bytes is_digit digits
  end.

Definition validUserinfo (s : string) : bool :=
  strings.all_bytes (fun c => is_alnum c || byte_elem c "-._:~!$&'()*+,;=%@") s.

Definition parseHost (host : string) : string * option error :=
  let port_ok :=
    if strings.HasPrefix host "["
    then match strings.LastIndex host "]" with
         | None => false
         | Some i => validOptionalPort (strings.drop (i + 1) host)
         end
    else match strings.LastIndex host ":" with
         | None => true
         | Some i => validOptionalPort (strings.drop i host)
         end in
  if negb port_ok then (EmptyString, Some (urlError "invalid port or missing ']' in host"))
  else if strings.all_bytes host_byte host && host_escapes_ok host
       then (host, None)
       else (EmptyString, Some (urlError "invalid character or escape in host name")).

Definition parseAuthority (authority : string) : string * option error :=
  match strings.LastIndex authority "@" with
  | None => parseHost authority
  | Some i =>
      let '(host, err) := parseHost (strings.drop (i + 1) authority) in
      match err with
      | Some e => (EmptyString, Some e)
      | None =>
          let userinfo := strings.take i authority in
          if validUserinfo userinfo && escapes_ok userinfo
          then (host, None)
          else (EmptyString, Some (urlError "net/url: invalid userinfo"))
      end
  end.

Inductive scheme_result :=
| SchemeOk (scheme rest : string)
| SchemeErr.

(** [getScheme]: [i] is the index of the byte under inspection. *)
Fixpoint scheme_scan (rawURL : string) (i : nat) (s : string) : scheme_result :=
  match s with
  | EmptyString => SchemeOk EmptyString rawURL
  | String c s' =>
      if is_alpha c then scheme_scan rawURL (S i) s'
      else if is_digit c || byte_elem c "+-."
           then match i with
                | O => SchemeOk EmptyString rawURL
                | S _ => scheme_scan rawURL (S i) s'
                end
           else if Ascii.eqb c ":"
                then match i with
                     | O => SchemeErr
                     | S _ => SchemeOk (strings.take i rawURL) s'
                     end
                else SchemeOk EmptyString rawURL
  end.

Definition getScheme (rawURL : string) : scheme_result :=
  scheme_scan rawURL 0 rawURL.

Definition is_ctl (c : ascii) : bool :=
  ((nat_of_ascii c <? 32)%nat || (nat_of_ascii c =? 127)%nat)%bool.

Definition stringContainsCTLByte (s : string) : bool :=
  existsb is_ctl (list_ascii_of_string s).

Definition fail (msg : string) : result URL := Err (urlError msg).

(** [parse(rawURL, viaRequest = false)] *)
Definition parse (rawURL : string) : result URL :=
  if stringContainsCTLByte rawURL then fail "net/url: invalid control character in URL"
  else if String.eqb rawURL "*" then Ok (mkURL "" "" "*" "" "")
  else
    match getScheme rawURL with
    | SchemeErr => fail "missing protocol scheme"
    | SchemeOk scheme0 rest0 =>
        let scheme := strings.ToLower scheme0 in
        let '(rest, query, _) := strings.Cut rest0 "?" in
        if negb (strings.HasPrefix rest "/") && negb (String.eqb scheme "")
        then Ok (mkURL scheme "" "" query "")          (* opaque *)
        else if negb (strings.HasPrefix rest "/")
                && (let '(segment, _, _) := strings.Cut rest "/" in
                    strings.Contains segment ":")
        then fail "first path segment in URL cannot contain colon"
        else if (negb (String.eqb scheme "") || negb (strings.HasPrefix rest "///"))
                && strings.HasPrefix rest "//"
        then
          let authority0 := strings.drop 2 rest in
          let '(authority, path) :=
            match strings.Index authority0 "/" with
            | Some i => (strings.take i authority0, strings.drop i authority0)
            | None => (authority0, EmptyString)
            end in
          let '(host, err) := parseAuthority authority in
          match err with
          | Some e => Err e
          | None =>
              if escapes_ok path then Ok (mkURL scheme host path query "")
              else fail "invalid URL escape"
          end
        else if escapes_ok rest then Ok (mkURL scheme "" rest query "")
             else fail "invalid URL escape"
    end.

(** [url.Parse(rawURL)] *)
Definition Parse (rawURL : string) : result URL :=
  let '(u, frag, _) := strings.Cut rawURL "#" in
  match parse u with
  | Ok r =>
      if escapes_ok frag
      then Ok (mkURL (Scheme r) (Host r) (Path r) (RawQuery r) frag)
      else fail "invalid URL escape"
  | Err err => Err err
  end.

End url.

(** ** URL normalizer (second source file) *)

Definition addHttpProtocolIfNotExists (url : string) : string :=
  if strings.Contains url "http://" || strings.Contains url "https://"
  then url
  else "http://" ++ url.

(** [normalizeSourceUrl(assetPath, origin)] *)
Definition normalizeSourceUrl (assetPath : string) (origin : url.URL)
  : string * option error :=
  match url.Parse assetPath with
  | Err err => (EmptyString, Some err)
  | Ok s =>
      (* Remove '//' from assets. *)
      let assetPath :=
        if strings.HasPrefix assetPath "//"
        then strings.Replace assetPath "//" "" 1
        else assetPath in
      (* Remove relative '..' paths. *)
      let assetPath := strings.Replace assetPath "../" "" (-1) in
      if (String.length (url.Host s) =? 0)%nat
      then (addHttpProtocolIfNotExists (url.Host origin ++ "/" ++ assetPath), None)
      else (addHttpProtocolIfNotExists assetPath, None)
  end.

(** ** Package [net/http] and the asset fetcher (second source file)

    The network is a parameter: a [Transport] answers a GET request with a
    response or a transport error.  A response carries its status code and
    what reading its body to the end gives.  Every request is answered: a
    request that never returns is not part of the embedding. *)

Module http.

Record Response : Type := mkResponse {
  StatusCode : Z;
  Body : result string          (* ioutil.ReadAll(resp.Body) *)
}.

Definition Transport : Type := string -> result Response.

End http.

(** [fetch(url)] *)
Definition fetch (Get : http.Transport) (url : string) : string * option error :=
  match Get url with
  | Err err => (EmptyString, Some err)
  | Ok resp =>
      match http.Body resp with
      | Err err => (EmptyString, Some err)
      | Ok b => (b, None)
      end
  end.

(** ** Package [regexp]

    [regexp.MatchString pattern s] compiles [pattern] and reports whether the
    expression matches somewhere in [s].  The model covers the part of the
    RE2 syntax built from literal bytes, ".", backslash escapes of
    punctuation, groups, "|" and the postfix operators "*", "+" and "?"
    (each optionally followed by the non-greedy mark "?").  Bracket classes,
    counted repetition, anchors, flags, backslash classes and non-ASCII
    patterns are outside the model ([Unmodelled]).  The patterns of the
    package (".css", ".js" and "." followed by an image format) are inside.

    "." matches any character except the line feed (the flag [s] is off by
    default).  The model matches bytes; Go matches runes.  The two agree on
    ASCII subjects, and for a "." that is followed by ASCII literals only the
    byte before the literals decides in both. *)

Module regexp.

Inductive Regexp : Type :=
| NoMatch
| EmptyMatch
| Literal (c : ascii)
| AnyCharNotNL
| Concat (r1 r2 : Regexp)
| Alternate (r1 r2 : Regexp)
| Star (r : Regexp)
| Plus (r : Regexp)
| Quest (r : Regexp).

Definition newline : ascii := ascii_of_nat 10.

(** The language of an expression. *)
Inductive matches : Regexp -> string -> Prop :=
| m_empty : matches EmptyMatch EmptyString
| m_literal c : matches (Literal c) (String c EmptyString)
| m_any c : c <> newline -> matches AnyCharNotNL (String c EmptyString)
| m_concat r1 r2 s1 s2 :
    matches r1 s1 -> matches r2 s2 -> matches (Concat r1 r2) (s1 ++ s2)
| m_alt_l r1 r2 s : matches r1 s -> matches (Alternate r1 r2) s
| m_alt_r r1 r2 s : matches r2 s -> matches (Alternate r1 r2) s
| m_star_nil r : matches (Star r) EmptyString
| m_star_cons r s1 s2 :
    matches r s1 -> matches (Star r) s2 -> matches (Star r) (s1 ++ s2)
| m_plus r s1 s2 :
    matches r s1 -> matches (Star r) s2 -> matches (Plus r) (s1 ++ s2)
| m_quest_nil r : matches (Quest r) EmptyString
| m_quest r s : matches r s -> matches (Quest r) s.

(** Matching by derivatives. *)
Fixpoint nullable (r : Regexp) : bool :=
  match r with
  | NoMatch => false
  | EmptyMatch => true
  | Literal _ => false
  | AnyCharNotNL => false
  | Concat r1 r2 => nullable r1 && nullable r2
  | Alternate r1 r2 => nullable r1 || nullable r2
  | Star _ => true
  | Plus r1 => nullable r1
  | Quest _ => true
  end.

Fixpoint deriv (a : ascii) (r : Regexp) : Regexp :=
  match r with
  | NoMatch => NoMatch
  | EmptyMatch => NoMatch
  | Literal c => if Ascii.eqb a c then EmptyMatch else NoMatch
  | AnyCharNotNL => if Ascii.eqb a newline then NoMatch else EmptyMatch
  | Concat r1 r2 =>
      if nullable r1
      then Alternate (Concat (deriv a r1) r2) (deriv a r2)
      else Concat (deriv a r1) r2
  | Alternate r1 r2 => Alternate (deriv a r1) (deriv a r2)
  | Star r1 => Concat (deriv a r1) (Star r1)
  | Plus r1 => Concat (deriv a r1) (Star r1)
  | Quest r1 => deriv a r1
  end.

(** some prefix of [s] is in the language of [r] *)
Fixpoint matchPrefix (r : Regexp) (s : string) : bool :=
  nullable r ||
  match s with
  | EmptyString => false
  | String a s' => matchPrefix (deriv a r) s'
  end.

(** some substring of [s] is in the language of [r] *)
Fixpoint search (r : Regexp) (s : string) : bool :=
  matchPrefix r s ||
  match s with
  | EmptyString => false
  | String _ s' => search r s'
  end.

(** *** The parser: one pass with a stack, as in [regexp/syntax]. *)

Inductive parsed : Type :=
| Compiled (re : Regexp)
| Invalid (msg : string)
| Unmodelled.

(** A frame holds the alternatives already closed (latest first) and the
    items of the concatenation under construction (latest first). *)
Definition frame : Type := (list Regexp * list Regexp)%type.

Fixpoint concat (items : list Regexp) : Regexp :=
  match items with
  | [] => EmptyMatch
  | [r] => r
  | r :: rest => Concat r (concat rest)
  end.

Definition close_frame (f : frame) : Regexp :=
  let '(alts, items) := f in
  fold_left (fun acc a => Alternate a acc) alts (concat (rev items)).

Definition push (r : Regexp) (f : frame) : frame :=
  let '(alts, items) := f in (alts, r :: items).

Definition repeat_op (c : ascii) (r : Regexp) : Regexp :=
  if Ascii.eqb c "*" then Star r
  else if Ascii.eqb c "+" then Plus r
  else Quest r.

Fixpoint parse_loop (t : string) (lastRepeat : bool) (cur : frame)
         (stack : list frame) : parsed :=
  match t with
  | EmptyString =>
      match stack with
      | [] => Compiled (close_frame cur)
      | _ :: _ => Invalid "missing closing )"
      end
  | String c t' =>
      if Ascii.eqb c "("
      then match t' with
           | String "?" _ => Unmodelled
           | _ => parse_loop t' false ([], []) (cur :: stack)
           end
      else if Ascii.eqb c ")"
      then match stack with
           | [] => Invalid "unexpected )"
           | parent :: stack' =>
               parse_loop t' false (push (close_frame cur) parent) stack'
           end
      else if Ascii.eqb c "|"
      then let '(alts, items) := cur in
           parse_loop t' false (concat (rev items) :: alts, []) stack
      else if byte_elem c "*+?"
      then if lastRepeat then Invalid "invalid nested repetition operator"
           else match cur with
                | (_, []) => Invalid "missing argument to repetition operator"
                | (alts, r :: items) =>
                    let cur' := (alts, repeat_op c r :: items) in
                    match t' with
                    | String "?" t'' => parse_loop t'' true cur' stack
                    | _ => parse_loop t' true cur' stack
                    end
                end
      else if Ascii.eqb c "."
      then parse_loop t' false (push AnyCharNotNL cur) stack
      else if Ascii.eqb c "\"
      then match t' with
           | EmptyString => Invalid "trailing backslash at end of expression"
           | String e t'' =>
               if (nat_of_ascii e <? 128)%nat && negb (is_alnum e)
               then parse_loop t'' false (push (Literal e) cur) stack
               else Unmodelled
           end
      else if byte_elem c "[{^$" || (128 <=? nat_of_ascii c)%nat
      then Unmodelled
      else parse_loop t' false (push (Literal c) cur) stack
  end.

Definition parse (expr : string) : parsed :=
  parse_loop expr false ([], []) [].

(** [regexp.Compile] *)
Definition Compile (expr : string) : result Regexp :=
  match parse expr with
  | Compiled re => Ok re
  | Invalid msg => Err (syntaxError msg)
  | Unmodelled => Err (syntaxError "expression outside the modelled syntax")
  end.

(** [regexp.MatchString] *)
Definition MatchString (pattern s : string) : bool * option error :=
  match Compile pattern with
  | Err err => (false, Some err)
  | Ok re => (search re s, None)
  end.

End regexp.

(** ** Extension matcher *)

(** The signature of [regexp.MatchString]. *)
Definition Matcher : Type := string -> string -> bool * option error.

(** [hasExtension(src, extensions...)]; the library call it makes is the
    first argument. *)
Fixpoint hasExtension (MatchString : Matcher) (src : string)
         (extensions : list string) : string * option error :=
  match extensions with
  | [] => (EmptyString, None)
  | extension :: rest =>
      match MatchString extension src with
      | (_, Some err) => (EmptyString, Some err)
      | (found, None) =>
          if found then (extension, None)
          else hasExtension MatchString src rest
      end
  end.

(** ** Package [encoding/base64]: [StdEncoding] with padding *)

Module base64.

Definition encodeStd : string :=
  "ABCDEFGHIJKLMNOPQRSTUVWXYZabcdefghijklmnopqrstuvwxyz0123456789+/".

Definition pad : ascii := "=".

(** the character of a 6-bit value *)
Definition enc (v : nat) : ascii :=
  match String.get v encodeStd with
  | Some c => c
  | None => pad
  end.

Fixpoint encode_bytes (l : list ascii) : string :=
  match l with
  | [] => EmptyString
  | [a] =>
      let x := nat_of_ascii a in
      String (enc (x / 4)) (String (enc (x mod 4 * 16)) (String pad (String pad EmptyString)))
  | [a; b] =>
      let x := nat_of_ascii a in
      let y := nat_of_ascii b in
      String (enc (x / 4))
        (String (enc (x mod 4 * 16 + y / 16))
           (String (enc (y mod 16 * 4)) (String pad EmptyString)))
  | a :: b :: c :: rest =>
      let x := nat_of_ascii a in
      let y := nat_of_ascii b in
      let z := nat_of_ascii c in
      String (enc (x / 4))
        (String (enc (x mod 4 * 16 + y / 16))
           (String (enc (y mod 16 * 4 + z / 64))
              (String (enc (z mod 64)) (encode_bytes rest))))
  end.

(** [base64.StdEncoding.EncodeToString] *)
Definition EncodeToString (src : string) : string :=
  encode_bytes (list_ascii_of_string src).

(** the 6-bit value of a character of the alphabet *)
Definition dec (c : ascii) : option nat :=
  if is_upper c then Some (nat_of_ascii c - 65)
  else if is_lower c then Some (nat_of_ascii c - 97 + 26)
  else if is_digit c then Some (nat_of_ascii c - 48 + 52)
  else if Ascii.eqb c "+" then Some 62
  else if Ascii.eqb c "/" then Some 63
  else None.

Definition byte (n : nat) : ascii := ascii_of_nat n.

Fixpoint decode_chars (l : list ascii) : option (list ascii) :=
  match l with
  | [] => Some []
  | c1 :: c2 :: c3 :: c4 :: rest =>
      match dec c1, dec c2 with
      | Some v1, Some v2 =>
          let b1 := byte (v1 * 4 + v2 / 16) in
          if Ascii.eqb c3 pad
          then if Ascii.eqb c4 pad
               then match rest with [] => Some [b1] | _ => None end
               else None
          else match dec c3 with
               | None => None
               | Some v3 =>
                   let b2 := byte (v2 mod 16 * 16 + v3 / 4) in
                   if Ascii.eqb c4 pad
                   then match rest with [] => Some [b1; b2] | _ => None end
                   else match dec c4, decode_chars rest with
                        | Some v4, Some tl =>
                            Some (b1 :: b2 :: byte (v3 mod 4 * 64 + v4) :: tl)
                        | _, _ => None
                        end
               end
      | _, _ => None
      end
  | _ => None
  end.

(** [base64.StdEncoding.DecodeString], without the line-break tolerance *)
Definition DecodeString (s : string) : option string :=
  option_map string_of_list_ascii (decode_chars (list_ascii_of_string s)).

End base64.

(** ** Package [golang.org/x/net/html]: nodes and the parsing of a raw-text
    element

    Elements of the loaded page carry their address ([Some p], the pointer
    that a selection holds).  Nodes created while curing are never addressed
    again and carry [None].

    [ParseFragment] is modelled on the two shapes of markup the package
    builds, "<style>...</style>" and "<script>...</script>", parsed where
    such an element may stand.  The body of a raw-text element ends at the first
    closing tag of that element: "</", the tag name in either case, and then
    a space, a line break, a tab, a form feed, "/" or ">"; in the body, CR LF
    and CR become LF and a NUL byte becomes U+FFFD.  Markup that
    follows the element is kept as a [RawNode], standing for the nodes the
    parser builds from it.  A script body containing "<!--" (where the
    tokenizer's escaped states start) is kept as a [RawNode] whole. *)

Module html.

Record Attribute : Type := mkAttribute {
  Key : string;
  Val : string
}.

#[warnings="-register-all"]
Inductive Node : Type :=
| TextNode (Data : string)
| CommentNode (Data : string)
| DoctypeNode (Data : string)
| ElementNode (addr : option nat) (Data : string) (Attr : list Attribute)
              (children : list Node)
| RawNode (markup : string).

Definition LF : ascii := ascii_of_nat 10.
Definition CR : ascii := ascii_of_nat 13.
Definition TAB : ascii := ascii_of_nat 9.
Definition FF : ascii := ascii_of_nat 12.
Definition NUL : ascii := ascii_of_nat 0.

Definition isTagDelimiter (c : ascii) : bool :=
  Ascii.eqb c " " || Ascii.eqb c LF || Ascii.eqb c CR || Ascii.eqb c TAB
  || Ascii.eqb c FF || Ascii.eqb c "/" || Ascii.eqb c ">".

(** the bytes of [s] after the tag name, if [s] starts with it in either case *)
Fixpoint matchTag (tag s : string) {struct tag} : option string :=
  match tag with
  | EmptyString => Some s
  | String t tag' =>
      match s with
      | EmptyString => None
      | String c s' =>
          if Ascii.eqb c t || (nat_of_ascii c =? nat_of_ascii t - 32)%nat
          then matchTag tag' s'
          else None
      end
  end.

(** [readRawEndTag]: does a closing tag of the raw-text element start here? *)
Definition isRawEndTag (tag s : string) : bool :=
  match s with
  | String c1 (String c2 s') =>
      Ascii.eqb c1 "<" && Ascii.eqb c2 "/" &&
      match matchTag tag s' with
      | Some (String d _) => isTagDelimiter d
      | _ => false
      end
  | _ => false
  end.

(** [readRawOrRCDATA]: the raw text, and what follows it *)
Fixpoint splitRaw (tag s : string) : string * string :=
  match s with
  | EmptyString => (EmptyString, EmptyString)
  | String c s' =>
      if isRawEndTag tag s then (EmptyString, s)
      else let '(text, rest) := splitRaw tag s' in (String c text, rest)
  end.

(** [convertNewlines]: CR LF and CR become LF *)
Fixpoint convertNewlines (s : string) : string :=
  match s with
  | EmptyString => EmptyString
  | String c s' =>
      if Ascii.eqb c CR
      then match s' with
           | String d s'' =>
               if Ascii.eqb d LF then String LF (convertNewlines s'')
               else String LF (convertNewlines s')
           | EmptyString => String LF EmptyString
           end
      else String c (convertNewlines s')
  end.

(** U+FFFD, the replacement character, in UTF-8 *)
Definition replacement : string :=
  String (ascii_of_nat 239) (String (ascii_of_nat 191)
    (String (ascii_of_nat 189) EmptyString)).

(** in the text of a raw-text element every NUL byte becomes U+FFFD *)
Fixpoint convertNUL (s : string) : string :=
  match s with
  | EmptyString => EmptyString
  | String c s' =>
      if Ascii.eqb c NUL then replacement ++ convertNUL s'
      else String c (convertNUL s')
  end.

Definition textChildren (data : string) : list Node :=
  if String.eqb data "" then [] else [TextNode data].

Definition rawElement (tag body : string) : list Node :=
  let '(text, rest) := splitRaw tag body in
  let el := ElementNode None tag []
              (textChildren (convertNUL (convertNewlines text))) in
  if String.eqb rest "" || String.eqb rest ("</" ++ tag ++ ">")
  then [el]
  else [el; RawNode rest].

Definition ParseFragment (h : string) : list Node :=
  if strings.HasPrefix h "<style>"
  then rawElement "style" (strings.drop 7 h)
  else if strings.HasPrefix h "<script>"
  then let body := strings.drop 8 h in
       if strings.Contains (fst (splitRaw "script" body)) "<!--"
       then [RawNode h]
       else rawElement "script" body
  else [RawNode h].

End html.

(** ** Package [fmt]: [Sprintf] with the verb [%s] *)

Module fmt.

(** [fmt.Sprintf format args...] for formats whose only verb is [%s]
    ("%%" is a literal percent sign); a verb without an argument prints as
    Go prints it. *)
Fixpoint Sprintf (format : string) (args : list string) : string :=
  match format with
  | EmptyString => EmptyString
  | String c format' =>
      if Ascii.eqb c "%"
      then match format' with
           | String "s" format'' =>
               match args with
               | arg :: args' => arg ++ Sprintf format'' args'
               | [] => "%!s(MISSING)" ++ Sprintf format'' []
               end
           | String "%" format'' => String "%" (Sprintf format'' args)
           | _ => String c (Sprintf format' args)
           end
      else String c (Sprintf format' args)
  end.

End fmt.

(** ** Package [goquery]: selections and tree manipulation

    A document is the list of children of its document node.  Every
    manipulation addresses one element by the pointer held in the selection;
    an element that is no longer in the tree is not found, and the tree is
    left as it is. *)

Module goquery.

Definition Document : Type := list html.Node.

Definition addr_of (n : html.Node) : option nat :=
  match n with
  | html.ElementNode a _ _ _ => a
  | _ => None
  end.

Definition is_at (p : nat) (a : option nat) : bool :=
  match a with
  | Some q => (q =? p)%nat
  | None => false
  end.

Fixpoint find_node (tag : string) (n : html.Node) : list html.Node :=
  match n with
  | html.ElementNode _ d _ ch =>
      ((if String.eqb d tag then [n] else []) ++ flat_map (find_node tag) ch)%list
  | _ => []
  end.

(** [doc.Find(tag)]: the elements named [tag], in document order *)
Definition Find (tag : string) (doc : Document) : list html.Node :=
  flat_map (find_node tag) doc.

Fixpoint lookup_attr (name : string) (attrs : list html.Attribute)
  : option string :=
  match attrs with
  | [] => None
  | a :: rest =>
      if String.eqb (html.Key a) name then Some (html.Val a)
      else lookup_attr name rest
  end.

(** [sel.Attr(name)]: Go's [(val, exists)] as an option *)
Definition Attr (sel : html.Node) (name : string) : option string :=
  match sel with
  | html.ElementNode _ _ attrs _ => lookup_attr name attrs
  | _ => None
  end.

Fixpoint after_node (p : nat) (news : list html.Node) (n : html.Node)
  : list html.Node :=
  match n with
  | html.ElementNode a d attrs ch =>
      html.ElementNode a d attrs (flat_map (after_node p news) ch)
      :: (if is_at p a then news else [])
  | _ => [n]
  end.

(** [sel.AfterNodes(news...)]: [news] become the next siblings of the
    selected element *)
Definition AfterNodes (sel : html.Node) (news : list html.Node)
           (doc : Document) : Document :=
  match addr_of sel with
  | Some p => flat_map (after_node p news) doc
  | None => doc
  end.

(** [sel.AfterHtml(h)] *)
Definition AfterHtml (sel : html.Node) (h : string) (doc : Document)
  : Document :=
  AfterNodes sel (html.ParseFragment h) doc.

Fixpoint remove_node (p : nat) (n : html.Node) : list html.Node :=
  match n with
  | html.ElementNode a d attrs ch =>
      if is_at p a then []
      else [html.ElementNode a d attrs (flat_map (remove_node p) ch)]
  | _ => [n]
  end.

(** [sel.Remove()] *)
Definition Remove (sel : html.Node) (doc : Document) : Document :=
  match addr_of sel with
  | Some p => flat_map (remove_node p) doc
  | None => doc
  end.

Fixpoint set_attr (name val : string) (attrs : list html.Attribute)
  : list html.Attribute :=
  match attrs with
  | [] => [html.mkAttribute name val]
  | a :: rest =>
      if String.eqb (html.Key a) name
      then html.mkAttribute (html.Key a) val :: rest
      else a :: set_attr name val rest
  end.

Fixpoint set_attr_node (p : nat) (name val : string) (n : html.Node)
  : html.Node :=
  match n with
  | html.ElementNode a d attrs ch =>
      html.ElementNode a d
        (if is_at p a then set_attr name val attrs else attrs)
        (map (set_attr_node p name val) ch)
  | _ => n
  end.

(** [sel.SetAttr(name, val)] *)
Definition SetAttr (sel : html.Node) (name val : string) (doc : Document)
  : Document :=
  match addr_of sel with
  | Some p => map (set_attr_node p name val) doc
  | None => doc
  end.

End goquery.

(** ** The package [antidote] (first source file) *)

Record Ingredients : Type := mkIngredients {
  URL : string
}.

Record Antidote : Type := mkAntidote {
  ingredients : option Ingredients;
  parsedUrl : option url.URL;
  website : option goquery.Document;
  curedHtml : string
}.

(** What the package takes from outside: the network, the page loader
    ([goquery.NewDocument]), the serializer ([Document.Html]) and the order
    in which a [range] over the map [isImageExtension] yields its keys. *)
Record Env : Type := mkEnv {
  Get : http.Transport;
  NewDocument : string -> result goquery.Document;
  Render : goquery.Document -> string * option error;
  rangeOrder : list string
}.

(** [New()] *)
Definition New : Antidote := mkAntidote None None None EmptyString.

(** [a.Mix(ingredients)]; the argument is a pointer and may be nil. *)
Definition Mix (a : Antidote) (i : option Ingredients) : Antidote :=
  mkAntidote i (parsedUrl a) (website a) (curedHtml a).

(** [a.Html()] *)
Definition Html (a : Antidote) : string := curedHtml a.

(** [make([]T, len, cap)]: the slice of [len] zero values, or the run-time
    panic of [makeslice]. *)
Definition make {T : Type} (zero : T) (len cap : Z) : Outcome (list T) :=
  if (len <? 0)%Z then Panics "runtime error: makeslice: len out of range"
  else if (cap <? len)%Z then Panics "runtime error: makeslice: cap out of range"
  else Returns (repeat zero (Z.to_nat len)).

Definition isImageExtension : list (string * bool) :=
  [ ("JPEG", true); ("jpeg", true); ("JPG", true); ("jpg", true);
    ("GIF", true); ("gif", true); ("PNG", true); ("png", true);
    ("BMP", true); ("bmp", true); ("TIFF", true); ("tiff", true) ].

Definition len {T : Type} (l : list T) : Z := Z.of_nat (List.length l).

(** What one goroutine of a curing routine gives: the tree after it and the
    errors it printed with [log.Println]. *)
Definition Cured : Type := (goquery.Document * list error)%type.

(** The body of the goroutine started for one <link> element by [cureCSS]. *)
Definition cureCSS_unit (env : Env) (origin : url.URL) (link : html.Node)
           (doc : goquery.Document) : Outcome Cured :=
  match goquery.Attr link "href" with
  | Some href =>
      match hasExtension regexp.MatchString href [".css"] with
      | (_, Some err) => Returns (doc, [err])
      | (matchedExtension, None) =>
          if negb (String.eqb matchedExtension "")
          then match normalizeSourceUrl href origin with
               | (_, Some err) => Returns (doc, [err])
               | (normalizedHref, None) =>
                   match fetch (Get env) normalizedHref with
                   | (_, Some err) => Returns (doc, [err])
                   | (source, None) =>
                       let doc := goquery.AfterHtml link
                                    (fmt.Sprintf "<style>%s</style>" [source]) doc in
                       Returns (goquery.Remove link doc, [])
                   end
               end
          else Returns (doc, [])
      end
  | None => Returns (doc, [])
  end.

(** The body of the goroutine started for one <script> element by [cureJS]. *)
Definition cureJS_unit (env : Env) (origin : url.URL) (script : html.Node)
           (doc : goquery.Document) : Outcome Cured :=
  match goquery.Attr script "src" with
  | Some src =>
      match hasExtension regexp.MatchString src [".js"] with
      | (_, Some err) => Returns (doc, [err])
      | (matchedExtension, None) =>
          if negb (String.eqb matchedExtension "")
          then match normalizeSourceUrl src origin with
               | (_, Some err) => Returns (doc, [err])
               | (normalizedSrc, None) =>
                   match fetch (Get env) normalizedSrc with
                   | (_, Some err) => Returns (doc, [err])
                   | (source, None) =>
                       let doc := goquery.AfterHtml script
                                    (fmt.Sprintf "<script>%s</script>" [source]) doc in
                       Returns (goquery.Remove script doc, [])
                   end
               end
          else Returns (doc, [])
      end
  | None => Returns (doc, [])
  end.

(** The body of the goroutine started for one <img> element by [cureImages]. *)
Definition cureImages_unit (env : Env) (origin : url.URL) (img : html.Node)
           (doc : goquery.Document) : Outcome Cured :=
  match goquery.Attr img "src" with
  | Some src =>
      bindO (make EmptyString (len isImageExtension) 0) (fun imgExtensions =>
      let imgExtensions :=
        fold_left (fun acc k => (acc ++ [String.append "." k])%list) (rangeOrder env) imgExtensions in
      match hasExtension regexp.MatchString src imgExtensions with
      | (_, Some err) => Returns (doc, [err])
      | (matchedExtension, None) =>
          if negb (String.eqb matchedExtension "")
          then match normalizeSourceUrl src origin with
               | (_, Some err) => Returns (doc, [err])
               | (normalizedSrc, None) =>
                   match fetch (Get env) normalizedSrc with
                   | (_, Some err) => Returns (doc, [err])
                   | (source, None) =>
                       Returns
                         (goquery.SetAttr img "src"
                            (fmt.Sprintf "data:image/%s;base64,%s"
                               [strings.ToLower matchedExtension;
                                base64.EncodeToString source]) doc, [])
                   end
               end
          else Returns (doc, [])
      end)
  | None => Returns (doc, [])
  end.

(** [sel.Each] with one goroutine per element and the wait for all of them.
    The goroutines run concurrently in Go; the embedding runs them one after
    the other, in the order of the selection, each as one step on the tree
    that the one before it left.  Interleavings of the tree operations of two
    goroutines, and the order of their log lines, are not part of this
    embedding.  A panic in one of them ends the program. *)
Fixpoint each (unit : html.Node -> goquery.Document -> Outcome Cured)
         (sel : list html.Node) (doc : goquery.Document) : Outcome Cured :=
  match sel with
  | [] => Returns (doc, [])
  | n :: rest =>
      bindO (unit n doc) (fun '(doc1, log1) =>
      bindO (each unit rest doc1) (fun '(doc2, log2) =>
      Returns (doc2, (log1 ++ log2)%list)))
  end.

(** [a.cureCSS()], [a.cureJS()], [a.cureImages()]: [origin] is [a.parsedUrl]
    and [doc] is [a.website], both set by [Cure] before it calls
    [cureAssets]. *)
Definition cureCSS (env : Env) (origin : url.URL) (doc : goquery.Document)
  : Outcome Cured :=
  each (cureCSS_unit env origin) (goquery.Find "link" doc) doc.

Definition cureJS (env : Env) (origin : url.URL) (doc : goquery.Document)
  : Outcome Cured :=
  each (cureJS_unit env origin) (goquery.Find "script" doc) doc.

Definition cureImages (env : Env) (origin : url.URL) (doc : goquery.Document)
  : Outcome Cured :=
  each (cureImages_unit env origin) (goquery.Find "img" doc) doc.

(** [a.cureAssets()]: the three routines and the wait for them; in the
    embedding they run in the order in which the source starts them, each on
    the tree that the one before it left, where the source starts the three
    at once on the tree of the page. *)
Definition cureAssets (env : Env) (origin : url.URL) (doc : goquery.Document)
  : Outcome Cured :=
  bindO (cureCSS env origin doc) (fun '(doc1, log1) =>
  bindO (cureJS env origin doc1) (fun '(doc2, log2) =>
  bindO (cureImages env origin doc2) (fun '(doc3, log3) =>
  Returns (doc3, (log1 ++ log2 ++ log3)%list)))).

(** What a call of [Cure] leaves: the two values it returns, the object after
    the call, and what was logged. *)
Record CureResult : Type := mkCureResult {
  html_out : string;
  err_out : option error;
  self : Antidote;
  logged : list error
}.

(** [a.Cure()] *)
Definition Cure (env : Env) (a : Antidote) : Outcome CureResult :=
  match ingredients a with
  | None =>
      Returns (mkCureResult EmptyString
                 (Some (errors.New "Antidote.Mix() must be called before Antidote.Cure()."))
                 a [])
  | Some ing =>
      match url.Parse (URL ing) with
      | Err err =>
          Returns (mkCureResult EmptyString (Some err)
                     (mkAntidote (ingredients a) None (website a) (curedHtml a)) [])
      | Ok origin =>
          match NewDocument env (URL ing) with
          | Err err =>
              Returns (mkCureResult EmptyString (Some err)
                         (mkAntidote (ingredients a) (Some origin) None (curedHtml a)) [])
          | Ok doc =>
              bindO (cureAssets env origin doc) (fun '(doc', log) =>
              let '(out, err) := Render env doc' in
              let a' := mkAntidote (ingredients a) (Some origin) (Some doc') out in
              match err with
              | Some e => Returns (mkCureResult EmptyString (Some e) a' log)
              | None => Returns (mkCureResult out None a' log)
              end)
          end
      end
  end.

(** ** The command (file cmd/main.go) *)

(** What a run of the command leaves: its exit status, what it wrote to the
    standard output, and the errors it logged, in order. *)
Record Run : Type := mkRun {
  status : Z;
  stdout : string;
  stderr : list error
}.

(** [main()]: the target is a constant of the command.  [log.Fatal(err)]
    logs the error and exits with status 1; [fmt.Println(html)] writes the
    string and a line feed.  The errors that the goroutines of the elements
    logged come first. *)
Definition main (env : Env) : Outcome Run :=
  let a := New in
  let a := Mix a (Some (mkIngredients "https://fujifish.com")) in
  bindO (Cure env a) (fun r =>
    match err_out r with
    | Some err => Returns (mkRun 1 EmptyString (logged r ++ [err])%list)
    | None =>
        Returns (mkRun 0 (html_out r ++ String html.LF EmptyString) (logged r))
    end).

(* ================================================================== *)
(** * Definitions of the statements

    Example pages, transports and environments; the trees the curing
    routines are compared with; the goroutines of [cureAssets]. *)
(* ================================================================== *)

Unset Implicit Arguments.

(** ** Inputs of the examples *)

(** A transport that answers every request with status 404 and a body. *)
Definition notFoundTransport : http.Transport :=
  fun _ => Ok (http.mkResponse 404 (Ok "404 page not found")).

Definition configurationError : error :=
  errors.New "Antidote.Mix() must be called before Antidote.Cure().".

Definition makeslicePanic : string := "runtime error: makeslice: cap out of range".

(** The element of the README: <img src="foo.com/bar.png" />. *)
Definition readmeImg : html.Node :=
  html.ElementNode (Some 7) "img" [html.mkAttribute "src" "foo.com/bar.png"] [].

Definition pngTransport : http.Transport :=
  fun _ => Ok (http.mkResponse 200 (Ok "PNG-bytes")).

Definition readmeEnv (page : goquery.Document) : Env :=
  mkEnv pngTransport (fun _ => Ok page) (fun _ => ("<html></html>", None))
        ["JPEG"; "jpeg"; "JPG"; "jpg"; "GIF"; "gif"; "PNG"; "png"; "BMP"; "bmp";
         "TIFF"; "tiff"].

Definition dot_css : regexp.Regexp :=
  regexp.Concat regexp.AnyCharNotNL
    (regexp.Concat (regexp.Literal "c")
       (regexp.Concat (regexp.Literal "s") (regexp.Literal "s"))).

(** the reference holds a byte other than the line feed right before "css" *)
Definition byte_before_css (ref : string) : Prop :=
  exists l c r, ref = l ++ String c ("css" ++ r) /\ c <> regexp.newline.

(** ** Trees: addresses and replacement in place *)

(** the addresses of the elements of a subtree, in document order *)
Fixpoint addresses (n : html.Node) : list nat :=
  match n with
  | html.ElementNode a _ _ ch =>
      ((match a with Some p => [p] | None => [] end) ++ flat_map addresses ch)%list
  | _ => []
  end.

(** The inline element that holds [text] as its literal content. *)
Definition inline (tag text : string) : html.Node :=
  html.ElementNode None tag [] (html.textChildren text).

(** the text an element holds directly *)
Definition literalContent (n : html.Node) : string :=
  match n with
  | html.ElementNode _ _ _ ch =>
      fold_right (fun c acc => match c with
                               | html.TextNode d => d ++ acc
                               | _ => acc
                               end) "" ch
  | _ => ""
  end.

(** What the specification asks of a style or script transformer, as a
    function on trees: the element at address [p] gives way to [news], which
    stand where it stood; nothing else changes. *)
Fixpoint spec_replace_node (p : nat) (news : list html.Node) (n : html.Node)
  : list html.Node :=
  match n with
  | html.ElementNode a d attrs ch =>
      if goquery.is_at p a then news
      else [html.ElementNode a d attrs (flat_map (spec_replace_node p news) ch)]
  | _ => [n]
  end.

Definition spec_replace (p : nat) (news : list html.Node)
           (doc : goquery.Document) : goquery.Document :=
  flat_map (spec_replace_node p news) doc.

(** The same as a relation between the siblings of one place of the tree:
    [before] and [after] keep the siblings on both sides and all ancestors. *)
Inductive replaced_at (p : nat) (news : list html.Node)
  : list html.Node -> list html.Node -> Prop :=
| replaced_here pre post d attrs ch :
    replaced_at p news
      (pre ++ html.ElementNode (Some p) d attrs ch :: post)%list
      (pre ++ news ++ post)%list
| replaced_below pre post a d attrs ch ch' :
    replaced_at p news ch ch' ->
    replaced_at p news
      (pre ++ html.ElementNode a d attrs ch :: post)%list
      (pre ++ html.ElementNode a d attrs ch' :: post)%list.

(** a closing tag of the raw-text element starts somewhere in [s] *)
Fixpoint hasRawEndTag (tag s : string) : bool :=
  html.isRawEndTag tag s ||
  match s with
  | EmptyString => false
  | String _ s' => hasRawEndTag tag s'
  end.

(** Text that the parser reads back unchanged as the body of a [tag]
    element: no closing tag of the element, no carriage return, no NUL byte
    and, in a script, no "<!--". *)
Definition rawTextSafe (tag source : string) : bool :=
  negb (hasRawEndTag tag source)
  && negb (byte_elem html.CR source || byte_elem html.NUL source)
  && negb (String.eqb tag "script" && strings.Contains source "<!--").

(** How the goroutine of one element ends when it does not reach the
    tree: the reference is missing or does not match, or matching,
    normalizing or fetching fails with [err]. *)
Inductive stops (M : Matcher) (Get : http.Transport) (origin : url.URL)
          (ext : string) : option string -> list error -> Prop :=
| stops_no_attr : stops M Get origin ext None []
| stops_no_match ref :
    M ext ref = (false, None) -> stops M Get origin ext (Some ref) []
| stops_pattern ref found err :
    M ext ref = (found, Some err) -> stops M Get origin ext (Some ref) [err]
| stops_normalize ref u err :
    M ext ref = (true, None) ->
    normalizeSourceUrl ref origin = (u, Some err) ->
    stops M Get origin ext (Some ref) [err]
| stops_fetch ref u body err :
    M ext ref = (true, None) ->
    normalizeSourceUrl ref origin = (u, None) ->
    fetch Get u = (body, Some err) ->
    stops M Get origin ext (Some ref) [err].

(** A page with one style sheet link, and a network that serves a style
    sheet in which a closing style tag occurs. *)
Definition linkA : html.Node :=
  html.ElementNode (Some 3) "link"
    [html.mkAttribute "rel" "stylesheet"; html.mkAttribute "href" "a.css"] [].

Definition pageA : goquery.Document :=
  [html.ElementNode (Some 1) "html" []
     [html.ElementNode (Some 2) "head" []
        [html.ElementNode (Some 4) "title" [] [html.TextNode "t"];
         linkA;
         html.ElementNode (Some 5) "meta" [] []];
      html.ElementNode (Some 6) "body" [] []]].

Definition originB : url.URL := url.mkURL "http" "b.com" "/" "" "".

Definition envClosingTag : Env :=
  mkEnv (fun _ => Ok (http.mkResponse 200 (Ok "a{}</style>b{}")))
        (fun _ => Ok pageA) (fun _ => ("", None)) [].

(** address, name and attributes of the addressed elements of a subtree *)
Fixpoint headers (n : html.Node) : list (nat * string * list html.Attribute) :=
  match n with
  | html.ElementNode a d attrs ch =>
      ((match a with Some p => [(p, d, attrs)] | None => [] end)
         ++ flat_map headers ch)%list
  | _ => []
  end.

(** [keeps d d']: every addressed element of [d'] is one of [d], with the
    same name and attributes. *)
Definition keeps (d d' : goquery.Document) : Prop :=
  incl (flat_map headers d') (flat_map headers d).

(** A network that serves one style sheet. *)
Definition envStyle : Env :=
  mkEnv (fun _ => Ok (http.mkResponse 200 (Ok "p{margin:0}")))
        (fun _ => Ok pageA) (fun _ => ("<html></html>", None)) [].

(** A page with a style sheet link and an image, and a network that refuses
    every connection. *)
Definition linkB : html.Node :=
  html.ElementNode (Some 3) "link" [html.mkAttribute "href" "a.css"] [].

Definition imgB : html.Node :=
  html.ElementNode (Some 5) "img" [html.mkAttribute "src" "b.png"] [].

Definition pageB : goquery.Document :=
  [html.ElementNode (Some 1) "html" []
     [html.ElementNode (Some 2) "head" [] [linkB];
      html.ElementNode (Some 4) "body" [] [imgB]]].

Definition refused : error := transportError "connection refused".

Definition envRefused : Env :=
  mkEnv (fun _ => Err refused) (fun _ => Ok pageB)
        (fun _ => ("<html></html>", None))
        ["JPEG"; "jpeg"; "JPG"; "jpg"; "GIF"; "gif"; "PNG"; "png"; "BMP"; "bmp";
         "TIFF"; "tiff"].

(** ** The whole tree after the style and script routines *)

(** The text that the goroutine of an element with attributes [attrs]
    inlines: the reference in attribute [attr] matches [ext], is normalized
    and is fetched. *)
Definition fetched (env : Env) (origin : url.URL) (attr ext : string)
           (attrs : list html.Attribute) : option string :=
  match goquery.lookup_attr attr attrs with
  | Some ref =>
      match regexp.MatchString ext ref with
      | (true, None) =>
          match normalizeSourceUrl ref origin with
          | (u, None) =>
              match fetch (Get env) u with
              | (source, None) => Some source
              | (_, Some _) => None
              end
          | (_, Some _) => None
          end
      | _ => None
      end
  | None => None
  end.

(** the text to inline for an element, if it is one that a routine cures:
    it is in the tree of the page, it has the name the routine selects, and
    its reference is fetched *)
Definition hit (tag : string) (target : list html.Attribute -> option string)
           (a : option nat) (d : string) (attrs : list html.Attribute)
  : option string :=
  match a with
  | Some _ => if String.eqb d tag then target attrs else None
  | None => None
  end.

(** What the specification asks of a routine, on the whole tree: every
    element that the routine cures gives way to one inline element [new]
    whose literal content is the fetched text, at the place where it stood;
    all other nodes stay as they are. *)
Fixpoint inlined_node (tag new : string)
         (target : list html.Attribute -> option string) (n : html.Node)
  : list html.Node :=
  match n with
  | html.ElementNode a d attrs ch =>
      match hit tag target a d attrs with
      | Some source => [inline new source]
      | None =>
          [html.ElementNode a d attrs (flat_map (inlined_node tag new target) ch)]
      end
  | _ => [n]
  end.

Definition inlined (tag new : string)
           (target : list html.Attribute -> option string)
           (doc : goquery.Document) : goquery.Document :=
  flat_map (inlined_node tag new target) doc.

(** the page with its style sheets inlined, then its scripts *)
Definition spec_cured (env : Env) (origin : url.URL) (page : goquery.Document)
  : goquery.Document :=
  inlined "script" "script" (fetched env origin "src" ".js")
    (inlined "link" "style" (fetched env origin "href" ".css") page).

(** no two elements of the tree share an address *)
Definition oneHeaderPerAddress (doc : goquery.Document) : Prop :=
  forall p d attrs d' attrs',
    In (p, d, attrs) (flat_map headers doc) ->
    In (p, d', attrs') (flat_map headers doc) ->
    d = d' /\ attrs = attrs'.

(** every text that the network serves is read back by the parser as the
    body of one style element, and of one script element *)
Definition servesRawText (env : Env) : Prop :=
  forall u source, fetch (Get env) u = (source, None) ->
                   rawTextSafe "style" source = true
                   /\ rawTextSafe "script" source = true.

(** ** Patterns made of literal bytes *)

(** a byte that stands for itself in a pattern: an ASCII byte that is none
    of the operators, brackets, anchors, "." and the backslash *)
Definition plain (c : ascii) : bool :=
  negb (Ascii.eqb c "(") && negb (Ascii.eqb c ")") && negb (Ascii.eqb c "|")
  && negb (byte_elem c "*+?") && negb (Ascii.eqb c ".") && negb (Ascii.eqb c "\")
  && negb (byte_elem c "[{^$" || (128 <=? nat_of_ascii c)%nat).

(** the expression of a sequence of literal bytes *)
Definition literals (k : string) : list regexp.Regexp :=
  map regexp.Literal (list_ascii_of_string k).

(** ** Pages without an image to cure *)

(** no <img> element of the tree has a src attribute *)
Definition noImgSrc (doc : goquery.Document) : Prop :=
  forall img, In img (goquery.Find "img" doc) -> goquery.Attr img "src" = None.

(** the network is down: every request fails *)
Definition networkDown (env : Env) : Prop :=
  forall u, exists e, Get env u = Err e.

(** A page with a link, a script and an image without src; a network that
    is down after the page was loaded. *)
Definition pageD : goquery.Document :=
  [html.ElementNode (Some 1) "html" []
     [html.ElementNode (Some 2) "head" []
        [html.ElementNode (Some 3) "link" [html.mkAttribute "href" "a.css"] [];
         html.ElementNode (Some 4) "script" [html.mkAttribute "src" "a.js"] []];
      html.ElementNode (Some 5) "body" []
        [html.ElementNode (Some 6) "img" [html.mkAttribute "alt" "logo"] []]]].

Definition envD : Env :=
  mkEnv (fun _ => Err refused) (fun _ => Ok pageD)
        (fun _ => ("<html>...</html>", None)) [].

(** A network on which the page itself cannot be loaded. *)
Definition envOff : Env :=
  mkEnv (fun _ => Err refused) (fun _ => Err (loadError "no such host"))
        (fun _ => ("", None)) [].

(** ** The goroutines of [cureAssets] and their wait groups

    [Cure] above runs the goroutines one after the other.  This part keeps
    what the sequential embedding leaves out: the goroutines, the calls of
    [wg.Add], [wg.Done] and [wg.Wait] at the places where the source has
    them, and every interleaving of them.  A goroutine is the list of the
    instructions it still has to run; [Emit] marks the end of a piece of
    work. *)

Inductive AssetClass : Type := CSS | JS | Images.

(** the wait group of [cureAssets], and the one of each curing routine *)
Inductive WaitGroup : Type :=
| Outer
| Inner (c : AssetClass).

Inductive Event : Type :=
| UnitEnd (c : AssetClass) (i : nat)   (* the goroutine of element i is through *)
| ClassEnd (c : AssetClass)            (* cureCSS, cureJS or cureImages has returned *)
| Serialized.                          (* a.website.Html() has run *)

#[warnings="-register-all"]
Inductive Instr : Type :=
| Add (w : WaitGroup) (n : nat)
| Done (w : WaitGroup)
| Wait (w : WaitGroup)
| Go (body : list Instr)
| Emit (e : Event)
| Crash.

Definition class_eq_dec (a b : AssetClass) : {a = b} + {a <> b}.
Proof. decide equality. Defined.

Definition wg_eq_dec (a b : WaitGroup) : {a = b} + {a <> b}.
Proof. decide equality. apply class_eq_dec. Defined.

Definition event_eq_dec (a b : Event) : {a = b} + {a <> b}.
Proof. decide equality; (apply Nat.eq_dec || apply class_eq_dec). Defined.

Arguments class_eq_dec : simpl never.
Arguments wg_eq_dec : simpl never.
Arguments event_eq_dec : simpl never.

(** The goroutine of element [i] of class [c]: its work, and the deferred
    [wg.Done()], which also runs when the work panicked; the panic then ends
    the program. *)
Definition unitCode (c : AssetClass) (i : nat) (panics : bool) : list Instr :=
  ([Emit (UnitEnd c i); Done (Inner c)] ++ (if panics then [Crash] else []))%list.

(** [cureCSS], [cureJS] or [cureImages] inside its goroutine of [cureAssets]:
    [wg.Add(n)], one goroutine per element, [wg.Wait()], return, and the
    deferred [wg.Done()] of [cureAssets]. *)
Definition classCode (c : AssetClass) (n : nat) (panics : nat -> bool)
  : list Instr :=
  (Add (Inner c) n
     :: map (fun i => Go (unitCode c i (panics i))) (seq 0 n)
     ++ [Wait (Inner c); Emit (ClassEnd c); Done Outer])%list.

(** [cureAssets] and the serialization that follows it in [Cure]. *)
Definition mainCode (n : AssetClass -> nat) (panics : AssetClass -> nat -> bool)
  : list Instr :=
  [Add Outer 3;
   Go (classCode CSS (n CSS) (panics CSS));
   Go (classCode JS (n JS) (panics JS));
   Go (classCode Images (n Images) (panics Images));
   Wait Outer;
   Emit Serialized].

Record State : Type := mkState {
  threads : list (list Instr);
  count : WaitGroup -> nat;
  events : list Event;            (* latest first *)
  crashed : bool
}.

Definition bump (w : WaitGroup) (f : nat -> nat) (cnt : WaitGroup -> nat)
  : WaitGroup -> nat :=
  fun w' => if wg_eq_dec w w' then f (cnt w') else cnt w'.

(** What running one instruction does. *)
Definition enabled (x : Instr) (cnt : WaitGroup -> nat) : Prop :=
  match x with
  | Wait w => cnt w = 0
  | _ => True
  end.

Definition spawned (x : Instr) : list (list Instr) :=
  match x with
  | Go body => [body]
  | _ => []
  end.

Definition countAfter (x : Instr) (cnt : WaitGroup -> nat) : WaitGroup -> nat :=
  match x with
  | Add w n => bump w (fun k => k + n) cnt
  | Done w => bump w Nat.pred cnt
  | _ => cnt
  end.

Definition eventsAfter (x : Instr) (tr : list Event) : list Event :=
  match x with
  | Emit e => e :: tr
  | _ => tr
  end.

(** [Crash] ends the program, and so does a [Done] on a counter at zero. *)
Definition crashesAt (x : Instr) (cnt : WaitGroup -> nat) : bool :=
  match x with
  | Crash => true
  | Done w => (cnt w =? 0)%nat
  | _ => false
  end.

(** One step: some goroutine of a program that has not crashed runs its next
    instruction, if that instruction is enabled. *)
Inductive step : State -> State -> Prop :=
| step_run pre post x rest cnt tr :
    enabled x cnt ->
    step (mkState (pre ++ (x :: rest) :: post) cnt tr false)
         (mkState (pre ++ rest :: post ++ spawned x) (countAfter x cnt)
                  (eventsAfter x tr) (crashesAt x cnt)).

Definition initial (n : AssetClass -> nat) (panics : AssetClass -> nat -> bool)
  : State :=
  mkState [mainCode n panics] (fun _ => 0) [] false.

Inductive reachable (s0 : State) : State -> Prop :=
| reach_start : reachable s0 s0
| reach_step s s' : reachable s0 s -> step s s' -> reachable s0 s'.

(** *** Counting instructions in code, bodies of [Go] included *)

Fixpoint weigh (f : Instr -> nat) (i : Instr) : nat :=
  f i + match i with
        | Go body => list_sum (map (weigh f) body)
        | _ => 0
        end.

Definition weight (f : Instr -> nat) (code : list Instr) : nat :=
  list_sum (map (weigh f) code).

Definition total (f : Instr -> nat) (ts : list (list Instr)) : nat :=
  list_sum (map (weight f) ts).

Definition isAdd (w : WaitGroup) (i : Instr) : nat :=
  match i with Add w' _ => if wg_eq_dec w w' then 1 else 0 | _ => 0 end.

Definition addAmount (w : WaitGroup) (i : Instr) : nat :=
  match i with Add w' n => if wg_eq_dec w w' then n else 0 | _ => 0 end.

Definition isDone (w : WaitGroup) (i : Instr) : nat :=
  match i with Done w' => if wg_eq_dec w w' then 1 else 0 | _ => 0 end.

Definition isWait (w : WaitGroup) (i : Instr) : nat :=
  match i with Wait w' => if wg_eq_dec w w' then 1 else 0 | _ => 0 end.

Definition isEmit (e : Event) (i : Instr) : nat :=
  match i with Emit e' => if event_eq_dec e e' then 1 else 0 | _ => 0 end.

(** the wait group whose [Done] follows the event *)
Definition guard (e : Event) : option WaitGroup :=
  match e with
  | UnitEnd c _ => Some (Inner c)
  | ClassEnd _ => Some Outer
  | Serialized => None
  end.

(** the event that follows the [Wait] of the wait group *)
Definition release (w : WaitGroup) : Event :=
  match w with
  | Outer => Serialized
  | Inner c => ClassEnd c
  end.

Definition isGuarded (w : WaitGroup) (i : Instr) : nat :=
  match i with
  | Emit e => match guard e with
              | Some w' => if wg_eq_dec w w' then 1 else 0
              | None => 0
              end
  | _ => 0
  end.

(** In [code], no instruction counted by [second] is reached before one
    counted by [first]; [scanBody] is the same for the body of a [Go]. *)
Fixpoint scanBody (first second : Instr -> nat) (i : Instr) : bool :=
  match i with
  | Go body =>
      (fix go (l : list Instr) : bool :=
         match l with
         | [] => true
         | x :: r =>
             if (0 <? first x)%nat then true
             else if (0 <? second x)%nat then false
             else scanBody first second x && go r
         end) body
  | _ => true
  end.

Fixpoint scan (first second : Instr -> nat) (code : list Instr) : bool :=
  match code with
  | [] => true
  | x :: r =>
      if (0 <? first x)%nat then true
      else if (0 <? second x)%nat then false
      else scanBody first second x && scan first second r
  end.

(** From every point of [code] on, the events guarded by [w] are not more
    than the calls of [Done] on [w]; [coveredBody] is the same for the body
    of a [Go]. *)
Definition balanced (w : WaitGroup) (code : list Instr) : bool :=
  (weight (isGuarded w) code <=? weight (isDone w) code)%nat.

Fixpoint coveredBody (w : WaitGroup) (i : Instr) : bool :=
  match i with
  | Go body =>
      (fix go (l : list Instr) : bool :=
         balanced w l &&
         match l with
         | [] => true
         | x :: r => coveredBody w x && go r
         end) body
  | _ => true
  end.

Fixpoint covered (w : WaitGroup) (code : list Instr) : bool :=
  balanced w code &&
  match code with
  | [] => true
  | x :: r => coveredBody w x && covered w r
  end.

(** the events of the program for [n] elements per class *)
Definition programEvent (n : AssetClass -> nat) (e : Event) : Prop :=
  match e with
  | UnitEnd c i => i < n c
  | _ => True
  end.

(** *** The invariant of the wait groups *)

(** Either no instruction counted by [first] is left, or every goroutine
    passes the scan. *)
Definition ordered (first second : Instr -> nat) (ts : list (list Instr)) : Prop :=
  total first ts = 0 \/ Forall (fun L => scan first second L = true) ts.

Record invariant (n : AssetClass -> nat) (s : State) : Prop := mkInvariant {
  inv_adds : forall w, total (isAdd w) (threads s) <= 1;
  inv_waits : forall w, total (isWait w) (threads s) <= 1;
  inv_add_wait : forall w, ordered (isAdd w) (isWait w) (threads s);
  inv_wait_release :
    forall w, ordered (isWait w) (isEmit (release w)) (threads s);
  inv_count :
    forall w, count s w + total (addAmount w) (threads s)
              = total (isDone w) (threads s);
  inv_closed :
    forall w, total (isWait w) (threads s) = 0 -> total (isDone w) (threads s) = 0;
  inv_covered : forall w, Forall (fun L => covered w L = true) (threads s);
  inv_pending :
    forall e, programEvent n e ->
              In e (events s) \/ 1 <= total (isEmit e) (threads s)
}.

(** The two-level join, on the events so far: whatever was guarded by a wait
    group came before the event that follows its [Wait]. *)
Definition joined (n : AssetClass -> nat) (tr : list Event) : Prop :=
  forall w l1 l2, tr = (l1 ++ release w :: l2)%list ->
  forall e, programEvent n e -> guard e = Some w -> In e l2.

Definition unitGoroutines (c : AssetClass) (panics : nat -> bool) (l : list nat)
  : list Instr :=
  map (fun i => Go (unitCode c i (panics i))) l.

Definition classTail (c : AssetClass) : list Instr :=
  [Wait (Inner c); Emit (ClassEnd c); Done Outer].

Definition here (P : Prop) (d : {P} + {~ P}) : nat := if d then 1 else 0.

Open Scope list_scope.

(** *** States and traces of the schedules *)

Definition unitBodies (c : AssetClass) (p : nat -> bool) (l : list nat)
  : list (list Instr) :=
  map (fun i => unitCode c i (p i)) l.

Definition mainTail : list Instr := [Wait Outer; Emit Serialized].

(** All goroutines have been started, and none has run yet. *)
Definition allStarted (n : AssetClass -> nat) (p : AssetClass -> nat -> bool)
  : State :=
  mkState
    ([mainTail; classTail CSS; classTail JS; classTail Images]
       ++ (unitBodies CSS (p CSS) (seq 0 (n CSS))
             ++ unitBodies JS (p JS) (seq 0 (n JS)))
       ++ unitBodies Images (p Images) (seq 0 (n Images)))
    (bump (Inner Images) (fun j => j + n Images)
       (bump (Inner JS) (fun j => j + n JS)
          (bump (Inner CSS) (fun j => j + n CSS)
             (bump Outer (fun j => j + 3) (fun _ => 0)))))
    [] false.

Definition noPanic : nat -> bool := fun _ => false.

Definition upd {A : Type} (x : AssetClass) (v : A) (f : AssetClass -> A)
  : AssetClass -> A :=
  fun y => if class_eq_dec x y then v else f y.

(** The goroutines once all are started: [Cure], the three routines, and
    the goroutines of the elements, class by class. *)
Definition layout (m : list Instr) (f : AssetClass -> list Instr)
           (g : AssetClass -> list (list Instr)) : list (list Instr) :=
  [m; f CSS; f JS; f Images] ++ (g CSS ++ g JS) ++ g Images.

(** The events of the goroutines of a class that ran one after the other,
    the latest first. *)
Definition unitsDone (n : AssetClass -> nat) (x : AssetClass) : list Event :=
  rev (map (UnitEnd x) (seq 0 (n x))).

(** The events of the run in which class [a] is cured, then [b], then [c]. *)
Definition sequential (n : AssetClass -> nat) (a b c : AssetClass) : list Event :=
  [Serialized] ++ [ClassEnd c] ++ unitsDone n c
    ++ [ClassEnd b] ++ unitsDone n b
    ++ [ClassEnd a] ++ unitsDone n a.

(** [e1] is in the trace before [e2] (the trace has the latest event first). *)
Definition happensBefore (tr : list Event) (e1 e2 : Event) : Prop :=
  exists l1 l2, tr = l1 ++ e2 :: l2 /\ In e1 l2.

(** The order of the two joins: a goroutine of an element before its
    routine, and both before the serialization. *)
Definition joinOrder (e1 e2 : Event) : Prop :=
  match e1, e2 with
  | UnitEnd c _, ClassEnd c' => c = c'
  | UnitEnd _ _, Serialized => True
  | ClassEnd _, Serialized => True
  | _, _ => False
  end.

Open Scope string_scope.

(* ================================================================== *)
(** * Properties *)
(* ================================================================== *)

(** ** [strings]: the equations of [Replace] *)

Lemma HasPrefix_app (old rest : string) : strings.HasPrefix (old ++ rest) old = true.
Proof.
  induction old as [|c old IH]; simpl; [reflexivity|].
  rewrite Ascii.eqb_refl. exact IH.
Qed.

Lemma HasPrefix_split (s old : string) :
  strings.HasPrefix s old = true -> exists rest, s = old ++ rest.
Proof.
  revert s. induction old as [|c old IH]; intros s H.
  - exists s. reflexivity.
  - destruct s as [|d s]; simpl in H; [discriminate|].
    apply andb_true_iff in H. destruct H as [Hc Hs].
    apply Ascii.eqb_eq in Hc. subst d.
    destruct (IH s Hs) as [rest ->]. exists rest. reflexivity.
Qed.

Lemma replace_scan_skip (old new : string) (n : Z) (dropped rest : string) :
  strings.replace_scan old new (String.length dropped) n (dropped ++ rest)
  = strings.replace_scan old new 0 n rest.
Proof.
  induction dropped as [|c dropped IH]; simpl.
  - destruct rest; reflexivity.
  - exact IH.
Qed.

(** With a negative bound every occurrence is replaced, whatever the bound. *)
Lemma replace_scan_negative (old new : string) (s : string) :
  forall (skip : nat) (n m : Z), (n < 0)%Z -> (m < 0)%Z ->
  strings.replace_scan old new skip n s = strings.replace_scan old new skip m s.
Proof.
  induction s as [|c s IH]; intros skip n m Hn Hm; simpl; [reflexivity|].
  destruct skip as [|k].
  - destruct (Z.eqb_spec n 0); [lia|]. destruct (Z.eqb_spec m 0); [lia|].
    destruct (strings.HasPrefix (String c s) old).
    + f_equal. apply IH; lia.
    + f_equal. apply IH; lia.
  - apply IH; assumption.
Qed.

(** An occurrence at the head is replaced and the scan goes on behind it. *)
Lemma Replace_all_here (c : ascii) (old new rest : string) :
  strings.Replace (String c old ++ rest) (String c old) new (-1)
  = new ++ strings.Replace rest (String c old) new (-1).
Proof.
  unfold strings.Replace. simpl.
  rewrite Ascii.eqb_refl, HasPrefix_app. simpl.
  rewrite Nat.sub_0_r, replace_scan_skip.
  f_equal. apply replace_scan_negative; lia.
Qed.

(** A byte that starts no occurrence is kept. *)
Lemma Replace_all_next (c d : ascii) (s old new : string) :
  strings.HasPrefix (String c s) (String d old) = false ->
  strings.Replace (String c s) (String d old) new (-1)
  = String c (strings.Replace s (String d old) new (-1)).
Proof.
  intros H. unfold strings.Replace.
  cbn [strings.replace_scan]. rewrite H. reflexivity.
Qed.

(** ** The URL normalizer *)

Lemma normalize_scheme_relative (origin : url.URL) :
  normalizeSourceUrl "//a.com/x.css" origin = ("http://a.com/x.css", None).
Proof. reflexivity. Qed.

Lemma normalize_traversal (scheme path query fragment : string) :
  normalizeSourceUrl "../../x.css" (url.mkURL scheme "b.com" path query fragment)
  = ("http://b.com/x.css", None).
Proof. reflexivity. Qed.

(** C2, at the input where the code leaves the claim.  The first and the third
    equation of the claim hold.  For the root-relative reference "/x.css" and
    an origin whose host is "b.com" the code joins host, "/" and the reference
    and returns "http://b.com//x.css", with two slashes, where the claim and
    the comment above [normalizeSourceUrl] in the source give
    "http://b.com/x.css". *)
Theorem normalize_root_relative_double_slash
        (scheme path query fragment : string) (origin : url.URL) :
  let b_com := url.mkURL scheme "b.com" path query fragment in
  normalizeSourceUrl "//a.com/x.css" origin = ("http://a.com/x.css", None)
  /\ normalizeSourceUrl "../../x.css" b_com = ("http://b.com/x.css", None)
  /\ normalizeSourceUrl "/x.css" b_com = ("http://b.com//x.css", None)
  /\ normalizeSourceUrl "/x.css" b_com <> ("http://b.com/x.css", None).
Proof.
  cbv zeta. repeat split; try reflexivity.
  intros H. discriminate H.
Qed.

(** The same defect on the example of the source comment. *)
Lemma normalize_source_comment_example (scheme path query fragment : string) :
  normalizeSourceUrl "/css/foo/bar.css"
    (url.mkURL scheme "domain.com" path query fragment)
  = ("http://domain.com//css/foo/bar.css", None).
Proof. reflexivity. Qed.

(** ** The asset fetcher *)

Lemma fetch_transport_error (Get : http.Transport) (u : string) (e : error) :
  Get u = Err e -> fetch Get u = (EmptyString, Some e).
Proof. intros H. unfold fetch. rewrite H. reflexivity. Qed.

Lemma fetch_body (Get : http.Transport) (u : string) (resp : http.Response) :
  Get u = Ok resp ->
  fetch Get u = match http.Body resp with
                | Ok b => (b, None)
                | Err e => (EmptyString, Some e)
                end.
Proof. intros H. unfold fetch. rewrite H. destruct (http.Body resp); reflexivity. Qed.

(** C3, counterexample: the response has the non-success status 404 and
    [fetch] returns its body with a nil error. *)
Lemma fetch_non_success_status_is_no_error :
  http.StatusCode (http.mkResponse 404 (Ok "404 page not found")) = 404%Z
  /\ notFoundTransport "http://b.com/x.css"
     = Ok (http.mkResponse 404 (Ok "404 page not found"))
  /\ fetch notFoundTransport "http://b.com/x.css" = ("404 page not found", None).
Proof. repeat split. Qed.

(** C3, amended: [fetch] fails with the transport's error when the transport
    fails and with the read error when the body cannot be read to its end;
    in every other case it returns the whole body as text with a nil error,
    whatever the status code of the response, non-success codes included. *)
Theorem fetch_contract (Get : http.Transport) (u : string) :
  (forall e, Get u = Err e -> fetch Get u = (EmptyString, Some e))
  /\ (forall status e, Get u = Ok (http.mkResponse status (Err e)) ->
      fetch Get u = (EmptyString, Some e))
  /\ (forall status body, Get u = Ok (http.mkResponse status (Ok body)) ->
      fetch Get u = (body, None))
  /\ (forall body e, fetch Get u = (body, Some e) ->
      body = EmptyString
      /\ (Get u = Err e \/ exists status, Get u = Ok (http.mkResponse status (Err e)))).
Proof.
  repeat split.
  - intros e H. exact (fetch_transport_error _ _ _ H).
  - intros status e H. rewrite (fetch_body _ _ _ H). reflexivity.
  - intros status body H. rewrite (fetch_body _ _ _ H). reflexivity.
  - unfold fetch in H. destruct (Get u) as [[status [b|e']]|e']; simpl in H; congruence.
  - unfold fetch in H. destruct (Get u) as [[status [b|e']]|e']; simpl in H.
    + discriminate.
    + right. exists status. congruence.
    + left. congruence.
Qed.

(** ** The orchestrator before configuration *)

Lemma Cure_unconfigured (env : Env) (a : Antidote) :
  ingredients a = None ->
  Cure env a = Returns (mkCureResult EmptyString (Some configurationError) a []).
Proof. intros H. unfold Cure. rewrite H. reflexivity. Qed.

Lemma Cure_configured (env : Env) (a : Antidote) (i : Ingredients)
      (origin : url.URL) (doc : goquery.Document) :
  url.Parse (URL i) = Ok origin ->
  NewDocument env (URL i) = Ok doc ->
  Cure env (Mix a (Some i))
  = bindO (cureAssets env origin doc) (fun '(doc', log) =>
      let a' := mkAntidote (Some i) (Some origin) (Some doc') (fst (Render env doc')) in
      match snd (Render env doc') with
      | Some e => Returns (mkCureResult EmptyString (Some e) a' log)
      | None => Returns (mkCureResult (fst (Render env doc')) None a' log)
      end).
Proof.
  intros Hp Hd. unfold Cure, Mix. cbn [ingredients]. rewrite Hp, Hd.
  destruct (cureAssets env origin doc) as [[doc' log]|m]; simpl; [|reflexivity].
  destruct (Render env doc') as [out [e|]]; reflexivity.
Qed.

(** C7: when [Cure] is called on an object whose ingredients were never set,
    it returns the configuration error and the empty string, logs nothing and
    leaves the object as it was; after a later [Mix] with a target that
    parses and loads, [Cure] on that object goes through the curing of the
    loaded page and returns what the serializer gives, not the configuration
    error. *)
Theorem Cure_before_Mix_is_configuration_error
        (env : Env) (a : Antidote) (H : ingredients a = None) :
  Cure env a = Returns (mkCureResult EmptyString (Some configurationError) a [])
  /\ forall (i : Ingredients) (origin : url.URL) (doc doc' : goquery.Document)
            (log : list error) (out : string),
      url.Parse (URL i) = Ok origin ->
      NewDocument env (URL i) = Ok doc ->
      cureAssets env origin doc = Returns (doc', log) ->
      Render env doc' = (out, None) ->
      forall r, Cure env a = Returns r ->
      Cure env (Mix (self r) (Some i))
      = Returns (mkCureResult out None
                   (mkAntidote (Some i) (Some origin) (Some doc') out) log).
Proof.
  split; [exact (Cure_unconfigured env a H)|].
  intros i origin doc doc' log out Hp Hd Hc Hr r Hfirst.
  rewrite (Cure_unconfigured env a H) in Hfirst.
  injection Hfirst as <-. cbn [self].
  rewrite (Cure_configured env a i origin doc Hp Hd), Hc. cbn [bindO].
  rewrite Hr. reflexivity.
Qed.

(** ** The slice of candidate extensions in [cureImages] *)

Lemma make_len_above_cap {T : Type} (zero : T) (n cap : Z) :
  (0 <= cap < n)%Z -> make zero n cap = Panics makeslicePanic.
Proof.
  intros H. unfold make.
  destruct (Z.ltb_spec n 0); [lia|].
  destruct (Z.ltb_spec cap n); [reflexivity|lia].
Qed.

Lemma make_imgExtensions_panics :
  make EmptyString (len isImageExtension) 0 = Panics makeslicePanic.
Proof. apply make_len_above_cap. unfold len. simpl. lia. Qed.

Lemma cureImages_unit_without_src (env : Env) (origin : url.URL)
      (img : html.Node) (doc : goquery.Document) :
  goquery.Attr img "src" = None ->
  cureImages_unit env origin img doc = Returns (doc, []).
Proof. intros H. unfold cureImages_unit. rewrite H. reflexivity. Qed.

(** The goroutine of an <img> element that has a src attribute panics. *)
Lemma cureImages_unit_with_src (env : Env) (origin : url.URL) (img : html.Node)
      (doc : goquery.Document) (src : string) :
  goquery.Attr img "src" = Some src ->
  cureImages_unit env origin img doc = Panics makeslicePanic.
Proof.
  intros H. unfold cureImages_unit. rewrite H, make_imgExtensions_panics. reflexivity.
Qed.

(** C1, at the inputs where the code leaves the claim: all of them.  The
    goroutine of an <img> element that has a src attribute panics when it
    builds the list of candidate extensions, [make] being asked for a length of
    twelve and a capacity of zero; this is before the extension is matched and
    before anything is fetched, so no src attribute is ever rewritten to a
    data URL, also when the reference would match an extension, normalize and
    fetch. *)
Theorem cureImages_unit_panics_before_matching
        (env : Env) (origin : url.URL) (img : html.Node)
        (doc : goquery.Document) (src : string)
        (H : goquery.Attr img "src" = Some src) :
  cureImages_unit env origin img doc = Panics makeslicePanic.
Proof.
  unfold cureImages_unit. rewrite H.
  rewrite (make_len_above_cap EmptyString (len isImageExtension) 0)
    by (unfold len; simpl; lia).
  reflexivity.
Qed.

Lemma cureImages_unit_panics_before_matching_witness :
  goquery.Attr readmeImg "src" = Some "foo.com/bar.png"
  /\ hasExtension regexp.MatchString "foo.com/bar.png" [".png"] = (".png", None)
  /\ fetch pngTransport "http://foo.com/bar.png" = ("PNG-bytes", None)
  /\ cureImages_unit (readmeEnv [readmeImg]) (url.mkURL "http" "site.org" "" "" "")
       readmeImg [readmeImg] = Panics makeslicePanic.
Proof.
  split; [reflexivity|]. split; [reflexivity|]. split; [reflexivity|].
  apply (@cureImages_unit_panics_before_matching _ _ readmeImg [readmeImg] "foo.com/bar.png").
  reflexivity.
Defined.

(** ** [regexp]: the matcher decides the language *)

Lemma append_nil_r (s : string) : s ++ "" = s.
Proof. induction s; simpl; congruence. Qed.

Lemma append_assoc (a b c : string) : (a ++ b) ++ c = a ++ b ++ c.
Proof. induction a; simpl; congruence. Qed.

Lemma append_eq_nil (a b : string) : a ++ b = "" -> a = "" /\ b = "".
Proof. destruct a; simpl; intros H; [auto | discriminate]. Qed.

Section RegexpLanguage.
Import regexp.

Lemma concat_inv (r1 r2 : Regexp) (s : string) :
  matches (Concat r1 r2) s ->
  exists s1 s2, s = s1 ++ s2 /\ matches r1 s1 /\ matches r2 s2.
Proof. intros H. inversion H; subst. eauto. Qed.

Lemma plus_inv (r : Regexp) (s : string) :
  matches (Plus r) s ->
  exists s1 s2, s = s1 ++ s2 /\ matches r s1 /\ matches (Star r) s2.
Proof. intros H. inversion H; subst. eauto. Qed.

Lemma alt_inv (r1 r2 : Regexp) (s : string) :
  matches (Alternate r1 r2) s -> matches r1 s \/ matches r2 s.
Proof. intros H. inversion H; subst; auto. Qed.

Lemma nullable_matches (r : Regexp) : nullable r = true <-> matches r "".
Proof.
  induction r as [| |c| |r1 IH1 r2 IH2|r1 IH1 r2 IH2|r IH|r IH|r IH];
    simpl; split; intros H;
    try discriminate; try (now constructor); try (inversion H; fail).
  - apply andb_true_iff in H. destruct H as [H1 H2].
    change "" with ("" ++ ""). constructor; [apply IH1 | apply IH2]; assumption.
  - destruct (concat_inv _ _ _ H) as [s1 [s2 [E [M1 M2]]]]. symmetry in E.
    apply append_eq_nil in E. destruct E; subst.
    apply andb_true_iff. split; [apply IH1 | apply IH2]; assumption.
  - apply orb_true_iff in H. destruct H as [H|H];
      [apply m_alt_l, IH1 | apply m_alt_r, IH2]; assumption.
  - apply orb_true_iff.
    destruct (alt_inv _ _ _ H); [left; apply IH1 | right; apply IH2]; assumption.
  - change "" with ("" ++ ""). constructor; [apply IH; assumption | constructor].
  - destruct (plus_inv _ _ H) as [s1 [s2 [E [M1 M2]]]]. symmetry in E.
    apply append_eq_nil in E. destruct E; subst. apply IH; assumption.
Qed.

(** A non-empty word of a starred expression starts with a non-empty word
    of the expression. *)
Lemma star_cons_inv (r : Regexp) (s : string) :
  matches (Star r) s ->
  forall a t, s = String a t ->
  exists s1 s2, t = s1 ++ s2 /\ matches r (String a s1) /\ matches (Star r) s2.
Proof.
  intros M. remember (Star r) as sr eqn:E.
  induction M; try discriminate E.
  - intros a t Ht. discriminate Ht.
  - injection E as ->. intros a t Ht.
    destruct s1 as [|b s1]; simpl in Ht.
    + apply (IHM2 eq_refl a t Ht).
    + injection Ht as -> <-. exists s1, s2. auto.
Qed.

Lemma deriv_concat_l (a : ascii) (r1 r2 : Regexp) (t : string) :
  (forall s, matches (deriv a r1) s -> matches r1 (String a s)) ->
  matches (Concat (deriv a r1) r2) t -> matches (Concat r1 r2) (String a t).
Proof.
  intros IH H. destruct (concat_inv _ _ _ H) as [s1 [s2 [-> [M1 M2]]]].
  change (String a (s1 ++ s2)) with (String a s1 ++ s2).
  constructor; [apply IH|]; assumption.
Qed.

Lemma concat_cons_inv (a : ascii) (r1 r2 : Regexp) (s : string) :
  matches (Concat r1 r2) (String a s) ->
  (exists t1 s2, s = t1 ++ s2 /\ matches r1 (String a t1) /\ matches r2 s2)
  \/ (matches r1 "" /\ matches r2 (String a s)).
Proof.
  intros H. destruct (concat_inv _ _ _ H) as [s1 [s2 [E [M1 M2]]]].
  destruct s1 as [|b s1]; simpl in E.
  - right. subst s2. auto.
  - left. injection E as <- ->. exists s1, s2. auto.
Qed.

Lemma deriv_matches (r : Regexp) :
  forall a s, matches (deriv a r) s <-> matches r (String a s).
Proof.
  induction r as [| |c| |r1 IH1 r2 IH2|r1 IH1 r2 IH2|r IH|r IH|r IH];
    intros a s; simpl.
  - split; intros H; inversion H.
  - split; intros H; inversion H.
  - destruct (Ascii.eqb_spec a c) as [->|Hne]; split; intros H; inversion H; subst.
    + constructor.
    + constructor.
    + congruence.
  - destruct (Ascii.eqb_spec a newline) as [->|Hne]; split; intros H; inversion H; subst.
    + congruence.
    + constructor; assumption.
    + constructor.
  - destruct (nullable r1) eqn:N; split; intros H.
    + destruct (alt_inv _ _ _ H) as [H'|H'].
      * apply deriv_concat_l; [apply IH1 | assumption].
      * change (String a s) with ("" ++ String a s).
        constructor; [apply nullable_matches; assumption | apply IH2; assumption].
    + destruct (concat_cons_inv _ _ _ _ H) as [[t1 [s2 [-> [M1 M2]]]]|[M1 M2]].
      * apply m_alt_l. constructor; [apply IH1|]; assumption.
      * apply m_alt_r. apply IH2. assumption.
    + apply deriv_concat_l; [apply IH1 | assumption].
    + destruct (concat_cons_inv _ _ _ _ H) as [[t1 [s2 [-> [M1 M2]]]]|[M1 M2]].
      * constructor; [apply IH1|]; assumption.
      * apply nullable_matches in M1. congruence.
  - split; intros H.
    + destruct (alt_inv _ _ _ H); [apply m_alt_l, IH1 | apply m_alt_r, IH2]; assumption.
    + destruct (alt_inv _ _ _ H); [apply m_alt_l, IH1 | apply m_alt_r, IH2]; assumption.
  - split; intros H.
    + destruct (concat_inv _ _ _ H) as [s1 [s2 [-> [M1 M2]]]].
      change (String a (s1 ++ s2)) with (String a s1 ++ s2).
      apply m_star_cons; [apply IH|]; assumption.
    + destruct (star_cons_inv _ _ H _ _ eq_refl) as [s1 [s2 [-> [M1 M2]]]].
      constructor; [apply IH|]; assumption.
  - split; intros H.
    + destruct (concat_inv _ _ _ H) as [s1 [s2 [-> [M1 M2]]]].
      change (String a (s1 ++ s2)) with (String a s1 ++ s2).
      apply m_plus; [apply IH|]; assumption.
    + destruct (plus_inv _ _ H) as [s1 [s2 [E [M1 M2]]]].
      destruct s1 as [|b s1]; simpl in E.
      * subst s2. destruct (star_cons_inv _ _ M2 _ _ eq_refl) as [t1 [t2 [-> [N1 N2]]]].
        constructor; [apply IH|]; assumption.
      * injection E as <- ->. constructor; [apply IH|]; assumption.
  - split; intros H.
    + apply m_quest, IH; assumption.
    + inversion H; subst. apply IH; assumption.
Qed.

Lemma matchPrefix_spec (s : string) :
  forall r, matchPrefix r s = true <->
            exists m rest, s = m ++ rest /\ matches r m.
Proof.
  induction s as [|a s IH]; intros r; simpl.
  - rewrite orb_false_r, nullable_matches. split.
    + intros H. exists "", "". auto.
    + intros [m [rest [E M]]]. symmetry in E.
      apply append_eq_nil in E. destruct E; subst. assumption.
  - rewrite orb_true_iff, nullable_matches, IH. split.
    + intros [H|[m [rest [-> M]]]].
      * exists "", (String a s). auto.
      * exists (String a m), rest. split; [reflexivity | apply deriv_matches; assumption].
    + intros [m [rest [E M]]]. destruct m as [|b m]; simpl in E.
      * left. assumption.
      * injection E as <- ->. right. exists m, rest.
        split; [reflexivity | apply deriv_matches; assumption].
Qed.

(** [search] finds the expression anywhere in the subject. *)
Lemma search_spec (r : Regexp) (s : string) :
  search r s = true <->
  exists before m after, s = before ++ m ++ after /\ matches r m.
Proof.
  induction s as [|a s IH]; simpl.
  - rewrite !orb_false_r, nullable_matches. split.
    + intros H. exists "", "", "". auto.
    + intros [b [m [c [E M]]]]. symmetry in E.
      apply append_eq_nil in E. destruct E as [-> E].
      apply append_eq_nil in E. destruct E; subst. assumption.
  - rewrite orb_true_iff, orb_true_iff, nullable_matches,
      (matchPrefix_spec s (deriv a r)), IH. split.
    + intros [[H|[m [rest [-> M]]]]|[b [m [c [-> M]]]]].
      * exists "", "", (String a s). auto.
      * exists "", (String a m), rest.
        split; [reflexivity | apply deriv_matches; assumption].
      * exists (String a b), m, c. auto.
    + intros [b [m [c [E M]]]]. destruct b as [|x b]; simpl in E.
      * destruct m as [|y m]; simpl in E.
        -- left. left. assumption.
        -- injection E as <- ->. left. right. exists m, c.
           split; [reflexivity | apply deriv_matches; assumption].
      * injection E as <- ->. right. exists b, m, c. auto.
Qed.

End RegexpLanguage.

(** ** The extension matcher *)

Section HasExtension.
Variable MatchString : Matcher.
Variable src : string.

Lemma hasExtension_skip (before rest : list string) :
  (forall x, In x before -> MatchString x src = (false, None)) ->
  hasExtension MatchString src (before ++ rest)%list
  = hasExtension MatchString src rest.
Proof.
  induction before as [|x before IH]; intros H; simpl; [reflexivity|].
  rewrite (H x (or_introl eq_refl)). apply IH.
  intros y Hy. apply H. right. assumption.
Qed.

Lemma hasExtension_none (extensions : list string) :
  (forall x, In x extensions -> MatchString x src = (false, None)) ->
  hasExtension MatchString src extensions = ("", None).
Proof.
  intros H. rewrite <- (app_nil_r extensions).
  rewrite hasExtension_skip by assumption. reflexivity.
Qed.

Lemma hasExtension_first (before after : list string) (e : string) :
  (forall x, In x before -> MatchString x src = (false, None)) ->
  MatchString e src = (true, None) ->
  hasExtension MatchString src (before ++ e :: after)%list = (e, None).
Proof.
  intros H He. rewrite hasExtension_skip by assumption. simpl.
  rewrite He. reflexivity.
Qed.

Lemma hasExtension_error (before after : list string) (e : string)
      (found : bool) (err : error) :
  (forall x, In x before -> MatchString x src = (false, None)) ->
  MatchString e src = (found, Some err) ->
  hasExtension MatchString src (before ++ e :: after)%list = ("", Some err).
Proof.
  intros H He. rewrite hasExtension_skip by assumption. simpl.
  rewrite He. reflexivity.
Qed.

(** Every list of candidates is in one of the three cases. *)
Lemma hasExtension_cases (extensions : list string) :
  (forall x, In x extensions -> MatchString x src = (false, None))
  \/ exists before e after,
      extensions = (before ++ e :: after)%list
      /\ (forall x, In x before -> MatchString x src = (false, None))
      /\ (MatchString e src = (true, None)
          \/ exists found err, MatchString e src = (found, Some err)).
Proof.
  induction extensions as [|x l IH].
  - left. intros x [].
  - destruct (MatchString x src) as [found [err|]] eqn:E.
    + right. exists [], x, l.
      split; [reflexivity|]. split; [intros y []|]. right. eauto.
    + destruct found.
      * right. exists [], x, l.
        split; [reflexivity|]. split; [intros y []|]. left. exact E.
      * destruct IH as [IH|[before [e [after [-> [Hb He]]]]]].
        -- left. intros y [<-|Hy]; [exact E | apply IH; assumption].
        -- right. exists (x :: before), e, after.
           split; [reflexivity|]. split; [|assumption].
           intros y [<-|Hy]; [exact E | apply Hb; assumption].
Qed.

End HasExtension.

Lemma MatchString_compiled (pattern : string) (re : regexp.Regexp) (s : string) :
  regexp.Compile pattern = Ok re ->
  regexp.MatchString pattern s = (regexp.search re s, None).
Proof. intros H. unfold regexp.MatchString. rewrite H. reflexivity. Qed.

(** C6, counterexample: the second candidate "(" is structurally invalid, and
    [hasExtension] returns the first candidate with a nil error; with the two
    candidates in the other order it fails although ".css" matches. *)
Lemma hasExtension_invalid_candidate_behind_match :
  (exists err, regexp.Compile "(" = Err err)
  /\ regexp.MatchString ".css" "a.css" = (true, None)
  /\ hasExtension regexp.MatchString "a.css" [".css"; "("] = (".css", None)
  /\ hasExtension regexp.MatchString "a.css" ["("; ".css"]
     = ("", Some (syntaxError "missing closing )")).
Proof.
  split; [eexists; reflexivity|]. repeat split.
Qed.

(** C6, amended: the candidates are tried in list order and the first one that
    either matches or is invalid decides.  When all candidates before [e]
    compile and do not match: if [e] matches, [e] is returned; if [e] is
    invalid, the call fails with the error of [e] and the empty string; and
    when no candidate is left the result is the empty string.  A candidate
    matches when its expression is found anywhere in the reference, and the
    match is case-sensitive: "style.CSS?v=1" against [".css"] gives the empty
    string. *)
Theorem hasExtension_first_decisive_candidate
        (MatchString : Matcher) (src : string) (before after : list string)
        (e : string)
        (H : forall x, In x before -> MatchString x src = (false, None)) :
  (MatchString e src = (true, None) ->
   hasExtension MatchString src (before ++ e :: after)%list = (e, None))
  /\ (forall found err, MatchString e src = (found, Some err) ->
      hasExtension MatchString src (before ++ e :: after)%list = ("", Some err))
  /\ hasExtension MatchString src before = ("", None)
  /\ (forall pattern re s, regexp.Compile pattern = Ok re ->
      (regexp.MatchString pattern s = (true, None) <->
       exists l m r, s = l ++ m ++ r /\ regexp.matches re m))
  /\ hasExtension regexp.MatchString "style.CSS?v=1" [".css"] = ("", None).
Proof.
  split; [|split; [|split; [|split]]].
  - intros He. apply hasExtension_first; assumption.
  - intros found err He. eapply hasExtension_error; eassumption.
  - apply hasExtension_none. assumption.
  - intros pattern re s Hc. rewrite (@MatchString_compiled pattern re s Hc), <- search_spec.
    split; [congruence|]. intros ->. reflexivity.
  - reflexivity.
Qed.

Lemma hasExtension_first_decisive_candidate_witness :
  hasExtension regexp.MatchString "a.css?v=1" [".js"; ".css"; "("] = (".css", None).
Proof.
  apply (proj1 (@hasExtension_first_decisive_candidate
                  regexp.MatchString "a.css?v=1" [".js"] ["("] ".css"
                  (fun x Hx => match Hx with
                               | or_introl E => eq_ind ".js"
                                   (fun y => regexp.MatchString y "a.css?v=1" = (false, None))
                                   eq_refl x E
                               | or_intror F => match F with end
                               end))).
  reflexivity.
Defined.

(** *** The pattern ".css" *)

Lemma literal_inv (c : ascii) (s : string) :
  regexp.matches (regexp.Literal c) s -> s = String c "".
Proof. intros H. inversion H. reflexivity. Qed.

Lemma any_inv (s : string) :
  regexp.matches regexp.AnyCharNotNL s ->
  exists c, c <> regexp.newline /\ s = String c "".
Proof. intros H. inversion H; subst. eauto. Qed.

Lemma dot_css_language (m : string) :
  regexp.matches dot_css m <-> exists c, c <> regexp.newline /\ m = String c "css".
Proof.
  split.
  - intros H. unfold dot_css in H.
    destruct (concat_inv _ _ _ H) as [s1 [s2 [-> [M1 M2]]]].
    destruct (concat_inv _ _ _ M2) as [s3 [s4 [-> [M3 M4]]]].
    destruct (concat_inv _ _ _ M4) as [s5 [s6 [-> [M5 M6]]]].
    destruct (any_inv _ M1) as [c [Hc ->]].
    rewrite (literal_inv _ _ M3), (literal_inv _ _ M5), (literal_inv _ _ M6).
    exists c. split; [assumption | reflexivity].
  - intros [c [Hc ->]]. unfold dot_css.
    change (String c "css") with (String c "" ++ "c" ++ "s" ++ "s").
    repeat constructor. assumption.
Qed.

Lemma MatchString_dot_css (ref : string) :
  regexp.MatchString ".css" ref = (true, None) <-> byte_before_css ref.
Proof.
  rewrite (@MatchString_compiled ".css" dot_css ref eq_refl).
  split.
  - intros H. assert (S : regexp.search dot_css ref = true) by congruence.
    apply search_spec in S. destruct S as [l [m [r [-> M]]]].
    apply dot_css_language in M. destruct M as [c [Hc ->]].
    exists l, c, r. split; [reflexivity | assumption].
  - intros [l [c [r [-> Hc]]]].
    assert (S : regexp.search dot_css (l ++ String c ("css" ++ r)) = true).
    { apply search_spec. exists l, (String c "css"), r.
      split; [reflexivity | apply dot_css_language; eauto]. }
    rewrite S. reflexivity.
Qed.

(** C10, counterexample: in the reference made of a line feed and "css" a
    character stands right before "css", and ".css" does not match. *)
Lemma dot_does_not_match_newline :
  (exists c, String regexp.newline "css" = String c "css")
  /\ hasExtension regexp.MatchString (String regexp.newline "css") [".css"]
     = ("", None).
Proof. split; [eexists; reflexivity | reflexivity]. Qed.

(** C10, amended: a candidate is a regular expression, in which "." stands
    for any single character except the line feed.  [hasExtension] returns
    ".css" for exactly the references that hold a character other than the
    line feed right before "css", and the empty string for all others;
    "xcss.json" is one of the former although ".css" does not occur in it. *)
Theorem hasExtension_dot_is_a_wildcard (ref : string) :
  (byte_before_css ref ->
   hasExtension regexp.MatchString ref [".css"] = (".css", None))
  /\ (~ byte_before_css ref ->
      hasExtension regexp.MatchString ref [".css"] = ("", None))
  /\ hasExtension regexp.MatchString "xcss.json" [".css"] = (".css", None)
  /\ strings.Contains "xcss.json" ".css" = false.
Proof.
  split; [|split; [|split; reflexivity]].
  - intros H. apply MatchString_dot_css in H. cbn [hasExtension].
    rewrite H. reflexivity.
  - intros H. cbn [hasExtension].
    rewrite (@MatchString_compiled ".css" dot_css ref eq_refl).
    destruct (regexp.search dot_css ref) eqn:S; [|reflexivity].
    exfalso. apply H, MatchString_dot_css.
    rewrite (@MatchString_compiled ".css" dot_css ref eq_refl), S. reflexivity.
Qed.

Lemma hasExtension_dot_is_a_wildcard_witness :
  hasExtension regexp.MatchString "/cssfiles/data.json" [".css"] = (".css", None).
Proof.
  apply (proj1 (hasExtension_dot_is_a_wildcard "/cssfiles/data.json")).
  exists "", "/"%char, "files/data.json". split; [reflexivity | discriminate].
Defined.

(** ** Trees: addresses and replacement in place *)

(** Induction on trees. *)
Lemma Node_forest_ind (P : html.Node -> Prop) :
  (forall d, P (html.TextNode d)) ->
  (forall d, P (html.CommentNode d)) ->
  (forall d, P (html.DoctypeNode d)) ->
  (forall a d attrs ch, Forall P ch -> P (html.ElementNode a d attrs ch)) ->
  (forall m, P (html.RawNode m)) ->
  forall n, P n.
Proof.
  intros Ht Hc Hd He Hr. fix IH 1. intros [d|d|d|a d attrs ch|m].
  - apply Ht.
  - apply Hc.
  - apply Hd.
  - apply He. induction ch as [|c ch IHch]; constructor; [apply IH | exact IHch].
  - apply Hr.
Qed.

Lemma flat_map_ext_Forall {A B : Type} (f g : A -> list B) (l : list A) :
  Forall (fun x => f x = g x) l -> flat_map f l = flat_map g l.
Proof. induction 1; simpl; congruence. Qed.

Lemma remove_node_absent (p : nat) (n : html.Node) :
  ~ In p (addresses n) -> goquery.remove_node p n = [n].
Proof.
  induction n as [d|d|d|a d attrs ch IH|m] using Node_forest_ind;
    intros H; try reflexivity.
  simpl in *. destruct a as [q|]; simpl in *.
  - destruct (Nat.eqb_spec q p) as [->|Hne]; [exfalso; apply H; left; reflexivity|].
    do 2 f_equal.
    assert (Hch : ~ In p (flat_map addresses ch)) by (intros F; apply H; right; exact F).
    clear H. induction IH as [|c ch Hc _ IHch]; simpl in *; [reflexivity|].
    rewrite Hc, IHch; [reflexivity| |];
      intros F; apply Hch, in_or_app; [right|left]; exact F.
  - do 2 f_equal.
    induction IH as [|c ch Hc _ IHch]; simpl in *; [reflexivity|].
    rewrite Hc, IHch; [reflexivity| |];
      intros F; apply H, in_or_app; [right|left]; exact F.
Qed.

Lemma remove_forest_absent (p : nat) (l : list html.Node) :
  ~ In p (flat_map addresses l) -> flat_map (goquery.remove_node p) l = l.
Proof.
  induction l as [|n l IH]; simpl; intros H; [reflexivity|].
  rewrite remove_node_absent, IH; [reflexivity| |];
    intros F; apply H, in_or_app; [right|left]; exact F.
Qed.

(** [AfterNodes] followed by [Remove] is the replacement in place. *)
Lemma remove_after_node (p : nat) (news : list html.Node) (n : html.Node) :
  ~ In p (flat_map addresses news) ->
  flat_map (goquery.remove_node p) (goquery.after_node p news n)
  = spec_replace_node p news n.
Proof.
  intros Hnews.
  induction n as [d|d|d|a d attrs ch IH|m] using Node_forest_ind; try reflexivity.
  simpl. destruct (goquery.is_at p a) eqn:E.
  - simpl. apply remove_forest_absent. assumption.
  - simpl. do 2 f_equal.
    induction IH as [|c ch Hc _ IHch]; simpl; [reflexivity|].
    rewrite flat_map_app, Hc, IHch. reflexivity.
Qed.

Lemma Remove_AfterNodes (sel : html.Node) (p : nat) (news : list html.Node)
      (doc : goquery.Document) :
  goquery.addr_of sel = Some p ->
  ~ In p (flat_map addresses news) ->
  goquery.Remove sel (goquery.AfterNodes sel news doc) = spec_replace p news doc.
Proof.
  intros Hp Hnews. unfold goquery.Remove, goquery.AfterNodes, spec_replace.
  rewrite Hp. induction doc as [|n doc IH]; simpl; [reflexivity|].
  rewrite flat_map_app, remove_after_node, IH by assumption. reflexivity.
Qed.

Lemma NoDup_app_inv {A : Type} (l1 l2 : list A) :
  NoDup (l1 ++ l2)%list ->
  NoDup l1 /\ NoDup l2 /\ (forall x, In x l1 -> ~ In x l2).
Proof.
  induction l1 as [|a l1 IH]; simpl; intros H.
  - repeat split; [constructor | assumption | intros x []].
  - inversion H as [|? ? Hn Hd]; subst.
    destruct (IH Hd) as [H1 [H2 H3]]. repeat split.
    + constructor; [|assumption]. intros F. apply Hn, in_or_app. left. exact F.
    + assumption.
    + intros x [<-|Hx] F; [apply Hn, in_or_app; right; exact F | exact (H3 x Hx F)].
Qed.

Lemma spec_replace_node_absent (p : nat) (news : list html.Node) (n : html.Node) :
  ~ In p (addresses n) -> spec_replace_node p news n = [n].
Proof.
  induction n as [d|d|d|a d attrs ch IH|m] using Node_forest_ind;
    intros H; try reflexivity.
  simpl in *. assert (E : goquery.is_at p a = false).
  { destruct a as [q|]; simpl in *; [|reflexivity].
    destruct (Nat.eqb_spec q p) as [->|]; [exfalso; apply H; left|]; reflexivity. }
  rewrite E. do 2 f_equal.
  assert (Hch : ~ In p (flat_map addresses ch)).
  { intros F. apply H, in_or_app. right. exact F. }
  clear H E. induction IH as [|c ch Hc _ IHch]; simpl in *; [reflexivity|].
  rewrite Hc, IHch; [reflexivity| |];
    intros F; apply Hch, in_or_app; [right|left]; exact F.
Qed.

Lemma spec_replace_absent (p : nat) (news : list html.Node) (l : list html.Node) :
  ~ In p (flat_map addresses l) -> spec_replace p news l = l.
Proof.
  unfold spec_replace. induction l as [|n l IH]; simpl; intros H; [reflexivity|].
  rewrite spec_replace_node_absent, IH; [reflexivity| |];
    intros F; apply H, in_or_app; [right|left]; exact F.
Qed.

(** After the replacement the address is gone from the tree. *)
Lemma spec_replace_node_gone (p : nat) (news : list html.Node) (n : html.Node) :
  ~ In p (flat_map addresses news) ->
  ~ In p (flat_map addresses (spec_replace_node p news n)).
Proof.
  intros Hnews.
  induction n as [d|d|d|a d attrs ch IH|m] using Node_forest_ind;
    try (simpl; tauto).
  simpl. destruct (goquery.is_at p a) eqn:E; [assumption|].
  simpl. rewrite app_nil_r. intros F. apply in_app_or in F. destruct F as [F|F].
  - destruct a as [q|]; simpl in *; [|contradiction].
    destruct F as [->|[]]. rewrite Nat.eqb_refl in E. discriminate.
  - clear E. induction IH as [|c ch Hc _ IHch]; simpl in F; [contradiction|].
    rewrite flat_map_app in F. apply in_app_or in F. destruct F as [F|F]; auto.
Qed.

Lemma spec_replace_gone (p : nat) (news : list html.Node) (l : list html.Node) :
  ~ In p (flat_map addresses news) ->
  ~ In p (flat_map addresses (spec_replace p news l)).
Proof.
  intros Hnews. unfold spec_replace.
  induction l as [|n l IH]; simpl; [tauto|].
  rewrite flat_map_app. intros F. apply in_app_or in F. destruct F as [F|F].
  - exact (@spec_replace_node_gone p news n Hnews F).
  - exact (IH F).
Qed.

Lemma replaced_at_cons (p : nat) (news : list html.Node) (n : html.Node)
      (l l' : list html.Node) :
  replaced_at p news l l' -> replaced_at p news (n :: l) (n :: l').
Proof.
  intros H. destruct H as [pre post d attrs ch|pre post a d attrs ch ch' H].
  - apply (replaced_here p news (n :: pre)).
  - apply (replaced_below p news (n :: pre) post a d attrs ch ch' H).
Qed.

Section ReplacedAt.
Variables (p : nat) (news : list html.Node).

(** the replacement takes place once, inside [n] *)
Let once (n : html.Node) : Prop :=
  In p (addresses n) -> NoDup (addresses n) ->
  forall post, replaced_at p news (n :: post) (spec_replace_node p news n ++ post)%list.

Lemma replaced_at_forest (l : list html.Node) :
  Forall once l ->
  In p (flat_map addresses l) -> NoDup (flat_map addresses l) ->
  replaced_at p news l (flat_map (spec_replace_node p news) l).
Proof.
  induction 1 as [|n l Hn _ IH]; simpl; intros Hin Hnd; [contradiction|].
  apply NoDup_app_inv in Hnd. destruct Hnd as [Hd1 [Hd2 Hdis]].
  apply in_app_or in Hin. destruct Hin as [Hin|Hin].
  - fold (spec_replace p news l). rewrite spec_replace_absent by (apply Hdis; assumption).
    apply Hn; assumption.
  - rewrite spec_replace_node_absent by (intros F; exact (Hdis _ F Hin)).
    simpl. apply replaced_at_cons. apply IH; assumption.
Qed.

Lemma replaced_at_node (n : html.Node) : once n.
Proof.
  induction n as [d|d|d|a d attrs ch IH|m] using Node_forest_ind;
    unfold once; simpl; try contradiction.
  intros Hin Hnd post. destruct a as [q|]; simpl in *.
  - destruct (Nat.eqb_spec q p) as [->|Hne].
    + apply (replaced_here p news []).
    + destruct Hin as [->|Hin]; [contradiction|].
      inversion Hnd; subst.
      apply (replaced_below p news [] post (Some q) d attrs).
      apply replaced_at_forest; assumption.
  - apply (replaced_below p news [] post None d attrs).
    apply replaced_at_forest; assumption.
Qed.

End ReplacedAt.

(** In a tree whose addresses are distinct, the replacement in place is the
    replacement of one element among its siblings. *)
Lemma spec_replace_replaced_at (p : nat) (news : list html.Node)
      (doc : goquery.Document) :
  In p (flat_map addresses doc) -> NoDup (flat_map addresses doc) ->
  replaced_at p news doc (spec_replace p news doc).
Proof.
  intros Hin Hnd. apply replaced_at_forest; [|assumption|assumption].
  apply Forall_forall. intros n _. apply replaced_at_node.
Qed.

(** ** Parsing the markup of an inline element *)

Lemma lower_is_not_lt (t : ascii) :
  is_lower t = true ->
  (Ascii.eqb "<" t || (nat_of_ascii "<" =? nat_of_ascii t - 32)%nat) = false.
Proof.
  intros H. unfold is_lower, byte_in in H.
  apply andb_true_iff in H. destruct H as [H1 H2].
  apply Nat.leb_le in H1. apply Nat.leb_le in H2.
  change (nat_of_ascii "a") with 97 in H1. change (nat_of_ascii "z") with 122 in H2.
  apply orb_false_iff. split.
  - destruct (Ascii.eqb_spec "<"%char t) as [<-|]; [|reflexivity].
    change (nat_of_ascii "<") with 60 in H1. lia.
  - change (nat_of_ascii "<") with 60. apply Nat.eqb_neq. lia.
Qed.

(** Behind a text that ends before "<", the tag name is read as in the text
    alone. *)
Lemma matchTag_app_lt (tag : string) :
  strings.all_bytes is_lower tag = true ->
  forall r y,
    html.matchTag tag (r ++ String "<" y)
    = match html.matchTag tag r with
      | Some rest => Some (rest ++ String "<" y)
      | None => None
      end.
Proof.
  induction tag as [|t tag IH]; intros Hl r y; [reflexivity|].
  unfold strings.all_bytes in Hl. cbn [list_ascii_of_string forallb] in Hl.
  apply andb_true_iff in Hl. destruct Hl as [Ht Hl].
  destruct r as [|c r]; cbn [html.matchTag String.append].
  - rewrite (@lower_is_not_lt t Ht). reflexivity.
  - destruct (Ascii.eqb c t || (nat_of_ascii c =? nat_of_ascii t - 32)%nat);
      [apply IH; exact Hl | reflexivity].
Qed.

Lemma isRawEndTag_app_lt (tag r y : string) :
  strings.all_bytes is_lower tag = true ->
  r <> "" ->
  html.isRawEndTag tag (r ++ String "<" y) = html.isRawEndTag tag r.
Proof.
  intros Hl Hr. destruct r as [|c r]; [congruence|]. clear Hr.
  unfold html.isRawEndTag. cbn [String.append].
  destruct r as [|c2 r]; cbn [String.append].
  - destruct (Ascii.eqb c "<"); reflexivity.
  - rewrite (@matchTag_app_lt tag Hl).
    destruct (html.matchTag tag r) as [[|d rest]|]; reflexivity.
Qed.

Lemma matchTag_self (tag rest : string) :
  strings.all_bytes is_lower tag = true ->
  html.matchTag tag (tag ++ rest) = Some rest.
Proof.
  induction tag as [|x t IHt]; intros Ht; [reflexivity|].
  cbn [html.matchTag String.append]. rewrite Ascii.eqb_refl.
  cbn [orb]. apply IHt.
  unfold strings.all_bytes in *. cbn [list_ascii_of_string forallb] in Ht.
  apply andb_true_iff in Ht. tauto.
Qed.

Lemma isRawEndTag_closing_tag (tag : string) :
  strings.all_bytes is_lower tag = true ->
  html.isRawEndTag tag ("</" ++ tag ++ ">") = true.
Proof.
  intros Hl. unfold html.isRawEndTag. cbn [String.append].
  rewrite (@matchTag_self tag ">" Hl). reflexivity.
Qed.

Lemma splitRaw_closing_tag (tag source : string) :
  strings.all_bytes is_lower tag = true ->
  hasRawEndTag tag source = false ->
  html.splitRaw tag (source ++ "</" ++ tag ++ ">") = (source, "</" ++ tag ++ ">").
Proof.
  intros Hl. induction source as [|c source IH]; intros H.
  - pose proof (@isRawEndTag_closing_tag tag Hl) as E.
    cbn [String.append] in *. cbn [html.splitRaw]. rewrite E. reflexivity.
  - cbn [hasRawEndTag] in H. apply orb_false_iff in H. destruct H as [H1 H2].
    pose proof (@isRawEndTag_app_lt tag (String c source) ("/" ++ tag ++ ">") Hl) as E.
    cbn [String.append] in *. cbn [html.splitRaw].
    rewrite E by discriminate. rewrite H1, (IH H2). reflexivity.
Qed.

Lemma convertNewlines_without_CR (s : string) :
  byte_elem html.CR s = false -> html.convertNewlines s = s.
Proof.
  unfold byte_elem. induction s as [|c s IH]; [reflexivity|].
  cbn [list_ascii_of_string existsb html.convertNewlines].
  intros H. apply orb_false_iff in H. destruct H as [Hc Hs].
  destruct (Ascii.eqb_spec c html.CR) as [->|_].
  - rewrite Ascii.eqb_refl in Hc. discriminate.
  - rewrite (IH Hs). reflexivity.
Qed.

Lemma convertNUL_without_NUL (s : string) :
  byte_elem html.NUL s = false -> html.convertNUL s = s.
Proof.
  unfold byte_elem. induction s as [|c s IH]; [reflexivity|].
  cbn [list_ascii_of_string existsb html.convertNUL].
  intros H. apply orb_false_iff in H. destruct H as [Hc Hs].
  destruct (Ascii.eqb_spec c html.NUL) as [->|_].
  - rewrite Ascii.eqb_refl in Hc. discriminate.
  - rewrite (IH Hs). reflexivity.
Qed.

Lemma rawElement_inline (tag source : string) :
  strings.all_bytes is_lower tag = true ->
  hasRawEndTag tag source = false ->
  byte_elem html.CR source || byte_elem html.NUL source = false ->
  html.rawElement tag (source ++ "</" ++ tag ++ ">") = [inline tag source].
Proof.
  intros Hl He Hc. apply orb_false_iff in Hc. destruct Hc as [Hc Hz].
  unfold html.rawElement.
  rewrite (@splitRaw_closing_tag tag source Hl He).
  rewrite (@convertNewlines_without_CR source Hc), (convertNUL_without_NUL source Hz),
    String.eqb_refl, orb_true_r.
  reflexivity.
Qed.

(** The markup of a style element reads back as that element. *)
Lemma ParseFragment_style (source : string) :
  rawTextSafe "style" source = true ->
  html.ParseFragment ("<style>" ++ source ++ "</style>") = [inline "style" source].
Proof.
  unfold rawTextSafe. intros H.
  apply andb_true_iff in H. destruct H as [H _].
  apply andb_true_iff in H. destruct H as [He Hc].
  apply negb_true_iff in He. apply negb_true_iff in Hc.
  unfold html.ParseFragment.
  change (strings.HasPrefix ("<style>" ++ source ++ "</style>") "<style>") with true.
  change (strings.drop 7 ("<style>" ++ source ++ "</style>"))
    with (source ++ "</" ++ "style" ++ ">").
  cbv iota. apply rawElement_inline; [reflexivity | assumption | assumption].
Qed.

(** The markup of a script element reads back as that element. *)
Lemma ParseFragment_script (source : string) :
  rawTextSafe "script" source = true ->
  html.ParseFragment ("<script>" ++ source ++ "</script>") = [inline "script" source].
Proof.
  unfold rawTextSafe. intros H.
  apply andb_true_iff in H. destruct H as [H Hs].
  apply andb_true_iff in H. destruct H as [He Hc].
  apply negb_true_iff in He. apply negb_true_iff in Hc.
  apply negb_true_iff in Hs. cbn [String.eqb Ascii.eqb Bool.eqb andb] in Hs.
  unfold html.ParseFragment.
  change (strings.HasPrefix ("<script>" ++ source ++ "</script>") "<style>") with false.
  change (strings.HasPrefix ("<script>" ++ source ++ "</script>") "<script>") with true.
  change (strings.drop 8 ("<script>" ++ source ++ "</script>"))
    with (source ++ "</" ++ "script" ++ ">").
  cbv iota.
  rewrite (@splitRaw_closing_tag "script" source eq_refl He). cbn [fst].
  rewrite Hs. apply rawElement_inline; [reflexivity | assumption | assumption].
Qed.

(** The parser creates nodes without an address. *)
Lemma ParseFragment_unaddressed (h : string) :
  flat_map addresses (html.ParseFragment h) = [].
Proof.
  assert (R : forall tag body, flat_map addresses (html.rawElement tag body) = []).
  { intros tag body. unfold html.rawElement.
    destruct (html.splitRaw tag body) as [text rest].
    assert (T : flat_map addresses
                  (html.textChildren (html.convertNUL (html.convertNewlines text))) = []).
    { unfold html.textChildren. destruct (String.eqb _ _); reflexivity. }
    destruct (_ || _); simpl; rewrite T; reflexivity. }
  unfold html.ParseFragment.
  destruct (strings.HasPrefix h "<style>"); [apply R|].
  destruct (strings.HasPrefix h "<script>"); [|reflexivity].
  destruct (strings.Contains _ _); [reflexivity | apply R].
Qed.

Lemma literalContent_inline (tag text : string) :
  literalContent (inline tag text) = text.
Proof.
  unfold inline, literalContent, html.textChildren.
  destruct (String.eqb_spec text "") as [->|_]; simpl; [reflexivity|].
  apply append_nil_r.
Qed.

Lemma Sprintf_style (source : string) :
  fmt.Sprintf "<style>%s</style>" [source] = "<style>" ++ source ++ "</style>".
Proof. reflexivity. Qed.

Lemma Sprintf_script (source : string) :
  fmt.Sprintf "<script>%s</script>" [source] = "<script>" ++ source ++ "</script>".
Proof. reflexivity. Qed.

(** ** The goroutines of [cureCSS] and [cureJS] *)

Lemma hasExtension_single (M : Matcher) (src e : string) :
  hasExtension M src [e]
  = match M e src with
    | (_, Some err) => ("", Some err)
    | (true, None) => (e, None)
    | (false, None) => ("", None)
    end.
Proof.
  cbn [hasExtension]. destruct (M e src) as [[|] [err|]]; reflexivity.
Qed.

Lemma cureCSS_unit_success (env : Env) (origin : url.URL) (link : html.Node)
      (doc : goquery.Document) (href u source : string) :
  goquery.Attr link "href" = Some href ->
  regexp.MatchString ".css" href = (true, None) ->
  normalizeSourceUrl href origin = (u, None) ->
  fetch (Get env) u = (source, None) ->
  cureCSS_unit env origin link doc
  = Returns (goquery.Remove link
               (goquery.AfterHtml link ("<style>" ++ source ++ "</style>") doc), []).
Proof.
  intros Ha Hm Hn Hf. unfold cureCSS_unit.
  rewrite Ha, hasExtension_single, Hm. cbn [String.eqb negb].
  rewrite Hn, Hf, Sprintf_style. reflexivity.
Qed.

Lemma cureJS_unit_success (env : Env) (origin : url.URL) (script : html.Node)
      (doc : goquery.Document) (src u source : string) :
  goquery.Attr script "src" = Some src ->
  regexp.MatchString ".js" src = (true, None) ->
  normalizeSourceUrl src origin = (u, None) ->
  fetch (Get env) u = (source, None) ->
  cureJS_unit env origin script doc
  = Returns (goquery.Remove script
               (goquery.AfterHtml script ("<script>" ++ source ++ "</script>") doc), []).
Proof.
  intros Ha Hm Hn Hf. unfold cureJS_unit.
  rewrite Ha, hasExtension_single, Hm. cbn [String.eqb negb].
  rewrite Hn, Hf, Sprintf_script. reflexivity.
Qed.

(** A <link> goroutine that stops leaves the tree as it is and returns,
    having logged its error. *)
Lemma cureCSS_unit_fail_open (env : Env) (origin : url.URL) (link : html.Node)
      (doc : goquery.Document) (log : list error) :
  stops regexp.MatchString (Get env) origin ".css" (goquery.Attr link "href") log ->
  cureCSS_unit env origin link doc = Returns (doc, log).
Proof.
  intros H. unfold cureCSS_unit.
  remember (goquery.Attr link "href") as a eqn:Ea. clear Ea.
  destruct H as [|ref Hm|ref found err Hm|ref u err Hm Hn|ref u body err Hm Hn Hf];
    try rewrite hasExtension_single, Hm; try reflexivity.
  - destruct found; reflexivity.
  - cbn [String.eqb negb]. rewrite Hn. reflexivity.
  - cbn [String.eqb negb]. rewrite Hn, Hf. reflexivity.
Qed.

Lemma cureJS_unit_fail_open (env : Env) (origin : url.URL) (script : html.Node)
      (doc : goquery.Document) (log : list error) :
  stops regexp.MatchString (Get env) origin ".js" (goquery.Attr script "src") log ->
  cureJS_unit env origin script doc = Returns (doc, log).
Proof.
  intros H. unfold cureJS_unit.
  remember (goquery.Attr script "src") as a eqn:Ea. clear Ea.
  destruct H as [|ref Hm|ref found err Hm|ref u err Hm Hn|ref u body err Hm Hn Hf];
    try rewrite hasExtension_single, Hm; try reflexivity.
  - destruct found; reflexivity.
  - cbn [String.eqb negb]. rewrite Hn. reflexivity.
  - cbn [String.eqb negb]. rewrite Hn, Hf. reflexivity.
Qed.

(** The two kinds of goroutine never panic. *)
Lemma cureCSS_unit_returns (env : Env) (origin : url.URL) (link : html.Node)
      (doc : goquery.Document) :
  exists c, cureCSS_unit env origin link doc = Returns c.
Proof.
  unfold cureCSS_unit. destruct (goquery.Attr link "href"); [|eauto].
  destruct (hasExtension _ _ _) as [m [e|]]; [eauto|].
  destruct (negb _); [|eauto].
  destruct (normalizeSourceUrl _ _) as [u [e|]]; [eauto|].
  destruct (fetch _ _) as [b [e|]]; eauto.
Qed.

Lemma cureJS_unit_returns (env : Env) (origin : url.URL) (script : html.Node)
      (doc : goquery.Document) :
  exists c, cureJS_unit env origin script doc = Returns c.
Proof.
  unfold cureJS_unit. destruct (goquery.Attr script "src"); [|eauto].
  destruct (hasExtension _ _ _) as [m [e|]]; [eauto|].
  destruct (negb _); [|eauto].
  destruct (normalizeSourceUrl _ _) as [u [e|]]; [eauto|].
  destruct (fetch _ _) as [b [e|]]; eauto.
Qed.

(** *** Replacement by the inline element *)

Lemma Remove_AfterHtml (sel : html.Node) (p : nat) (h : string)
      (doc : goquery.Document) :
  goquery.addr_of sel = Some p ->
  goquery.Remove sel (goquery.AfterHtml sel h doc)
  = spec_replace p (html.ParseFragment h) doc.
Proof.
  intros Hp. unfold goquery.AfterHtml. apply Remove_AfterNodes; [assumption|].
  rewrite ParseFragment_unaddressed. intros [].
Qed.

(** What a goroutine of [cureCSS] or [cureJS] does to the tree when its fetch
    succeeds, for any fetched text: the element gives way to the nodes that
    the parser builds from the markup around the text. *)
Lemma cureCSS_unit_replaces (env : Env) (origin : url.URL) (link : html.Node)
      (doc : goquery.Document) (p : nat) (href u source : string) :
  goquery.addr_of link = Some p ->
  goquery.Attr link "href" = Some href ->
  regexp.MatchString ".css" href = (true, None) ->
  normalizeSourceUrl href origin = (u, None) ->
  fetch (Get env) u = (source, None) ->
  cureCSS_unit env origin link doc
  = Returns (spec_replace p
               (html.ParseFragment ("<style>" ++ source ++ "</style>")) doc, []).
Proof.
  intros Hp Ha Hm Hn Hf.
  rewrite (@cureCSS_unit_success env origin link doc href u source Ha Hm Hn Hf).
  rewrite (@Remove_AfterHtml link p _ doc Hp). reflexivity.
Qed.

Lemma cureJS_unit_replaces (env : Env) (origin : url.URL) (script : html.Node)
      (doc : goquery.Document) (p : nat) (src u source : string) :
  goquery.addr_of script = Some p ->
  goquery.Attr script "src" = Some src ->
  regexp.MatchString ".js" src = (true, None) ->
  normalizeSourceUrl src origin = (u, None) ->
  fetch (Get env) u = (source, None) ->
  cureJS_unit env origin script doc
  = Returns (spec_replace p
               (html.ParseFragment ("<script>" ++ source ++ "</script>")) doc, []).
Proof.
  intros Hp Ha Hm Hn Hf.
  rewrite (@cureJS_unit_success env origin script doc src u source Ha Hm Hn Hf).
  rewrite (@Remove_AfterHtml script p _ doc Hp). reflexivity.
Qed.

(** C4, at a failing input: a page with one <link>, which matches ".css" and
    whose fetch succeeds with the text "a{}</style>b{}".  The goroutine of
    the link, the only one that touches the tree, pastes the text between
    "<style>" and "</style>" and has the result parsed: the link is removed,
    but the new style element holds "a{}" only, and what follows the first
    closing tag is further markup behind it.  The tree is not the one in
    which the link gave way to one inline element whose literal content is
    the fetched text. *)
Lemma cureCSS_unit_fetched_text_with_closing_tag :
  fetch (Get envClosingTag) "http://b.com/a.css" = ("a{}</style>b{}", None)
  /\ cureCSS_unit envClosingTag originB linkA pageA
     = Returns
         ([html.ElementNode (Some 1) "html" []
             [html.ElementNode (Some 2) "head" []
                [html.ElementNode (Some 4) "title" [] [html.TextNode "t"];
                 html.ElementNode None "style" [] [html.TextNode "a{}"];
                 html.RawNode "</style>b{}</style>";
                 html.ElementNode (Some 5) "meta" [] []];
              html.ElementNode (Some 6) "body" [] []]], [])
  /\ cureCSS_unit envClosingTag originB linkA pageA
     <> Returns (spec_replace 3 [inline "style" "a{}</style>b{}"] pageA, []).
Proof.
  split; [reflexivity|]. split; [reflexivity|].
  intros H. discriminate H.
Qed.

Lemma inline_unaddressed (tag text : string) :
  flat_map addresses [inline tag text] = [].
Proof.
  unfold inline, html.textChildren. destruct (String.eqb text ""); reflexivity.
Qed.

(** ** The routines: all goroutines of a selection *)

Section Each.
Variable unit : html.Node -> goquery.Document -> Outcome Cured.

(** Goroutines that never panic give a routine that never panics. *)
Lemma each_returns (sel : list html.Node) :
  (forall n d, exists c, unit n d = Returns c) ->
  forall doc, exists c, each unit sel doc = Returns c.
Proof.
  intros Hu. induction sel as [|n sel IH]; intros doc; simpl; [eauto|].
  destruct (Hu n doc) as [[d1 l1] ->]. simpl.
  destruct (IH d1) as [[d2 l2] ->]. simpl. eauto.
Qed.

(** One goroutine that panics makes the routine panic. *)
Lemma each_panics (msg : string) (sel : list html.Node) :
  (forall n d, unit n d = Panics msg \/ exists c, unit n d = Returns c) ->
  (exists n, In n sel /\ forall d, unit n d = Panics msg) ->
  forall doc, each unit sel doc = Panics msg.
Proof.
  intros Hu. induction sel as [|n sel IH]; intros [x [Hx Hp]] doc; [destruct Hx|].
  simpl. destruct (Hu n doc) as [->|[[d1 l1] E]]; [reflexivity|].
  rewrite E. simpl. destruct Hx as [->|Hx].
  - rewrite Hp in E. discriminate.
  - rewrite IH by eauto. reflexivity.
Qed.

(** A relation between trees that holds across every goroutine holds across
    the routine; each goroutine of the selection ran on a tree related to the
    first and left a tree related to the last. *)
Variable R : goquery.Document -> goquery.Document -> Prop.
Hypothesis R_refl : forall d, R d d.
Hypothesis R_trans : forall d1 d2 d3, R d1 d2 -> R d2 d3 -> R d1 d3.
Hypothesis R_unit : forall n d d' l, unit n d = Returns (d', l) -> R d d'.

Lemma each_related (sel : list html.Node) :
  forall doc doc' log, each unit sel doc = Returns (doc', log) -> R doc doc'.
Proof.
  induction sel as [|n sel IH]; intros doc doc' log H; simpl in H.
  - injection H as <- _. apply R_refl.
  - destruct (unit n doc) as [[d1 l1]|m] eqn:E1; simpl in H; [|discriminate].
    destruct (each unit sel d1) as [[d2 l2]|m] eqn:E2; simpl in H; [|discriminate].
    injection H as <- _. eapply R_trans; [eapply R_unit|eapply IH]; eassumption.
Qed.

Lemma each_ran (sel : list html.Node) (n : html.Node) :
  In n sel ->
  forall doc doc' log, each unit sel doc = Returns (doc', log) ->
  exists d d' l, unit n d = Returns (d', l) /\ R doc d /\ R d' doc'.
Proof.
  induction sel as [|x sel IH]; intros Hn doc doc' log H; [destruct Hn|].
  simpl in H.
  destruct (unit x doc) as [[d1 l1]|m] eqn:E1; simpl in H; [|discriminate].
  destruct (each unit sel d1) as [[d2 l2]|m] eqn:E2; simpl in H; [|discriminate].
  injection H as <- _. destruct Hn as [->|Hn].
  - exists doc, d1, l1. split; [assumption|]. split; [apply R_refl|].
    eapply each_related; eassumption.
  - destruct (IH Hn d1 d2 l2 E2) as [d [d' [l [Hu [Ha Hb]]]]].
    exists d, d', l. split; [assumption|]. split; [|assumption].
    eapply R_trans; [eapply R_unit|]; eassumption.
Qed.

End Each.

(** *** Elements keep their address, name and attributes *)

Lemma addresses_headers_node (n : html.Node) :
  addresses n = map (fun h => fst (fst h)) (headers n).
Proof.
  induction n as [d|d|d|a d attrs ch IH|m] using Node_forest_ind; try reflexivity.
  simpl. rewrite map_app. f_equal; [destruct a; reflexivity|].
  induction IH as [|c ch Hc _ IHch]; simpl; [reflexivity|].
  rewrite map_app, Hc, IHch. reflexivity.
Qed.

Lemma addresses_headers (l : list html.Node) :
  flat_map addresses l = map (fun h => fst (fst h)) (flat_map headers l).
Proof.
  induction l as [|n l IH]; simpl; [reflexivity|].
  rewrite map_app, addresses_headers_node, IH. reflexivity.
Qed.

(** The replacement in place adds no addressed element and changes none. *)
Lemma spec_replace_node_headers (p : nat) (news : list html.Node) (n : html.Node) :
  flat_map headers news = [] ->
  incl (flat_map headers (spec_replace_node p news n)) (headers n).
Proof.
  intros Hnews.
  induction n as [d|d|d|a d attrs ch IH|m] using Node_forest_ind;
    try (simpl; apply incl_refl).
  simpl. destruct (goquery.is_at p a).
  - rewrite Hnews. intros x [].
  - simpl. rewrite app_nil_r. apply incl_app; [apply incl_appl, incl_refl|].
    apply incl_appr. induction IH as [|c ch Hc _ IHch]; simpl; [apply incl_refl|].
    rewrite flat_map_app. apply incl_app; [apply incl_appl | apply incl_appr]; assumption.
Qed.

Lemma spec_replace_headers (p : nat) (news : list html.Node) (l : list html.Node) :
  flat_map headers news = [] ->
  incl (flat_map headers (spec_replace p news l)) (flat_map headers l).
Proof.
  intros Hnews. unfold spec_replace. induction l as [|n l IH]; simpl; [apply incl_refl|].
  rewrite flat_map_app. apply incl_app; [apply incl_appl | apply incl_appr; exact IH].
  apply spec_replace_node_headers. assumption.
Qed.

Lemma ParseFragment_headers (h : string) : flat_map headers (html.ParseFragment h) = [].
Proof.
  pose proof (ParseFragment_unaddressed h) as H.
  rewrite addresses_headers in H.
  destruct (flat_map headers (html.ParseFragment h)); [reflexivity | discriminate].
Qed.

(** [Find] returns the elements of that name, with their headers. *)
Lemma find_node_headers (tag : string) (n : html.Node) (p : nat)
      (attrs : list html.Attribute) :
  In (p, tag, attrs) (headers n) ->
  exists ch, In (html.ElementNode (Some p) tag attrs ch) (goquery.find_node tag n).
Proof.
  induction n as [d|d|d|a d at0 ch IH|m] using Node_forest_ind;
    try (simpl; contradiction).
  simpl. intros H. apply in_app_or in H. destruct H as [H|H].
  - destruct a as [q|]; [|destruct H]. destruct H as [H|[]].
    injection H as -> -> ->. exists ch. rewrite String.eqb_refl. left. reflexivity.
  - assert (exists c, In (html.ElementNode (Some p) tag attrs c)
                         (flat_map (goquery.find_node tag) ch)) as [c Hc].
    { induction IH as [|x ch Hx _ IHch]; simpl in H; [destruct H|].
      apply in_app_or in H. destruct H as [H|H].
      - destruct (Hx H) as [c Hc]. exists c. simpl. apply in_or_app. left. exact Hc.
      - destruct (IHch H) as [c Hc]. exists c. simpl. apply in_or_app. right. exact Hc. }
    exists c. apply in_or_app. right. exact Hc.
Qed.

Lemma Find_headers (tag : string) (doc : goquery.Document) (p : nat)
      (attrs : list html.Attribute) :
  In (p, tag, attrs) (flat_map headers doc) ->
  exists ch, In (html.ElementNode (Some p) tag attrs ch) (goquery.Find tag doc).
Proof.
  unfold goquery.Find. induction doc as [|n doc IH]; simpl; intros H; [destruct H|].
  apply in_app_or in H. destruct H as [H|H].
  - destruct (find_node_headers _ _ _ _ H) as [c Hc]. exists c. apply in_or_app. left. exact Hc.
  - destruct (IH H) as [c Hc]. exists c. apply in_or_app. right. exact Hc.
Qed.

Lemma headers_find_node (tag : string) (n x : html.Node) :
  In x (goquery.find_node tag n) ->
  exists a attrs ch, x = html.ElementNode a tag attrs ch
                     /\ forall p, a = Some p -> In (p, tag, attrs) (headers n).
Proof.
  induction n as [d|d|d|a d at0 ch IH|m] using Node_forest_ind;
    try (simpl; contradiction).
  simpl. intros H. apply in_app_or in H. destruct H as [H|H].
  - destruct (String.eqb_spec d tag) as [->|_]; [|destruct H]. destruct H as [<-|[]].
    exists a, at0, ch. split; [reflexivity|]. intros p ->. left. reflexivity.
  - assert (exists a' attrs c, x = html.ElementNode a' tag attrs c
              /\ forall p, a' = Some p -> In (p, tag, attrs) (flat_map headers ch))
      as [a' [attrs [c [-> Hh]]]].
    { induction IH as [|y ch Hy _ IHch]; simpl in H; [destruct H|].
      apply in_app_or in H. destruct H as [H|H].
      - destruct (Hy H) as [a' [attrs [c [-> Hh]]]]. exists a', attrs, c.
        split; [reflexivity|]. intros p Hp. simpl. apply in_or_app. left. auto.
      - destruct (IHch H) as [a' [attrs [c [-> Hh]]]]. exists a', attrs, c.
        split; [reflexivity|]. intros p Hp. simpl. apply in_or_app. right. auto. }
    exists a', attrs, c. split; [reflexivity|].
    intros p Hp. apply in_or_app. right. auto.
Qed.

Lemma headers_Find (tag : string) (doc : goquery.Document) (x : html.Node) :
  In x (goquery.Find tag doc) ->
  exists a attrs ch, x = html.ElementNode a tag attrs ch
                     /\ forall p, a = Some p -> In (p, tag, attrs) (flat_map headers doc).
Proof.
  unfold goquery.Find. induction doc as [|n doc IH]; simpl; intros H; [destruct H|].
  apply in_app_or in H. destruct H as [H|H].
  - destruct (headers_find_node _ _ _ H) as [a [attrs [c [-> Hh]]]]. exists a, attrs, c.
    split; [reflexivity|]. intros p Hp. apply in_or_app. left. auto.
  - destruct (IH H) as [a [attrs [c [-> Hh]]]]. exists a, attrs, c.
    split; [reflexivity|]. intros p Hp. apply in_or_app. right. auto.
Qed.

(** *** What the routines keep of the tree *)

Lemma keeps_refl (d : goquery.Document) : keeps d d.
Proof. apply incl_refl. Qed.

Lemma keeps_trans (d1 d2 d3 : goquery.Document) :
  keeps d1 d2 -> keeps d2 d3 -> keeps d1 d3.
Proof. unfold keeps. intros H1 H2. eapply incl_tran; eassumption. Qed.

Lemma keeps_addresses (d d' : goquery.Document) (p : nat) :
  keeps d d' -> ~ In p (flat_map addresses d) -> ~ In p (flat_map addresses d').
Proof.
  unfold keeps. rewrite !addresses_headers. intros H Hp F. apply Hp.
  apply in_map_iff in F. destruct F as [h [E Hh]].
  apply in_map_iff. exists h. split; [assumption | apply H; assumption].
Qed.

Lemma Remove_AfterHtml_keeps (sel : html.Node) (h : string) (d : goquery.Document) :
  keeps d (goquery.Remove sel (goquery.AfterHtml sel h d)).
Proof.
  destruct (goquery.addr_of sel) as [p|] eqn:E.
  - rewrite (Remove_AfterHtml sel p h d E).
    apply spec_replace_headers, ParseFragment_headers.
  - unfold goquery.Remove, goquery.AfterHtml, goquery.AfterNodes. rewrite E.
    apply keeps_refl.
Qed.

Lemma cureCSS_unit_keeps (env : Env) (origin : url.URL) (n : html.Node)
      (d d' : goquery.Document) (l : list error) :
  cureCSS_unit env origin n d = Returns (d', l) -> keeps d d'.
Proof.
  unfold cureCSS_unit. intros H.
  destruct (goquery.Attr n "href"); [|injection H as <- _; apply keeps_refl].
  destruct (hasExtension _ _ _) as [m [e|]]; [injection H as <- _; apply keeps_refl|].
  destruct (negb _); [|injection H as <- _; apply keeps_refl].
  destruct (normalizeSourceUrl _ _) as [u [e|]]; [injection H as <- _; apply keeps_refl|].
  destruct (fetch _ _) as [b [e|]]; injection H as <- _;
    [apply keeps_refl | apply Remove_AfterHtml_keeps].
Qed.

Lemma cureJS_unit_keeps (env : Env) (origin : url.URL) (n : html.Node)
      (d d' : goquery.Document) (l : list error) :
  cureJS_unit env origin n d = Returns (d', l) -> keeps d d'.
Proof.
  unfold cureJS_unit. intros H.
  destruct (goquery.Attr n "src"); [|injection H as <- _; apply keeps_refl].
  destruct (hasExtension _ _ _) as [m [e|]]; [injection H as <- _; apply keeps_refl|].
  destruct (negb _); [|injection H as <- _; apply keeps_refl].
  destruct (normalizeSourceUrl _ _) as [u [e|]]; [injection H as <- _; apply keeps_refl|].
  destruct (fetch _ _) as [b [e|]]; injection H as <- _;
    [apply keeps_refl | apply Remove_AfterHtml_keeps].
Qed.

(** A goroutine of [cureImages] that returns has not touched the tree. *)
Lemma cureImages_unit_returns_same (env : Env) (origin : url.URL) (n : html.Node)
      (d d' : goquery.Document) (l : list error) :
  cureImages_unit env origin n d = Returns (d', l) -> d' = d /\ l = [].
Proof.
  destruct (goquery.Attr n "src") as [src|] eqn:E.
  - rewrite (cureImages_unit_with_src env origin n d src E). discriminate.
  - rewrite (cureImages_unit_without_src env origin n d E).
    intros H. injection H as <- <-. auto.
Qed.

Lemma cureImages_returns_same (env : Env) (origin : url.URL)
      (d d' : goquery.Document) (l : list error) :
  cureImages env origin d = Returns (d', l) -> d' = d /\ l = [].
Proof.
  unfold cureImages. generalize (goquery.Find "img" d). intros sel.
  revert d' l. induction sel as [|n sel IH]; intros d' l E; simpl in E.
  - injection E as <- <-. auto.
  - destruct (cureImages_unit env origin n d) as [[d1 l1]|m] eqn:U; simpl in E;
      [|discriminate].
    destruct (cureImages_unit_returns_same env origin n d d1 l1 U) as [-> ->].
    destruct (each (cureImages_unit env origin) sel d) as [[d2 l2]|m] eqn:U2;
      simpl in E; [|discriminate].
    injection E as <- <-. apply (IH d2 l2 eq_refl).
Qed.

(** The steps of a call of [Cure] that returns a document. *)
Lemma Cure_returns_steps (env : Env) (a : Antidote) (i : Ingredients)
      (origin : url.URL) (doc : goquery.Document) (r : CureResult) :
  url.Parse (URL i) = Ok origin ->
  NewDocument env (URL i) = Ok doc ->
  Cure env (Mix a (Some i)) = Returns r ->
  exists doc1 doc2 log1 log2,
    cureCSS env origin doc = Returns (doc1, log1)
    /\ cureJS env origin doc1 = Returns (doc2, log2)
    /\ cureImages env origin doc2 = Returns (doc2, [])
    /\ website (self r) = Some doc2
    /\ logged r = (log1 ++ log2)%list
    /\ (snd (Render env doc2) = None ->
        html_out r = fst (Render env doc2) /\ err_out r = None).
Proof.
  intros Hp Hd H. rewrite (Cure_configured env a i origin doc Hp Hd) in H.
  unfold cureAssets in H.
  destruct (cureCSS env origin doc) as [[doc1 log1]|m] eqn:E1; simpl in H; [|discriminate].
  destruct (cureJS env origin doc1) as [[doc2 log2]|m] eqn:E2; simpl in H; [|discriminate].
  destruct (cureImages env origin doc2) as [[doc3 log3]|m] eqn:E3; simpl in H; [|discriminate].
  destruct (cureImages_returns_same env origin doc2 doc3 log3 E3) as [-> ->].
  exists doc1, doc2, log1, log2. rewrite ?app_nil_r in H.
  split; [reflexivity|]. split; [assumption|]. split; [assumption|].
  destruct (Render env doc2) as [out [e|]]; simpl in H; injection H as <-; simpl;
    (split; [reflexivity|]); (split; [reflexivity|]); [discriminate | auto].
Qed.

Lemma NoDup_map_injective {A B : Type} (f : A -> B) (l : list A) (x y : A) :
  NoDup (map f l) -> In x l -> In y l -> f x = f y -> x = y.
Proof.
  induction l as [|a l IH]; simpl; intros Hnd Hx Hy E; [destruct Hx|].
  inversion Hnd as [|? ? Hn Hd]; subst.
  destruct Hx as [->|Hx], Hy as [->|Hy]; auto.
  - exfalso. apply Hn. rewrite E. apply in_map. assumption.
  - exfalso. apply Hn. rewrite <- E. apply in_map. assumption.
Qed.

Lemma cureCSS_keeps (env : Env) (origin : url.URL) (doc doc1 : goquery.Document)
      (log1 : list error) :
  cureCSS env origin doc = Returns (doc1, log1) -> keeps doc doc1.
Proof.
  apply (each_related (cureCSS_unit env origin) keeps keeps_refl keeps_trans
           (cureCSS_unit_keeps env origin)).
Qed.

Lemma cureJS_keeps (env : Env) (origin : url.URL) (doc doc1 : goquery.Document)
      (log1 : list error) :
  cureJS env origin doc = Returns (doc1, log1) -> keeps doc doc1.
Proof.
  apply (each_related (cureJS_unit env origin) keeps keeps_refl keeps_trans
           (cureJS_unit_keeps env origin)).
Qed.

(** The goroutine of a cured element, on the tree it finds. *)
(** ** The whole tree after a routine *)

Lemma inline_headers (tag text : string) : headers (inline tag text) = [].
Proof. unfold inline, html.textChildren. destruct (String.eqb text ""); reflexivity. Qed.

Section Inlining.

Variables tag new : string.
Variable target : list html.Attribute -> option string.

(** A tree without elements to cure is left as it is. *)
Lemma inlined_node_none (n : html.Node) :
  (forall p d attrs, In (p, d, attrs) (headers n) ->
                     hit tag target (Some p) d attrs = None) ->
  inlined_node tag new target n = [n].
Proof.
  induction n as [d|d|d|a d attrs ch IH|m] using Node_forest_ind;
    intros H; try reflexivity.
  simpl.
  assert (hit tag target a d attrs = None) as E.
  { destruct a as [p|]; [|reflexivity]. apply (H p). simpl. left. reflexivity. }
  rewrite E. do 2 f_equal.
  assert (Hch : forall p d' attrs', In (p, d', attrs') (flat_map headers ch) ->
                                    hit tag target (Some p) d' attrs' = None).
  { intros q d' attrs' F. apply H. simpl. apply in_or_app. right. exact F. }
  clear H E. induction IH as [|c ch Hc _ IHch]; simpl; [reflexivity|].
  rewrite Hc, IHch; [reflexivity | |].
  - intros q d' attrs' F. apply Hch. simpl. apply in_or_app. right. exact F.
  - intros q d' attrs' F. apply Hch. simpl. apply in_or_app. left. exact F.
Qed.

Lemma inlined_none (l : list html.Node) :
  (forall p d attrs, In (p, d, attrs) (flat_map headers l) ->
                     hit tag target (Some p) d attrs = None) ->
  inlined tag new target l = l.
Proof.
  unfold inlined. induction l as [|n l IH]; intros H; [reflexivity|].
  cbn [flat_map]. rewrite inlined_node_none, IH; [reflexivity | |].
  - intros q d attrs F. apply H. cbn [flat_map]. apply in_or_app. right. exact F.
  - intros q d attrs F. apply H. cbn [flat_map]. apply in_or_app. left. exact F.
Qed.

(** Curing one element first, in place, does not change the result. *)
Lemma inlined_spec_replace_node (p : nat) (source : string) (n : html.Node) :
  (forall d attrs, In (p, d, attrs) (headers n) ->
                   hit tag target (Some p) d attrs = Some source) ->
  flat_map (inlined_node tag new target)
           (spec_replace_node p [inline new source] n)
  = inlined_node tag new target n.
Proof.
  induction n as [d|d|d|a d attrs ch IH|m] using Node_forest_ind;
    intros H; try (simpl; reflexivity).
  cbn [spec_replace_node]. destruct (goquery.is_at p a) eqn:Ea.
  - destruct a as [q|]; [|discriminate Ea]. simpl in Ea.
    apply Nat.eqb_eq in Ea. subst q.
    assert (hit tag target (Some p) d attrs = Some source) as E
        by (apply H; simpl; left; reflexivity).
    cbn [inlined_node]. rewrite E. cbn [flat_map]. rewrite app_nil_r.
    apply inlined_node_none. rewrite inline_headers. intros q d' attrs' [].
  - cbn [flat_map]. rewrite app_nil_r. simpl.
    destruct (hit tag target a d attrs); [reflexivity|]. do 2 f_equal.
    assert (Hch : forall d' attrs', In (p, d', attrs') (flat_map headers ch) ->
                                    hit tag target (Some p) d' attrs' = Some source).
    { intros d' attrs' F. apply H. simpl. apply in_or_app. right. exact F. }
    clear H Ea. induction IH as [|c ch Hc _ IHch]; simpl; [reflexivity|].
    rewrite flat_map_app, Hc, IHch; [reflexivity | |].
    + intros d' attrs' F. apply Hch. simpl. apply in_or_app. right. exact F.
    + intros d' attrs' F. apply Hch. simpl. apply in_or_app. left. exact F.
Qed.

Lemma inlined_spec_replace (p : nat) (source : string) (l : list html.Node) :
  (forall d attrs, In (p, d, attrs) (flat_map headers l) ->
                   hit tag target (Some p) d attrs = Some source) ->
  inlined tag new target (spec_replace p [inline new source] l)
  = inlined tag new target l.
Proof.
  unfold inlined, spec_replace. induction l as [|n l IH]; intros H; [reflexivity|].
  cbn [flat_map]. rewrite flat_map_app, inlined_spec_replace_node, IH; [reflexivity | |].
  - intros d attrs F. apply H. cbn [flat_map]. apply in_or_app. right. exact F.
  - intros d attrs F. apply H. cbn [flat_map]. apply in_or_app. left. exact F.
Qed.

Variable unit : html.Node -> goquery.Document -> Outcome Cured.

Hypothesis unit_hit :
  forall p attrs ch d source,
    target attrs = Some source ->
    exists log, unit (html.ElementNode (Some p) tag attrs ch) d
                = Returns (spec_replace p [inline new source] d, log).

Hypothesis unit_miss :
  forall a attrs ch d,
    hit tag target a tag attrs = None ->
    exists log, unit (html.ElementNode a tag attrs ch) d = Returns (d, log).

(** The goroutines of a selection, one after the other: when the selection
    holds the elements of the tree that are to be cured, the tree they
    leave is the tree with all of them inlined. *)
Lemma each_inlined (sel : list html.Node) :
  forall doc doc' log,
    Forall (fun n => exists a attrs ch, n = html.ElementNode a tag attrs ch) sel ->
    (forall p attrs ch, In (html.ElementNode (Some p) tag attrs ch) sel ->
        forall d' attrs', In (p, d', attrs') (flat_map headers doc) ->
                          d' = tag /\ attrs' = attrs) ->
    (forall p d attrs source,
        In (p, d, attrs) (flat_map headers doc) ->
        hit tag target (Some p) d attrs = Some source ->
        exists ch, In (html.ElementNode (Some p) d attrs ch) sel) ->
    each unit sel doc = Returns (doc', log) ->
    doc' = inlined tag new target doc.
Proof.
  induction sel as [|n rest IH]; intros doc doc' log Hnamed Hagree Htargets H.
  - simpl in H. injection H as <- _. symmetry. apply inlined_none.
    intros p d attrs F. destruct (hit tag target (Some p) d attrs) as [s|] eqn:E;
      [|reflexivity].
    destruct (Htargets p d attrs s F E) as [ch []].
  - inversion Hnamed as [|? ? [a [attrs [ch ->]]] Hnamed']; subst.
    cbn [each] in H.
    destruct (hit tag target a tag attrs) as [source|] eqn:E.
    + destruct a as [p|]; [|discriminate E].
      assert (target attrs = Some source) as Et.
      { cbn [hit] in E. rewrite String.eqb_refl in E. exact E. }
      destruct (unit_hit p attrs ch doc source Et) as [log1 Hu].
      rewrite Hu in H. cbn [bindO] in H.
      destruct (each unit rest (spec_replace p [inline new source] doc))
        as [[d2 l2]|msg] eqn:Er; cbn [bindO] in H; [|discriminate H].
      injection H as <- _.
      transitivity (inlined tag new target (spec_replace p [inline new source] doc));
        [apply (IH _ _ l2 Hnamed'); [ | | exact Er] |].
      3: { apply inlined_spec_replace. intros d' attrs' F.
           destruct (Hagree p attrs ch (or_introl eq_refl) d' attrs' F) as [-> ->].
           exact E. }
      * intros q attrs' ch' Hin d' attrs'' F.
        apply (Hagree q attrs' ch' (or_intror Hin)).
        apply (spec_replace_headers p [inline new source] doc); [|exact F].
        cbn [flat_map]. rewrite inline_headers. reflexivity.
      * intros q d attrs' s F Eh.
        assert (In (q, d, attrs') (flat_map headers doc)) as F'.
        { apply (spec_replace_headers p [inline new source] doc); [|exact F].
          cbn [flat_map]. rewrite inline_headers. reflexivity. }
        destruct (Htargets q d attrs' s F' Eh) as [ch' [Hn|Hn]].
        -- exfalso. injection Hn as <- _ _ _.
           apply (spec_replace_gone p [inline new source] doc).
           ++ rewrite inline_unaddressed. intros [].
           ++ rewrite addresses_headers. apply in_map_iff.
              exists (p, d, attrs'). split; [reflexivity | exact F].
        -- exists ch'. exact Hn.
    + destruct (unit_miss a attrs ch doc E) as [log1 Hu].
      rewrite Hu in H. cbn [bindO] in H.
      destruct (each unit rest doc) as [[d2 l2]|msg] eqn:Er; cbn [bindO] in H;
        [|discriminate H].
      injection H as <- _.
      apply (IH _ _ l2 Hnamed'); [ | | exact Er].
      * intros q attrs' ch' Hin. apply (Hagree q attrs' ch' (or_intror Hin)).
      * intros q d attrs' s F Eh.
        destruct (Htargets q d attrs' s F Eh) as [ch' [Hn|Hn]].
        -- exfalso. injection Hn as -> <- <- _. rewrite E in Eh. discriminate Eh.
        -- exists ch'. exact Hn.
Qed.

(** A routine: the selection is [Find tag] of the tree. *)
Lemma routine_inlined (doc doc' : goquery.Document) (log : list error) :
  oneHeaderPerAddress doc ->
  each unit (goquery.Find tag doc) doc = Returns (doc', log) ->
  doc' = inlined tag new target doc.
Proof.
  intros H1 H. apply (each_inlined _ _ _ _) with (4 := H).
  - apply Forall_forall. intros x Hx.
    destruct (headers_Find tag doc x Hx) as [a [attrs [ch [-> _]]]].
    exists a, attrs, ch. reflexivity.
  - intros p attrs ch Hin d' attrs' F.
    destruct (headers_Find tag doc _ Hin) as [a [attrs0 [ch0 [E Hh]]]].
    injection E as <- <- <-.
    destruct (H1 p tag attrs d' attrs' (Hh p eq_refl) F) as [<- <-].
    split; reflexivity.
  - intros p d attrs source F Eh. cbn [hit] in Eh.
    destruct (String.eqb_spec d tag) as [->|]; [|discriminate Eh].
    apply Find_headers. exact F.
Qed.

End Inlining.

(** *** The style and script routines *)

Lemma fetched_stops (env : Env) (origin : url.URL) (attr ext : string)
      (attrs : list html.Attribute) :
  fetched env origin attr ext attrs = None ->
  exists log, stops regexp.MatchString (Get env) origin ext
                    (goquery.lookup_attr attr attrs) log.
Proof.
  unfold fetched. intros H.
  destruct (goquery.lookup_attr attr attrs) as [ref|];
    [|eexists; apply stops_no_attr].
  destruct (regexp.MatchString ext ref) as [[|] [err|]] eqn:Em.
  - eexists. eapply stops_pattern. exact Em.
  - destruct (normalizeSourceUrl ref origin) as [u [err|]] eqn:En.
    + eexists. eapply stops_normalize; eassumption.
    + destruct (fetch (Get env) u) as [body [err|]] eqn:Ef; [|discriminate H].
      eexists. eapply stops_fetch; eassumption.
  - eexists. eapply stops_pattern. exact Em.
  - eexists. apply stops_no_match. exact Em.
Qed.

Lemma fetched_Some (env : Env) (origin : url.URL) (attr ext : string)
      (attrs : list html.Attribute) (source : string) :
  fetched env origin attr ext attrs = Some source ->
  exists ref u,
    goquery.lookup_attr attr attrs = Some ref
    /\ regexp.MatchString ext ref = (true, None)
    /\ normalizeSourceUrl ref origin = (u, None)
    /\ fetch (Get env) u = (source, None).
Proof.
  unfold fetched. intros H.
  destruct (goquery.lookup_attr attr attrs) as [ref|]; [|discriminate H].
  destruct (regexp.MatchString ext ref) as [[|] [err|]] eqn:Em; try discriminate H.
  destruct (normalizeSourceUrl ref origin) as [u [err|]] eqn:En; [discriminate H|].
  destruct (fetch (Get env) u) as [body [err|]] eqn:Ef; [discriminate H|].
  injection H as ->. exists ref, u.
  split; [reflexivity|]. split; [exact Em|]. split; [exact En | exact Ef].
Qed.

Lemma NoDup_oneHeaderPerAddress (doc : goquery.Document) :
  NoDup (flat_map addresses doc) -> oneHeaderPerAddress doc.
Proof.
  rewrite addresses_headers. intros Hnd p d attrs d' attrs' H1 H2.
  pose proof (NoDup_map_injective _ _ _ _ Hnd H1 H2 eq_refl) as E.
  injection E as -> ->. split; reflexivity.
Qed.

Lemma keeps_oneHeaderPerAddress (d d' : goquery.Document) :
  keeps d d' -> oneHeaderPerAddress d -> oneHeaderPerAddress d'.
Proof.
  intros Hk H p x attrs x' attrs' H1 H2.
  exact (H p x attrs x' attrs' (Hk _ H1) (Hk _ H2)).
Qed.

(** [cureCSS] leaves the tree with every fetched style sheet inlined. *)
Lemma cureCSS_inlined (env : Env) (origin : url.URL) (doc doc' : goquery.Document)
      (log : list error) :
  servesRawText env -> oneHeaderPerAddress doc ->
  cureCSS env origin doc = Returns (doc', log) ->
  doc' = inlined "link" "style" (fetched env origin "href" ".css") doc.
Proof.
  intros Hs H1 H. unfold cureCSS in H.
  apply (routine_inlined "link" "style" (fetched env origin "href" ".css")
           (cureCSS_unit env origin)) with (log := log);
    [ | | exact H1 | exact H].
  - intros p attrs ch d source E.
    destruct (fetched_Some _ _ _ _ _ _ E) as [ref [u [Ha [Hm [Hn Hf]]]]].
    exists [].
    rewrite (cureCSS_unit_replaces env origin (html.ElementNode (Some p) "link" attrs ch)
               d p ref u source eq_refl Ha Hm Hn Hf).
    rewrite ParseFragment_style by (apply (Hs u source Hf)). reflexivity.
  - intros a attrs ch d E.
    destruct (fetched env origin "href" ".css" attrs) as [source|] eqn:Ef.
    + destruct a as [p|]; [cbn [hit] in E; rewrite String.eqb_refl, Ef in E;
                           discriminate E|].
      destruct (fetched_Some _ _ _ _ _ _ Ef) as [ref [u [Ha [Hm [Hn Hf]]]]].
      exists [].
      rewrite (cureCSS_unit_success env origin (html.ElementNode None "link" attrs ch)
                 d ref u source Ha Hm Hn Hf).
      reflexivity.
    + destruct (fetched_stops _ _ _ _ _ Ef) as [log0 St].
      exists log0. apply cureCSS_unit_fail_open. exact St.
Qed.

(** [cureJS] leaves the tree with every fetched script inlined. *)
Lemma cureJS_inlined (env : Env) (origin : url.URL) (doc doc' : goquery.Document)
      (log : list error) :
  servesRawText env -> oneHeaderPerAddress doc ->
  cureJS env origin doc = Returns (doc', log) ->
  doc' = inlined "script" "script" (fetched env origin "src" ".js") doc.
Proof.
  intros Hs H1 H. unfold cureJS in H.
  apply (routine_inlined "script" "script" (fetched env origin "src" ".js")
           (cureJS_unit env origin)) with (log := log);
    [ | | exact H1 | exact H].
  - intros p attrs ch d source E.
    destruct (fetched_Some _ _ _ _ _ _ E) as [ref [u [Ha [Hm [Hn Hf]]]]].
    exists [].
    rewrite (cureJS_unit_replaces env origin (html.ElementNode (Some p) "script" attrs ch)
               d p ref u source eq_refl Ha Hm Hn Hf).
    rewrite ParseFragment_script by (apply (Hs u source Hf)). reflexivity.
  - intros a attrs ch d E.
    destruct (fetched env origin "src" ".js" attrs) as [source|] eqn:Ef.
    + destruct a as [p|]; [cbn [hit] in E; rewrite String.eqb_refl, Ef in E;
                           discriminate E|].
      destruct (fetched_Some _ _ _ _ _ _ Ef) as [ref [u [Ha [Hm [Hn Hf]]]]].
      exists [].
      rewrite (cureJS_unit_success env origin (html.ElementNode None "script" attrs ch)
                 d ref u source Ha Hm Hn Hf).
      reflexivity.
    + destruct (fetched_stops _ _ _ _ _ Ef) as [log0 St].
      exists log0. apply cureJS_unit_fail_open. exact St.
Qed.

(** ** Failures of single elements *)

(** A goroutine that stops does not keep the goroutines behind it from
    running: the routine goes on with the tree as it was. *)
Lemma each_continues_after_failure
      (unit : html.Node -> goquery.Document -> Outcome Cured)
      (n : html.Node) (rest : list html.Node) (doc : goquery.Document)
      (log : list error) :
  unit n doc = Returns (doc, log) ->
  each unit (n :: rest) doc
  = bindO (each unit rest doc) (fun '(doc2, log2) => Returns (doc2, (log ++ log2)%list)).
Proof. intros H. simpl. rewrite H. reflexivity. Qed.

(** The error that [Cure] returns is never the error of a single element:
    it is the configuration error, the error of parsing the target, of
    loading the page or of serializing the tree. *)
Lemma Cure_error_is_fatal (env : Env) (a : Antidote) (r : CureResult) (e : error) :
  Cure env a = Returns r ->
  err_out r = Some e ->
  html_out r = ""
  /\ ((ingredients a = None /\ e = configurationError)
      \/ (exists i, ingredients a = Some i /\ url.Parse (URL i) = Err e)
      \/ (exists i, ingredients a = Some i /\ NewDocument env (URL i) = Err e)
      \/ (exists d, website (self r) = Some d /\ snd (Render env d) = Some e)).
Proof.
  unfold Cure. intros H He.
  destruct (ingredients a) as [i|] eqn:Ei.
  - destruct (url.Parse (URL i)) as [origin|e1] eqn:Ep.
    + destruct (NewDocument env (URL i)) as [doc|e2] eqn:Ed.
      * destruct (cureAssets env origin doc) as [[d l]|m]; simpl in H; [|discriminate].
        destruct (Render env d) as [out [e3|]] eqn:Er; injection H as <-; simpl in *.
        -- injection He as <-. split; [reflexivity|]. right. right. right.
           exists d. rewrite Er. auto.
        -- discriminate.
      * injection H as <-. simpl in *. injection He as <-. split; [reflexivity|].
        right. right. left. exists i. auto.
    + injection H as <-. simpl in *. injection He as <-. split; [reflexivity|].
      right. left. exists i. auto.
  - injection H as <-. simpl in *. injection He as <-. split; [reflexivity|].
    left. auto.
Qed.

(** C9, at a failing input: a page whose body holds one <img> element with a
    src attribute, and no <link> or <script> element.  [Cure] neither returns
    a document nor an error: the program panics in [cureImages]. *)
Theorem Cure_panics_on_page_with_img_src :
  let page := [html.ElementNode (Some 1) "html" []
                 [html.ElementNode (Some 2) "head" [] [];
                  html.ElementNode (Some 3) "body" [] [readmeImg]]] in
  Cure (readmeEnv page) (Mix New (Some (mkIngredients "http://site.org/")))
  = Panics makeslicePanic.
Proof. reflexivity. Qed.

(** C5.  The goroutine of a <link> or <script> element fails open, as the
    claim says: when its reference is missing or does not match, or when
    matching, normalizing or fetching fails, it logs the error, if any, and
    leaves the tree as it is; the goroutines behind it run on.  The code
    leaves the claim at a page that also holds an <img> with a src
    attribute, here with a <link> whose fetch fails: the goroutine of the
    link fails open, the goroutine of the image does not reach its fetch and
    panics, and [Cure] returns neither a document nor an error. *)
Theorem Cure_panics_where_an_element_failed_open :
  (forall (env : Env) (origin : url.URL) (n : html.Node)
          (doc : goquery.Document) (log : list error),
      (stops regexp.MatchString (Get env) origin ".css" (goquery.Attr n "href") log ->
       cureCSS_unit env origin n doc = Returns (doc, log))
      /\ (stops regexp.MatchString (Get env) origin ".js" (goquery.Attr n "src") log ->
          cureJS_unit env origin n doc = Returns (doc, log)))
  /\ (forall (unit : html.Node -> goquery.Document -> Outcome Cured)
             (n : html.Node) (rest : list html.Node) (doc : goquery.Document)
             (log : list error),
         unit n doc = Returns (doc, log) ->
         each unit (n :: rest) doc
         = bindO (each unit rest doc)
                 (fun '(doc2, log2) => Returns (doc2, (log ++ log2)%list)))
  /\ fetch (Get envRefused) "http://b.com/a.css" = ("", Some refused)
  /\ cureCSS_unit envRefused originB linkB pageB = Returns (pageB, [refused])
  /\ cureCSS envRefused originB pageB = Returns (pageB, [refused])
  /\ cureImages_unit envRefused originB imgB pageB = Panics makeslicePanic
  /\ Cure envRefused (Mix New (Some (mkIngredients "http://b.com/")))
     = Panics makeslicePanic.
Proof.
  split; [|split].
  - intros env origin n doc log. split.
    + apply cureCSS_unit_fail_open.
    + apply cureJS_unit_fail_open.
  - exact each_continues_after_failure.
  - split; [reflexivity|]. split; [reflexivity|]. split; [reflexivity|].
    split; reflexivity.
Qed.

(** The link of the failing input, alone: its goroutine fails open. *)
Lemma Cure_panics_where_an_element_failed_open_witness :
  cureCSS_unit envRefused originB linkB [linkB] = Returns ([linkB], [refused]).
Proof.
  apply (proj1 (proj1 Cure_panics_where_an_element_failed_open
                  envRefused originB linkB [linkB] [refused])).
  apply (stops_fetch regexp.MatchString (Get envRefused) originB ".css"
           "a.css" "http://b.com/a.css" "" refused); reflexivity.
Defined.

Lemma Cure_before_Mix_is_configuration_error_witness :
  Cure envStyle New = Returns (mkCureResult "" (Some configurationError) New []).
Proof.
  exact (proj1 (Cure_before_Mix_is_configuration_error envStyle New eq_refl)).
Defined.

Lemma fetch_contract_witness :
  fetch notFoundTransport "http://b.com/x.css" = ("404 page not found", None).
Proof.
  exact (proj1 (proj2 (proj2 (fetch_contract notFoundTransport "http://b.com/x.css")))
           404%Z "404 page not found" eq_refl).
Defined.

(* ================================================================== *)
(** * Further properties of the package *)
(* ================================================================== *)

(** ** [strings]: prefixes, substrings and replacement *)

Lemma HasPrefix_Contains (s p : string) :
  strings.HasPrefix s p = true -> strings.Contains s p = true.
Proof. intros H. destruct s; simpl; rewrite H; reflexivity. Qed.

Lemma Contains_cons (c : ascii) (s p : string) :
  strings.Contains s p = true -> strings.Contains (String c s) p = true.
Proof. intros H. simpl. rewrite H. apply orb_true_r. Qed.

Lemma Contains_app_l (pre s p : string) :
  strings.Contains s p = true -> strings.Contains (pre ++ s) p = true.
Proof.
  intros H. induction pre as [|c pre IH]; [exact H|].
  apply Contains_cons. exact IH.
Qed.

Lemma Contains_middle (pre p post : string) :
  strings.Contains (pre ++ p ++ post) p = true.
Proof. apply Contains_app_l, HasPrefix_Contains, HasPrefix_app. Qed.

Lemma Contains_split (s p : string) :
  strings.Contains s p = true -> exists pre post, s = pre ++ p ++ post.
Proof.
  induction s as [|c s IH]; simpl; intros H.
  - rewrite orb_false_r in H. destruct (HasPrefix_split "" p H) as [rest E].
    exists "", rest. exact E.
  - apply orb_true_iff in H. destruct H as [H|H].
    + destruct (HasPrefix_split (String c s) p H) as [rest E].
      exists "", rest. exact E.
    + destruct (IH H) as [pre [post ->]]. exists (String c pre), post. reflexivity.
Qed.

(** Nothing is replaced where the pattern does not occur. *)
Lemma replace_scan_absent (old new : string) (n : Z) (s : string) :
  strings.Contains s old = false -> strings.replace_scan old new 0 n s = s.
Proof.
  induction s as [|c s IH]; [reflexivity|].
  intros H. cbn [strings.Contains] in H. apply orb_false_iff in H.
  destruct H as [Hp Hs]. cbn [strings.replace_scan].
  destruct (n =? 0)%Z; [reflexivity|]. rewrite Hp, (IH Hs). reflexivity.
Qed.

Lemma Replace_absent (s old new : string) (n : Z) :
  strings.Contains s old = false -> strings.Replace s old new n = s.
Proof.
  intros H. unfold strings.Replace. destruct old; [reflexivity|].
  apply replace_scan_absent. exact H.
Qed.

(** ** [addHttpProtocolIfNotExists] *)

Lemma addHttpProtocolIfNotExists_marker (u : string) :
  strings.Contains (addHttpProtocolIfNotExists u) "http://"
  || strings.Contains (addHttpProtocolIfNotExists u) "https://" = true.
Proof.
  unfold addHttpProtocolIfNotExists.
  destruct (strings.Contains u "http://" || strings.Contains u "https://") eqn:E;
    [exact E|].
  rewrite (HasPrefix_Contains _ _ (HasPrefix_app "http://" u)). reflexivity.
Qed.

(** X1. [addHttpProtocolIfNotExists] returns its argument or its argument
    behind "http://"; what it returns holds "http://" or "https://"
    somewhere, so a second call changes nothing.  The test is for an
    occurrence anywhere, not for a prefix: a string in which "http://" or
    "https://" occurs at any place, for instance inside a query, is returned
    as it is, without a scheme in front. *)
Theorem addHttpProtocolIfNotExists_idempotent (u : string) :
  (addHttpProtocolIfNotExists u = u \/ addHttpProtocolIfNotExists u = "http://" ++ u)
  /\ addHttpProtocolIfNotExists (addHttpProtocolIfNotExists u)
     = addHttpProtocolIfNotExists u
  /\ (forall pre post,
         addHttpProtocolIfNotExists (pre ++ "http://" ++ post)
         = pre ++ "http://" ++ post
         /\ addHttpProtocolIfNotExists (pre ++ "https://" ++ post)
            = pre ++ "https://" ++ post).
Proof.
  split; [|split].
  - unfold addHttpProtocolIfNotExists.
    destruct (_ || _); [left | right]; reflexivity.
  - unfold addHttpProtocolIfNotExists at 1.
    rewrite (addHttpProtocolIfNotExists_marker u). reflexivity.
  - intros pre post. unfold addHttpProtocolIfNotExists.
    rewrite (Contains_middle pre "http://" post), (Contains_middle pre "https://" post).
    rewrite orb_true_r. split; reflexivity.
Qed.

(** ** [normalizeSourceUrl]: failure, and the references it leaves alone *)

(** X2. [normalizeSourceUrl] fails exactly when [url.Parse] refuses the
    reference: it then returns the empty string and the error of
    [url.Parse].  The origin is never a cause of failure.  When it succeeds,
    the URL it returns holds "http://" or "https://". *)
Theorem normalizeSourceUrl_fails_as_Parse (assetPath : string) (origin : url.URL) :
  (forall e, url.Parse assetPath = Err e ->
             normalizeSourceUrl assetPath origin = ("", Some e))
  /\ (forall s, url.Parse assetPath = Ok s ->
        snd (normalizeSourceUrl assetPath origin) = None
        /\ strings.Contains (fst (normalizeSourceUrl assetPath origin)) "http://"
           || strings.Contains (fst (normalizeSourceUrl assetPath origin)) "https://"
           = true)
  /\ (forall u e, normalizeSourceUrl assetPath origin = (u, Some e) ->
        u = "" /\ url.Parse assetPath = Err e).
Proof.
  unfold normalizeSourceUrl. split; [|split].
  - intros e ->. reflexivity.
  - intros s ->.
    destruct (String.length (url.Host s) =? 0)%nat; cbn [fst snd];
      (split; [reflexivity|]);
      apply addHttpProtocolIfNotExists_marker.
  - intros u e H. destruct (url.Parse assetPath) as [s|e'].
    + destruct (String.length (url.Host s) =? 0)%nat; discriminate H.
    + injection H as <- <-. split; reflexivity.
Qed.

Lemma normalizeSourceUrl_fails_as_Parse_witness :
  normalizeSourceUrl "a%zz.css" originB = ("", Some (urlError "invalid URL escape")).
Proof.
  apply (proj1 (normalizeSourceUrl_fails_as_Parse "a%zz.css" originB)).
  reflexivity.
Defined.

(** X3. A reference that [url.Parse] reads with a host, that does not start
    with "//", holds no "../" and holds "http://" or "https://" is returned
    as it is, whatever the origin: absolute URLs, https ones too, pass
    through the normalizer unchanged. *)
Theorem normalizeSourceUrl_absolute_unchanged
        (assetPath : string) (origin s : url.URL) :
  url.Parse assetPath = Ok s ->
  url.Host s <> "" ->
  strings.HasPrefix assetPath "//" = false ->
  strings.Contains assetPath "../" = false ->
  strings.Contains assetPath "http://" || strings.Contains assetPath "https://" = true ->
  normalizeSourceUrl assetPath origin = (assetPath, None).
Proof.
  intros Hp Hh H2 Hd Hm. unfold normalizeSourceUrl. rewrite Hp, H2.
  rewrite (Replace_absent assetPath "../" "" (-1) Hd).
  destruct (url.Host s) as [|c h]; [contradiction Hh; reflexivity|].
  cbn [String.length Nat.eqb]. unfold addHttpProtocolIfNotExists. rewrite Hm.
  reflexivity.
Qed.

Lemma normalizeSourceUrl_absolute_unchanged_witness :
  normalizeSourceUrl "https://cdn.site.org/lib/app.js" originB
  = ("https://cdn.site.org/lib/app.js", None).
Proof.
  apply (normalizeSourceUrl_absolute_unchanged "https://cdn.site.org/lib/app.js" originB
           (url.mkURL "https" "cdn.site.org" "/lib/app.js" "" ""));
    [reflexivity | discriminate | reflexivity | reflexivity | reflexivity].
Defined.

(** X4. A reference that [url.Parse] reads without a host and that does not
    start with "//" is put behind the host of the origin and one "/", after
    every "../" has been cut out of it; when "http://" and "https://" occur
    nowhere in the result, "http://" is put in front.  Only the host of the
    origin is used: the scheme of the origin is not, so the assets of an
    https page are requested over http; and the "/" is added also when the
    reference starts with one. *)
Theorem normalizeSourceUrl_relative
        (assetPath : string) (origin s : url.URL) :
  url.Parse assetPath = Ok s ->
  url.Host s = "" ->
  strings.HasPrefix assetPath "//" = false ->
  let cleaned := strings.Replace assetPath "../" "" (-1) in
  strings.Contains (url.Host origin ++ "/" ++ cleaned) "http://"
  || strings.Contains (url.Host origin ++ "/" ++ cleaned) "https://" = false ->
  normalizeSourceUrl assetPath origin
  = ("http://" ++ url.Host origin ++ "/" ++ cleaned, None)
  /\ forall scheme path query fragment,
       normalizeSourceUrl assetPath
         (url.mkURL scheme (url.Host origin) path query fragment)
       = normalizeSourceUrl assetPath origin.
Proof.
  intros Hp Hh H2 cleaned Hm. split.
  - unfold normalizeSourceUrl. rewrite Hp, H2, Hh. cbn [String.length Nat.eqb].
    unfold addHttpProtocolIfNotExists. fold cleaned. rewrite Hm. reflexivity.
  - intros scheme path query fragment. unfold normalizeSourceUrl.
    rewrite Hp, H2, Hh. reflexivity.
Qed.

Lemma normalizeSourceUrl_relative_witness :
  normalizeSourceUrl "/css/../main.css" (url.mkURL "https" "site.org" "/" "" "")
  = ("http://site.org//css/main.css", None).
Proof.
  apply (proj1 (normalizeSourceUrl_relative "/css/../main.css"
                  (url.mkURL "https" "site.org" "/" "" "")
                  (url.mkURL "" "" "/css/../main.css" "" "")
                  eq_refl eq_refl eq_refl eq_refl)).
Defined.

(** ** [hasExtension]: what it returns *)

(** X5. Whatever the list of candidates, [hasExtension] returns the empty
    string or one of the candidates, never another string; with an error it
    returns the empty string, and the error is the one [regexp.MatchString]
    gave for a candidate of the list.  A candidate that is returned is a
    valid pattern, and the reference holds a substring in its language. *)
Theorem hasExtension_returns_a_candidate (src : string) (extensions : list string) :
  (forall e, hasExtension regexp.MatchString src extensions = (e, None) ->
             e <> "" ->
             In e extensions
             /\ exists re l m r,
                 regexp.Compile e = Ok re
                 /\ src = l ++ m ++ r /\ regexp.matches re m)
  /\ (forall e err, hasExtension regexp.MatchString src extensions = (e, Some err) ->
        e = ""
        /\ exists x, In x extensions /\ regexp.Compile x = Err err).
Proof.
  induction extensions as [|x l IH]; split.
  - intros e H Hne. simpl in H. injection H as <-. contradiction Hne. reflexivity.
  - intros e err H. discriminate H.
  - intros e H Hne. cbn [hasExtension] in H.
    unfold regexp.MatchString in H at 1.
    destruct (regexp.Compile x) as [re|err0] eqn:Ec; [|discriminate H].
    destruct (regexp.search re src) eqn:Es.
    + injection H as <-. split; [left; reflexivity|].
      apply search_spec in Es. destruct Es as [b [m [a [E M]]]].
      exists re, b, m, a. split; [exact Ec|]. split; assumption.
    + destruct (proj1 IH e H Hne) as [Hin Hm]. split; [right; exact Hin | exact Hm].
  - intros e err H. cbn [hasExtension] in H.
    unfold regexp.MatchString in H at 1.
    destruct (regexp.Compile x) as [re|err0] eqn:Ec.
    + destruct (regexp.search re src).
      * discriminate H.
      * destruct (proj2 IH e err H) as [-> [y [Hy Hc]]].
        split; [reflexivity|]. exists y. split; [right; exact Hy | exact Hc].
    + injection H as <- <-. split; [reflexivity|].
      exists x. split; [left; reflexivity | exact Ec].
Qed.

Lemma hasExtension_returns_a_candidate_witness :
  In ".js" [".css"; ".js"]
  /\ exists re l m r,
      regexp.Compile ".js" = Ok re
      /\ "/lib/app.js?v=2" = l ++ m ++ r /\ regexp.matches re m.
Proof.
  apply (proj1 (hasExtension_returns_a_candidate "/lib/app.js?v=2" [".css"; ".js"])
           ".js"); [reflexivity | discriminate].
Defined.

Lemma MatchString_empty_pattern (s : string) :
  regexp.MatchString "" s = (true, None).
Proof. destruct s; reflexivity. Qed.

(** X6. The empty string as a candidate matches every reference, and
    [hasExtension] returns it: the result is the empty string with a nil
    error, which is also what [hasExtension] returns when nothing matches.
    The candidates behind an empty one are never tried. *)
Theorem hasExtension_empty_candidate
        (src : string) (before after : list string) :
  (forall x, In x before -> regexp.MatchString x src = (false, None)) ->
  hasExtension regexp.MatchString src (before ++ "" :: after)%list = ("", None)
  /\ hasExtension regexp.MatchString src (before ++ "" :: after)%list
     = hasExtension regexp.MatchString src before.
Proof.
  intros H.
  rewrite (hasExtension_first regexp.MatchString src before after "" H
             (MatchString_empty_pattern src)).
  rewrite (hasExtension_none regexp.MatchString src before H).
  split; reflexivity.
Qed.

Lemma hasExtension_empty_candidate_witness :
  hasExtension regexp.MatchString "a.css" [".js"; ""; ".css"] = ("", None).
Proof.
  apply (proj1 (hasExtension_empty_candidate "a.css" [".js"] [".css"]
                  ltac:(intros x [<-|[]]; reflexivity))).
Defined.

(** ** [regexp]: patterns of literal bytes *)

Lemma plain_parse_step (c : ascii) (t : string) (lastRepeat : bool)
      (cur : regexp.frame) (stack : list regexp.frame) :
  plain c = true ->
  regexp.parse_loop (String c t) lastRepeat cur stack
  = regexp.parse_loop t false (regexp.push (regexp.Literal c) cur) stack.
Proof.
  unfold plain. intros H.
  repeat (apply andb_true_iff in H; destruct H as [H ?]).
  repeat match goal with
         | E : negb _ = true |- _ => apply negb_true_iff in E
         end.
  cbn [regexp.parse_loop].
  repeat match goal with
         | E : _ = false |- _ => rewrite E; clear E
         end.
  reflexivity.
Qed.

(** A pattern of plain bytes is the concatenation of its literals. *)
Lemma parse_loop_plain (k : string) :
  strings.all_bytes plain k = true ->
  forall lastRepeat alts items,
    regexp.parse_loop k lastRepeat (alts, items) []
    = regexp.Compiled (regexp.close_frame (alts, (rev (literals k) ++ items)%list)).
Proof.
  unfold strings.all_bytes, literals.
  induction k as [|c k IH]; intros H lastRepeat alts items; [reflexivity|].
  cbn [list_ascii_of_string forallb] in H. apply andb_true_iff in H.
  destruct H as [Hc Hk].
  rewrite (plain_parse_step c k lastRepeat (alts, items) [] Hc).
  cbn [regexp.push]. rewrite (IH Hk false alts (regexp.Literal c :: items)).
  cbn [list_ascii_of_string map rev]. rewrite <- app_assoc. reflexivity.
Qed.

Lemma concat_cons_language (r : regexp.Regexp) (rest : list regexp.Regexp) (m : string) :
  regexp.matches (regexp.concat (r :: rest)) m
  <-> exists m1 m2, m = m1 ++ m2 /\ regexp.matches r m1
                    /\ regexp.matches (regexp.concat rest) m2.
Proof.
  destruct rest as [|r' rest].
  - cbn [regexp.concat]. split.
    + intros H. exists m, "". rewrite append_nil_r.
      split; [reflexivity|]. split; [exact H | constructor].
    + intros [m1 [m2 [-> [H1 H2]]]]. inversion H2; subst.
      rewrite append_nil_r. exact H1.
  - change (regexp.concat (r :: r' :: rest))
      with (regexp.Concat r (regexp.concat (r' :: rest))).
    split.
    + apply concat_inv.
    + intros [m1 [m2 [-> [H1 H2]]]]. constructor; assumption.
Qed.

Lemma literals_language (k m : string) :
  regexp.matches (regexp.concat (literals k)) m <-> m = k.
Proof.
  unfold literals. revert m. induction k as [|c k IH]; intros m.
  - cbn. split; [intros H; inversion H; reflexivity | intros ->; constructor].
  - cbn [list_ascii_of_string map]. rewrite concat_cons_language. split.
    + intros [m1 [m2 [-> [H1 H2]]]]. apply literal_inv in H1. apply IH in H2.
      subst. reflexivity.
    + intros ->. exists (String c ""), k.
      split; [reflexivity|]. split; [constructor | apply IH; reflexivity].
Qed.

Lemma Compile_plain (k : string) :
  strings.all_bytes plain k = true ->
  regexp.Compile k = Ok (regexp.concat (literals k)).
Proof.
  intros H. unfold regexp.Compile, regexp.parse.
  rewrite (parse_loop_plain k H false [] []).
  cbn [regexp.close_frame fold_left]. rewrite app_nil_r, rev_involutive. reflexivity.
Qed.

Lemma Compile_dot_plain (k : string) :
  strings.all_bytes plain k = true ->
  regexp.Compile ("." ++ k)
  = Ok (regexp.concat (regexp.AnyCharNotNL :: literals k)).
Proof.
  intros H. unfold regexp.Compile, regexp.parse.
  change (regexp.parse_loop ("." ++ k) false ([], []) [])
    with (regexp.parse_loop k false ([], [regexp.AnyCharNotNL]) []).
  rewrite (parse_loop_plain k H false [] [regexp.AnyCharNotNL]).
  cbn [regexp.close_frame fold_left]. rewrite rev_app_distr, rev_involutive.
  reflexivity.
Qed.

(** X7. For a pattern made of plain bytes only (no operator, bracket,
    anchor, "." or backslash, ASCII), [regexp.MatchString] never fails and
    finds the pattern exactly where [strings.Contains] finds it as a
    substring. *)
Theorem MatchString_plain_is_Contains (k s : string) :
  strings.all_bytes plain k = true ->
  regexp.MatchString k s = (strings.Contains s k, None).
Proof.
  intros H. rewrite (MatchString_compiled k _ s (Compile_plain k H)).
  f_equal. apply Bool.eq_iff_eq_true. rewrite search_spec. split.
  - intros [l [m [r [-> M]]]]. apply literals_language in M. subst m.
    apply Contains_middle.
  - intros C. destruct (Contains_split s k C) as [l [r ->]].
    exists l, k, r. split; [reflexivity | apply literals_language; reflexivity].
Qed.

Lemma MatchString_plain_is_Contains_witness :
  regexp.MatchString "png" "img/logo.png" = (strings.Contains "img/logo.png" "png", None).
Proof. apply (MatchString_plain_is_Contains "png" "img/logo.png"). reflexivity. Defined.

(** X8. For every extension "." followed by plain bytes [k] (".css", ".js",
    ".png", ...), [hasExtension] returns the extension exactly when the
    reference holds a byte other than the line feed immediately followed by
    [k], and the empty string otherwise; it never fails.  The "." need not be
    a dot of the reference. *)
Theorem hasExtension_dot_plain (k ref : string) :
  strings.all_bytes plain k = true ->
  (hasExtension regexp.MatchString ref ["." ++ k] = ("." ++ k, None)
   <-> exists l c r, c <> regexp.newline /\ ref = l ++ String c (k ++ r))
  /\ (hasExtension regexp.MatchString ref ["." ++ k] = ("." ++ k, None)
      \/ hasExtension regexp.MatchString ref ["." ++ k] = ("", None)).
Proof.
  intros H. rewrite hasExtension_single.
  rewrite (MatchString_compiled ("." ++ k) _ ref (Compile_dot_plain k H)).
  destruct (regexp.search _ ref) eqn:S; split;
    try (left; reflexivity); try (right; reflexivity).
  - split; [intros _ | reflexivity].
    apply search_spec in S. destruct S as [l [m [r [-> M]]]].
    apply concat_cons_language in M. destruct M as [m1 [m2 [-> [M1 M2]]]].
    destruct (any_inv _ M1) as [c [Hc ->]]. apply literals_language in M2. subst m2.
    exists l, c, r. split; [exact Hc|].
    change (String c "" ++ k) with (String c k).
    change (String c k ++ r) with (String c (k ++ r)). reflexivity.
  - split; [intros E; discriminate E|].
    intros [l [c [r [Hc ->]]]]. exfalso.
    assert (regexp.search (regexp.concat (regexp.AnyCharNotNL :: literals k))
              (l ++ String c (k ++ r)) = true) as T.
    { apply search_spec. exists l, (String c k), r. split; [reflexivity|].
      apply concat_cons_language. exists (String c ""), k.
      split; [reflexivity|]. split; [constructor; exact Hc|].
      apply literals_language. reflexivity. }
    rewrite T in S. discriminate S.
Qed.

Lemma hasExtension_dot_plain_witness :
  hasExtension regexp.MatchString "/lib/nojs/app.txt" [".js"] = (".js", None).
Proof.
  apply (proj2 (proj1 (hasExtension_dot_plain "js" "/lib/nojs/app.txt" eq_refl))).
  exists "/lib/n", "o"%char, "/app.txt". split; [discriminate | reflexivity].
Defined.

(** ** [base64]: the payload of a data URL decodes to the bytes encoded *)

Lemma below_check (n : nat) (P : nat -> bool) :
  forallb P (seq 0 n) = true -> forall x, x < n -> P x = true.
Proof.
  intros H x Hx. apply (proj1 (forallb_forall P (seq 0 n)) H).
  apply in_seq. lia.
Qed.

Lemma below_check2 (n : nat) (P : nat -> nat -> bool) :
  forallb (fun x => forallb (P x) (seq 0 n)) (seq 0 n) = true ->
  forall x y, x < n -> y < n -> P x y = true.
Proof.
  intros H x y Hx Hy.
  apply (below_check n (P x)); [|exact Hy].
  apply (below_check n (fun x => forallb (P x) (seq 0 n)) H x Hx).
Qed.

Lemma nat_of_ascii_below (a : ascii) : nat_of_ascii a < 256.
Proof.
  destruct a as [[] [] [] [] [] [] [] []]; vm_compute;
    repeat (apply le_n || apply le_S).
Qed.

(** every 6-bit value is decoded from its character, which is not "=" *)
Lemma dec_enc (v : nat) :
  v < 64 ->
  base64.dec (base64.enc v) = Some v
  /\ Ascii.eqb (base64.enc v) base64.pad = false.
Proof.
  intros H.
  pose proof (below_check 64
                (fun v => match base64.dec (base64.enc v) with
                          | Some w => (w =? v)%nat
                          | None => false
                          end
                          && negb (Ascii.eqb (base64.enc v) base64.pad))
                ltac:(vm_compute; reflexivity) v H) as C.
  cbv beta in C. apply andb_true_iff in C. destruct C as [C1 C2].
  split; [|apply negb_true_iff; exact C2].
  destruct (base64.dec (base64.enc v)) as [w|]; [|discriminate C1].
  apply Nat.eqb_eq in C1. subst w. reflexivity.
Qed.

(** the arithmetic of the first two characters of a group *)
Lemma sextets_12 (x y : nat) :
  x < 256 -> y < 256 ->
  x / 4 < 64
  /\ x mod 4 * 16 + y / 16 < 64
  /\ x / 4 * 4 + (x mod 4 * 16 + y / 16) / 16 = x
  /\ (x mod 4 * 16 + y / 16) mod 16 = y / 16.
Proof.
  intros Hx Hy.
  pose proof (below_check2 256
                (fun x y => (x / 4 <? 64)%nat
                            && (x mod 4 * 16 + y / 16 <? 64)%nat
                            && (x / 4 * 4 + (x mod 4 * 16 + y / 16) / 16 =? x)%nat
                            && ((x mod 4 * 16 + y / 16) mod 16 =? y / 16)%nat)
                ltac:(vm_compute; reflexivity) x y Hx Hy) as C.
  cbv beta in C.
  repeat (apply andb_true_iff in C; destruct C as [C ?]).
  repeat match goal with
         | E : (_ <? _)%nat = true |- _ => apply Nat.ltb_lt in E
         | E : (_ =? _)%nat = true |- _ => apply Nat.eqb_eq in E
         end.
  auto.
Qed.

(** the arithmetic of the last two characters of a group *)
Lemma sextets_34 (y z : nat) :
  y < 256 -> z < 256 ->
  y mod 16 * 4 + z / 64 < 64
  /\ z mod 64 < 64
  /\ y / 16 * 16 + (y mod 16 * 4 + z / 64) / 4 = y
  /\ (y mod 16 * 4 + z / 64) mod 4 * 64 + z mod 64 = z.
Proof.
  intros Hy Hz.
  pose proof (below_check2 256
                (fun y z => (y mod 16 * 4 + z / 64 <? 64)%nat
                            && (z mod 64 <? 64)%nat
                            && (y / 16 * 16 + (y mod 16 * 4 + z / 64) / 4 =? y)%nat
                            && ((y mod 16 * 4 + z / 64) mod 4 * 64 + z mod 64 =? z)%nat)
                ltac:(vm_compute; reflexivity) y z Hy Hz) as C.
  cbv beta in C.
  repeat (apply andb_true_iff in C; destruct C as [C ?]).
  repeat match goal with
         | E : (_ <? _)%nat = true |- _ => apply Nat.ltb_lt in E
         | E : (_ =? _)%nat = true |- _ => apply Nat.eqb_eq in E
         end.
  auto.
Qed.

Lemma list_ind3 {A : Type} (P : list A -> Prop) :
  P [] -> (forall a, P [a]) -> (forall a b, P [a; b]) ->
  (forall a b c l, P l -> P (a :: b :: c :: l)%list) ->
  forall l, P l.
Proof.
  intros H0 H1 H2 H3 l.
  assert (P l /\ (forall a, P (a :: l)%list) /\ (forall a b, P (a :: b :: l)%list)) as H;
    [|exact (proj1 H)].
  induction l as [|c l [I0 [I1 I2]]]; [auto|].
  split; [apply I1|]. split; [intros a; apply I2|].
  intros a b. apply H3. exact I0.
Qed.

(** the arithmetic of a group that ends with padding *)
Lemma sextets_pad (x : nat) :
  x < 256 ->
  x mod 4 * 16 < 64
  /\ x / 4 * 4 + (x mod 4 * 16) / 16 = x
  /\ x mod 16 * 4 < 64
  /\ x / 16 * 16 + (x mod 16 * 4) / 4 = x.
Proof.
  intros Hx.
  pose proof (below_check 256
                (fun x => (x mod 4 * 16 <? 64)%nat
                          && (x / 4 * 4 + (x mod 4 * 16) / 16 =? x)%nat
                          && (x mod 16 * 4 <? 64)%nat
                          && (x / 16 * 16 + (x mod 16 * 4) / 4 =? x)%nat)
                ltac:(vm_compute; reflexivity) x Hx) as C.
  cbv beta in C.
  repeat (apply andb_true_iff in C; destruct C as [C ?]).
  repeat match goal with
         | E : (_ <? _)%nat = true |- _ => apply Nat.ltb_lt in E
         | E : (_ =? _)%nat = true |- _ => apply Nat.eqb_eq in E
         end.
  auto.
Qed.

Lemma byte_nat_of_ascii (a : ascii) (n : nat) :
  n = nat_of_ascii a -> base64.byte n = a.
Proof. intros ->. apply ascii_nat_embedding. Qed.

Lemma decode_encode_bytes (l : list ascii) :
  base64.decode_chars (list_ascii_of_string (base64.encode_bytes l)) = Some l.
Proof.
  induction l as [|a|a b|a b c l IH] using list_ind3.
  - reflexivity.
  - cbn [base64.encode_bytes list_ascii_of_string base64.decode_chars].
    pose proof (nat_of_ascii_below a) as Ha.
    destruct (sextets_12 _ _ Ha Ha) as [B1 _].
    destruct (sextets_pad _ Ha) as [B2 [E1 _]].
    rewrite (proj1 (dec_enc _ B1)), (proj1 (dec_enc _ B2)).
    rewrite Ascii.eqb_refl. rewrite (byte_nat_of_ascii a _ E1). reflexivity.
  - cbn [base64.encode_bytes list_ascii_of_string base64.decode_chars].
    pose proof (nat_of_ascii_below a) as Ha. pose proof (nat_of_ascii_below b) as Hb.
    destruct (sextets_12 _ _ Ha Hb) as [B1 [B2 [E1 M2]]].
    destruct (sextets_pad _ Hb) as [_ [_ [B3 E2]]].
    rewrite (proj1 (dec_enc _ B1)), (proj1 (dec_enc _ B2)).
    rewrite (proj2 (dec_enc _ B3)), (proj1 (dec_enc _ B3)).
    rewrite Ascii.eqb_refl, M2.
    rewrite (byte_nat_of_ascii a _ E1), (byte_nat_of_ascii b _ E2). reflexivity.
  - cbn [base64.encode_bytes list_ascii_of_string base64.decode_chars].
    pose proof (nat_of_ascii_below a) as Ha. pose proof (nat_of_ascii_below b) as Hb.
    pose proof (nat_of_ascii_below c) as Hc.
    destruct (sextets_12 _ _ Ha Hb) as [B1 [B2 [E1 M2]]].
    destruct (sextets_34 _ _ Hb Hc) as [B3 [B4 [E2 E3]]].
    rewrite (proj1 (dec_enc _ B1)), (proj1 (dec_enc _ B2)).
    rewrite (proj2 (dec_enc _ B3)), (proj1 (dec_enc _ B3)).
    rewrite (proj2 (dec_enc _ B4)), (proj1 (dec_enc _ B4)).
    rewrite IH, M2.
    rewrite (byte_nat_of_ascii a _ E1), (byte_nat_of_ascii b _ E2),
      (byte_nat_of_ascii c _ E3).
    reflexivity.
Qed.

Lemma length_encode_bytes (l : list ascii) :
  String.length (base64.encode_bytes l) = 4 * ((List.length l + 2) / 3).
Proof.
  induction l as [|a|a b|a b c l IH] using list_ind3; try reflexivity.
  cbn [base64.encode_bytes String.length List.length]. rewrite IH.
  replace (S (S (S (List.length l))) + 2) with ((List.length l + 2) + 1 * 3) by lia.
  rewrite Nat.div_add by discriminate. lia.
Qed.

Lemma length_list_ascii_of_string (s : string) :
  List.length (list_ascii_of_string s) = String.length s.
Proof. induction s as [|c s IH]; simpl; [reflexivity | rewrite IH; reflexivity]. Qed.

(** X9. [base64.StdEncoding]: decoding what [EncodeToString] gives returns
    the bytes that were encoded, whatever they are, so the payload of the
    data URL that [cureImages] builds holds the fetched image unchanged; the
    encoding of n bytes has 4 * ceil(n / 3) characters. *)
Theorem base64_decode_encode (src : string) :
  base64.DecodeString (base64.EncodeToString src) = Some src
  /\ String.length (base64.EncodeToString src) = 4 * ((String.length src + 2) / 3).
Proof.
  unfold base64.DecodeString, base64.EncodeToString. split.
  - rewrite decode_encode_bytes. cbn [option_map].
    rewrite string_of_list_ascii_of_string. reflexivity.
  - rewrite length_encode_bytes, length_list_ascii_of_string. reflexivity.
Qed.

(** ** [Cure]: the object it leaves *)

(** X10. [Cure] never changes the ingredients.  When it stops before the
    routines run (the object is not configured, the target does not parse,
    or the page cannot be loaded), a second call on the object it left, the
    page failing to load as before, returns the same error and leaves the
    same object: what an earlier call wrote into the object is not read. *)
Theorem Cure_again (env : Env) (a : Antidote) (r : CureResult) :
  Cure env a = Returns r ->
  ingredients (self r) = ingredients a
  /\ ((ingredients a = None
       \/ exists i e, ingredients a = Some i
                      /\ (url.Parse (URL i) = Err e
                          \/ NewDocument env (URL i) = Err e)) ->
      Cure env (self r) = Returns r).
Proof.
  unfold Cure. intros H.
  destruct (ingredients a) as [i|] eqn:Ei.
  - destruct (url.Parse (URL i)) as [origin|e1] eqn:Ep.
    + destruct (NewDocument env (URL i)) as [doc|e2] eqn:Ed.
      * destruct (cureAssets env origin doc) as [[d l]|m] eqn:Ec;
          cbn [bindO] in H; [|discriminate H].
        split.
        -- destruct (Render env d) as [out [e3|]]; injection H as <-; reflexivity.
        -- intros [F|[j [e [Ej [F|F]]]]]; [discriminate F| |];
             injection Ej as <-; rewrite F in *; discriminate.
      * injection H as <-. cbn [self ingredients]. rewrite Ep, Ed.
        split; reflexivity.
    + injection H as <-. cbn [self ingredients]. rewrite Ep.
      split; reflexivity.
  - injection H as <-. cbn [self]. rewrite ?Ei. split; reflexivity.
Qed.

Lemma Cure_again_witness :
  Cure envOff
    (mkAntidote (Some (mkIngredients "http://b.com/")) (Some originB) None "")
  = Returns (mkCureResult "" (Some (loadError "no such host"))
               (mkAntidote (Some (mkIngredients "http://b.com/")) (Some originB)
                           None "") []).
Proof.
  apply (proj2 (Cure_again envOff (Mix New (Some (mkIngredients "http://b.com/")))
                  (mkCureResult "" (Some (loadError "no such host"))
                     (mkAntidote (Some (mkIngredients "http://b.com/")) (Some originB)
                                 None "") [])
                  eq_refl)).
  right. exists (mkIngredients "http://b.com/"), (loadError "no such host").
  split; [reflexivity | right; reflexivity].
Defined.

(** X11. [Html] after [Cure].  When [Cure] returns without error, [Html]
    returns the string that [Cure] returned.  When [Cure] returns an error it
    returns the empty string, and [Html] returns what it returned before the
    call (the page of an earlier call, if there was one), unless the error
    is the one of serializing the tree. *)
Theorem Html_after_Cure (env : Env) (a : Antidote) (r : CureResult) :
  Cure env a = Returns r ->
  (err_out r = None -> Html (self r) = html_out r)
  /\ (forall e, err_out r = Some e ->
        html_out r = ""
        /\ (Html (self r) = Html a
            \/ exists d, website (self r) = Some d
                         /\ Render env d = (Html (self r), Some e))).
Proof.
  unfold Cure, Html. intros H.
  destruct (ingredients a) as [i|] eqn:Ei.
  - destruct (url.Parse (URL i)) as [origin|e1] eqn:Ep.
    + destruct (NewDocument env (URL i)) as [doc|e2] eqn:Ed.
      * destruct (cureAssets env origin doc) as [[d l]|m] eqn:Ec;
          cbn [bindO] in H; [|discriminate H].
        destruct (Render env d) as [out [e3|]] eqn:Er; injection H as <-;
          cbn [self err_out html_out curedHtml website]; split.
        -- intros E. discriminate E.
        -- intros e E. injection E as <-. split; [reflexivity|].
           right. exists d. split; [reflexivity | exact Er].
        -- reflexivity.
        -- intros e E. discriminate E.
      * injection H as <-. cbn. split; [intros E; discriminate E|].
        intros e _. split; [reflexivity | left; reflexivity].
    + injection H as <-. cbn. split; [intros E; discriminate E|].
      intros e _. split; [reflexivity | left; reflexivity].
  - injection H as <-. cbn. split; [intros E; discriminate E|].
    intros e _. split; [reflexivity | left; reflexivity].
Qed.

Lemma Html_after_Cure_witness :
  Html (mkAntidote (Some (mkIngredients "http://b.com/")) (Some originB)
                   (Some (spec_cured envStyle originB pageA)) "<html></html>")
  = "<html></html>".
Proof.
  apply (proj1 (Html_after_Cure envStyle
                  (Mix New (Some (mkIngredients "http://b.com/")))
                  (mkCureResult "<html></html>" None
                     (mkAntidote (Some (mkIngredients "http://b.com/")) (Some originB)
                                 (Some (spec_cured envStyle originB pageA))
                                 "<html></html>") [])
                  eq_refl) eq_refl).
Defined.

(** ** [Cure]: what it keeps *)

(** X12. When [Cure] returns, every element of the tree it leaves that was
    loaded with the page has the name and the attributes it was loaded
    with, whatever the network served: the routines only take elements out
    and put new ones in. *)
Theorem Cure_keeps_elements (env : Env) (a : Antidote) (i : Ingredients)
        (origin : url.URL) (page : goquery.Document) (r : CureResult) :
  url.Parse (URL i) = Ok origin ->
  NewDocument env (URL i) = Ok page ->
  Cure env (Mix a (Some i)) = Returns r ->
  exists final,
    website (self r) = Some final
    /\ forall p d attrs,
         In (p, d, attrs) (flat_map headers final) ->
         In (p, d, attrs) (flat_map headers page).
Proof.
  intros Hp Hd Hc.
  destruct (Cure_returns_steps env a i origin page r Hp Hd Hc)
    as [doc1 [doc2 [log1 [log2 [H1 [H2 [_ [Hw _]]]]]]]].
  exists doc2. split; [exact Hw|]. intros p d attrs H.
  apply (cureCSS_keeps env origin page doc1 log1 H1).
  apply (cureJS_keeps env origin doc1 doc2 log2 H2). exact H.
Qed.

Lemma Cure_keeps_elements_witness :
  exists final,
    Some (spec_cured envStyle originB pageA) = Some final
    /\ forall p d attrs,
         In (p, d, attrs) (flat_map headers final) ->
         In (p, d, attrs) (flat_map headers pageA).
Proof.
  apply (Cure_keeps_elements envStyle New (mkIngredients "http://b.com/") originB pageA
           (mkCureResult "<html></html>" None
              (mkAntidote (Some (mkIngredients "http://b.com/")) (Some originB)
                          (Some (spec_cured envStyle originB pageA))
                          "<html></html>") [])
           eq_refl eq_refl eq_refl).
Defined.

(** *** Routines whose goroutines leave the tree as it is *)

(** Goroutines that leave the tree as it is give a routine that does. *)
Lemma each_unchanged (unit : html.Node -> goquery.Document -> Outcome Cured)
      (sel : list html.Node) (doc : goquery.Document) :
  (forall n, In n sel -> exists log, unit n doc = Returns (doc, log)) ->
  exists log, each unit sel doc = Returns (doc, log).
Proof.
  induction sel as [|n sel IH]; intros H; [exists []; reflexivity|].
  destruct (H n (or_introl eq_refl)) as [l1 E1].
  destruct IH as [l2 E2]; [intros m Hm; apply H; right; exact Hm|].
  exists (l1 ++ l2)%list. cbn [each]. rewrite E1. cbn [bindO]. rewrite E2. reflexivity.
Qed.

Lemma cureImages_noImgSrc (env : Env) (origin : url.URL) (doc : goquery.Document) :
  noImgSrc doc -> cureImages env origin doc = Returns (doc, []).
Proof.
  intros H. unfold cureImages.
  destruct (each_unchanged (cureImages_unit env origin) (goquery.Find "img" doc) doc)
    as [log E].
  - intros n Hn. exists []. apply cureImages_unit_without_src. exact (H n Hn).
  - destruct (cureImages_returns_same env origin doc doc log E) as [_ ->]. exact E.
Qed.

Lemma noImgSrc_pageD : noImgSrc pageD.
Proof. intros img [<-|[]]. reflexivity. Qed.

(** ** [Cure] and the command when the network is down *)

Lemma cureCSS_unit_networkDown (env : Env) (origin : url.URL) (n : html.Node)
      (d : goquery.Document) :
  networkDown env -> exists log, cureCSS_unit env origin n d = Returns (d, log).
Proof.
  intros H. unfold cureCSS_unit.
  destruct (goquery.Attr n "href"); [|eexists; reflexivity].
  destruct (hasExtension _ _ _) as [m [e|]]; [eexists; reflexivity|].
  destruct (negb _); [|eexists; reflexivity].
  destruct (normalizeSourceUrl _ _) as [u [e|]]; [eexists; reflexivity|].
  destruct (H u) as [e E]. unfold fetch. rewrite E. eexists. reflexivity.
Qed.

Lemma cureJS_unit_networkDown (env : Env) (origin : url.URL) (n : html.Node)
      (d : goquery.Document) :
  networkDown env -> exists log, cureJS_unit env origin n d = Returns (d, log).
Proof.
  intros H. unfold cureJS_unit.
  destruct (goquery.Attr n "src"); [|eexists; reflexivity].
  destruct (hasExtension _ _ _) as [m [e|]]; [eexists; reflexivity|].
  destruct (negb _); [|eexists; reflexivity].
  destruct (normalizeSourceUrl _ _) as [u [e|]]; [eexists; reflexivity|].
  destruct (H u) as [e E]. unfold fetch. rewrite E. eexists. reflexivity.
Qed.

(** X14. When the page loads but every request for an asset fails, and no
    <img> of the page has a src attribute, [Cure] returns the page as it was
    loaded: the tree it leaves is the tree of the page, and the string it
    returns is the serialization of that tree. *)
Theorem Cure_network_down (env : Env) (a : Antidote) (i : Ingredients)
        (origin : url.URL) (page : goquery.Document) :
  url.Parse (URL i) = Ok origin ->
  NewDocument env (URL i) = Ok page ->
  networkDown env ->
  noImgSrc page ->
  exists r,
    Cure env (Mix a (Some i)) = Returns r
    /\ website (self r) = Some page
    /\ (snd (Render env page) = None ->
        html_out r = fst (Render env page) /\ err_out r = None).
Proof.
  intros Hp Hd Hn Hi.
  destruct (each_unchanged (cureCSS_unit env origin) (goquery.Find "link" page) page)
    as [log1 H1];
    [intros n _; apply cureCSS_unit_networkDown; exact Hn|].
  destruct (each_unchanged (cureJS_unit env origin) (goquery.Find "script" page) page)
    as [log2 H2];
    [intros n _; apply cureJS_unit_networkDown; exact Hn|].
  rewrite (Cure_configured env a i origin page Hp Hd). unfold cureAssets.
  fold (cureCSS env origin page) in H1. fold (cureJS env origin page) in H2.
  rewrite H1. cbn [bindO]. rewrite H2. cbn [bindO].
  rewrite (cureImages_noImgSrc env origin page Hi). cbn [bindO].
  destruct (snd (Render env page)) as [e|]; eexists;
    (split; [reflexivity|]); (split; [reflexivity|]); intros E;
    [discriminate E | split; reflexivity].
Qed.

Lemma Cure_network_down_witness :
  exists r,
    Cure envD (Mix New (Some (mkIngredients "http://b.com/"))) = Returns r
    /\ website (self r) = Some pageD
    /\ (snd (Render envD pageD) = None ->
        html_out r = fst (Render envD pageD) /\ err_out r = None).
Proof.
  apply (Cure_network_down envD New (mkIngredients "http://b.com/") originB pageD
           eq_refl eq_refl
           (fun _ => ex_intro _ refused eq_refl) noImgSrc_pageD).
Defined.

Lemma cureAssets_networkDown (env : Env) (origin : url.URL)
      (page : goquery.Document) :
  networkDown env -> noImgSrc page ->
  exists log, cureAssets env origin page = Returns (page, log).
Proof.
  intros Hn Hi.
  destruct (each_unchanged (cureCSS_unit env origin) (goquery.Find "link" page) page)
    as [log1 H1];
    [intros n _; apply cureCSS_unit_networkDown; exact Hn|].
  destruct (each_unchanged (cureJS_unit env origin) (goquery.Find "script" page) page)
    as [log2 H2];
    [intros n _; apply cureJS_unit_networkDown; exact Hn|].
  fold (cureCSS env origin page) in H1. fold (cureJS env origin page) in H2.
  exists (log1 ++ log2 ++ [])%list. unfold cureAssets.
  rewrite H1. cbn [bindO]. rewrite H2. cbn [bindO].
  rewrite (cureImages_noImgSrc env origin page Hi). reflexivity.
Qed.

(** X15. The command.  Its target is configured and parses, so it does not
    stop on the configuration error or on a parse error.  When the page
    cannot be loaded, it logs the load error and exits with status 1, with
    nothing on the standard output.  When the page loads, every request for
    an asset fails and no <img> of the page has a src attribute, it writes
    the serialization of the page as loaded and a line feed and exits with
    status 0, or, if serializing fails, logs that error last and exits with
    status 1; the errors of single elements are logged and do not change
    the exit status. *)
Theorem main_runs (env : Env) :
  (forall e, NewDocument env "https://fujifish.com" = Err e ->
             main env = Returns (mkRun 1 "" [e]))
  /\ (forall page,
         NewDocument env "https://fujifish.com" = Ok page ->
         networkDown env ->
         noImgSrc page ->
         exists log,
           main env
           = Returns (match Render env page with
                      | (out, None) => mkRun 0 (out ++ String html.LF "") log
                      | (_, Some e) => mkRun 1 "" (log ++ [e])%list
                      end)).
Proof.
  split.
  - intros e H. unfold main, Cure, Mix. cbn [ingredients URL].
    change (url.Parse "https://fujifish.com")
      with (@Ok url.URL (url.mkURL "https" "fujifish.com" "" "" "")).
    cbv iota. rewrite H. reflexivity.
  - intros page H Hd Hn.
    destruct (cureAssets_networkDown env (url.mkURL "https" "fujifish.com" "" "" "")
                page Hd Hn) as [log Hc].
    exists log. unfold main.
    rewrite (Cure_configured env New (mkIngredients "https://fujifish.com")
               (url.mkURL "https" "fujifish.com" "" "" "") page eq_refl H).
    rewrite Hc. cbn [bindO].
    destruct (Render env page) as [out [e|]]; reflexivity.
Qed.

Lemma main_runs_witness :
  main envOff = Returns (mkRun 1 "" [loadError "no such host"])
  /\ exists log,
      main envD = Returns (mkRun 0 ("<html>...</html>" ++ String html.LF "") log).
Proof.
  split.
  - apply (proj1 (main_runs envOff)). reflexivity.
  - apply (proj2 (main_runs envD) pageD eq_refl
             (fun _ => ex_intro _ refused eq_refl) noImgSrc_pageD).
Defined.

(** ** [normalizeSourceUrl]: references that start with "//" *)

Lemma Replace_first_slashes (rest : string) :
  strings.Replace ("//" ++ rest) "//" "" 1 = rest.
Proof. destruct rest; reflexivity. Qed.

(** X16. A reference "//" followed by [rest] that [url.Parse] reads with a
    host, where [rest] holds no "../", no "http://" and no "https://", is
    normalized to "http://" followed by [rest], whatever the origin: a
    reference without scheme does not take the scheme of the page, it is
    requested over http also from an https page. *)
Theorem normalizeSourceUrl_scheme_relative
        (rest : string) (origin s : url.URL) :
  url.Parse ("//" ++ rest) = Ok s ->
  url.Host s <> "" ->
  strings.Contains rest "../" = false ->
  strings.Contains rest "http://" || strings.Contains rest "https://" = false ->
  normalizeSourceUrl ("//" ++ rest) origin = ("http://" ++ rest, None).
Proof.
  intros Hp Hh Hd Hm. unfold normalizeSourceUrl. rewrite Hp.
  change (strings.HasPrefix ("//" ++ rest) "//") with true. cbv iota.
  rewrite Replace_first_slashes, (Replace_absent rest "../" "" (-1) Hd).
  destruct (url.Host s) as [|c h]; [contradiction Hh; reflexivity|].
  cbn [String.length Nat.eqb]. unfold addHttpProtocolIfNotExists. rewrite Hm.
  reflexivity.
Qed.

Lemma normalizeSourceUrl_scheme_relative_witness :
  normalizeSourceUrl "//cdn.site.org/app.js" (url.mkURL "https" "site.org" "/" "" "")
  = ("http://cdn.site.org/app.js", None).
Proof.
  apply (normalizeSourceUrl_scheme_relative "cdn.site.org/app.js"
           (url.mkURL "https" "site.org" "/" "" "")
           (url.mkURL "" "cdn.site.org" "/app.js" "" ""));
    [reflexivity | discriminate | reflexivity | reflexivity].
Defined.

(** ** The order of the goroutines does not show in the tree *)

Lemma cureCSS_unit_hit (env : Env) (origin : url.URL) :
  servesRawText env ->
  forall p attrs ch d source,
    fetched env origin "href" ".css" attrs = Some source ->
    exists log, cureCSS_unit env origin (html.ElementNode (Some p) "link" attrs ch) d
                = Returns (spec_replace p [inline "style" source] d, log).
Proof.
  intros Hs p attrs ch d source E.
  destruct (fetched_Some _ _ _ _ _ _ E) as [ref [u [Ha [Hm [Hn Hf]]]]].
  exists [].
  rewrite (cureCSS_unit_replaces env origin (html.ElementNode (Some p) "link" attrs ch)
             d p ref u source eq_refl Ha Hm Hn Hf).
  rewrite ParseFragment_style by (apply (Hs u source Hf)). reflexivity.
Qed.

Lemma cureCSS_unit_miss (env : Env) (origin : url.URL) :
  forall a attrs ch d,
    hit "link" (fetched env origin "href" ".css") a "link" attrs = None ->
    exists log, cureCSS_unit env origin (html.ElementNode a "link" attrs ch) d
                = Returns (d, log).
Proof.
  intros a attrs ch d E.
  destruct (fetched env origin "href" ".css" attrs) as [source|] eqn:Ef.
  - destruct a as [p|]; [cbn [hit] in E; rewrite String.eqb_refl, Ef in E;
                         discriminate E|].
    destruct (fetched_Some _ _ _ _ _ _ Ef) as [ref [u [Ha [Hm [Hn Hf]]]]].
    exists [].
    rewrite (cureCSS_unit_success env origin (html.ElementNode None "link" attrs ch)
               d ref u source Ha Hm Hn Hf).
    reflexivity.
  - destruct (fetched_stops _ _ _ _ _ Ef) as [log0 St].
    exists log0. apply cureCSS_unit_fail_open. exact St.
Qed.

Lemma cureJS_unit_hit (env : Env) (origin : url.URL) :
  servesRawText env ->
  forall p attrs ch d source,
    fetched env origin "src" ".js" attrs = Some source ->
    exists log, cureJS_unit env origin (html.ElementNode (Some p) "script" attrs ch) d
                = Returns (spec_replace p [inline "script" source] d, log).
Proof.
  intros Hs p attrs ch d source E.
  destruct (fetched_Some _ _ _ _ _ _ E) as [ref [u [Ha [Hm [Hn Hf]]]]].
  exists [].
  rewrite (cureJS_unit_replaces env origin (html.ElementNode (Some p) "script" attrs ch)
             d p ref u source eq_refl Ha Hm Hn Hf).
  rewrite ParseFragment_script by (apply (Hs u source Hf)). reflexivity.
Qed.

Lemma cureJS_unit_miss (env : Env) (origin : url.URL) :
  forall a attrs ch d,
    hit "script" (fetched env origin "src" ".js") a "script" attrs = None ->
    exists log, cureJS_unit env origin (html.ElementNode a "script" attrs ch) d
                = Returns (d, log).
Proof.
  intros a attrs ch d E.
  destruct (fetched env origin "src" ".js" attrs) as [source|] eqn:Ef.
  - destruct a as [p|]; [cbn [hit] in E; rewrite String.eqb_refl, Ef in E;
                         discriminate E|].
    destruct (fetched_Some _ _ _ _ _ _ Ef) as [ref [u [Ha [Hm [Hn Hf]]]]].
    exists [].
    rewrite (cureJS_unit_success env origin (html.ElementNode None "script" attrs ch)
               d ref u source Ha Hm Hn Hf).
    reflexivity.
  - destruct (fetched_stops _ _ _ _ _ Ef) as [log0 St].
    exists log0. apply cureJS_unit_fail_open. exact St.
Qed.

(** The elements of a selection in another order, or some of them twice. *)
Lemma selection_inlined (tag new : string)
      (target : list html.Attribute -> option string)
      (unit : html.Node -> goquery.Document -> Outcome Cured)
      (sel : list html.Node) (doc doc' : goquery.Document) (log : list error) :
  (forall p attrs ch d source,
      target attrs = Some source ->
      exists log, unit (html.ElementNode (Some p) tag attrs ch) d
                  = Returns (spec_replace p [inline new source] d, log)) ->
  (forall a attrs ch d,
      hit tag target a tag attrs = None ->
      exists log, unit (html.ElementNode a tag attrs ch) d = Returns (d, log)) ->
  oneHeaderPerAddress doc ->
  (forall x, In x sel <-> In x (goquery.Find tag doc)) ->
  each unit sel doc = Returns (doc', log) ->
  doc' = inlined tag new target doc.
Proof.
  intros Uh Um H1 Hsel H.
  apply (each_inlined tag new target unit Uh Um sel doc doc' log); [ | | | exact H].
  - apply Forall_forall. intros x Hx. apply Hsel in Hx.
    destruct (headers_Find tag doc x Hx) as [a [attrs [ch [-> _]]]].
    exists a, attrs, ch. reflexivity.
  - intros p attrs ch Hin d' attrs' F. apply Hsel in Hin.
    destruct (headers_Find tag doc _ Hin) as [a [attrs0 [ch0 [E Hh]]]].
    injection E as <- <- <-.
    destruct (H1 p tag attrs d' attrs' (Hh p eq_refl) F) as [<- <-].
    split; reflexivity.
  - intros p d attrs source F Eh. cbn [hit] in Eh.
    destruct (String.eqb_spec d tag) as [->|]; [|discriminate Eh].
    destruct (Find_headers tag doc p attrs F) as [ch Hc].
    exists ch. apply Hsel. exact Hc.
Qed.

(** X17. The goroutines of the <link> elements, and those of the <script>
    elements, can run one after the other in any order, and some of them
    twice: when every text that the network serves is read back as one
    raw-text element, the tree they leave is the tree that [cureCSS], or
    [cureJS], leaves. *)
Theorem goroutines_in_any_order
        (env : Env) (origin : url.URL) (doc doc' : goquery.Document)
        (sel : list html.Node) (log : list error) :
  servesRawText env ->
  NoDup (flat_map addresses doc) ->
  ((forall x, In x sel <-> In x (goquery.Find "link" doc)) ->
   each (cureCSS_unit env origin) sel doc = Returns (doc', log) ->
   exists log0, cureCSS env origin doc = Returns (doc', log0))
  /\ ((forall x, In x sel <-> In x (goquery.Find "script" doc)) ->
      each (cureJS_unit env origin) sel doc = Returns (doc', log) ->
      exists log0, cureJS env origin doc = Returns (doc', log0)).
Proof.
  intros Hs Hnd. pose proof (NoDup_oneHeaderPerAddress doc Hnd) as H1. split.
  - intros Hsel H.
    destruct (each_returns (cureCSS_unit env origin) (goquery.Find "link" doc)
                (cureCSS_unit_returns env origin) doc) as [[d0 log0] H0].
    exists log0. unfold cureCSS. rewrite H0. do 2 f_equal.
    rewrite (selection_inlined "link" "style" (fetched env origin "href" ".css")
               (cureCSS_unit env origin) sel doc doc' log
               (cureCSS_unit_hit env origin Hs) (cureCSS_unit_miss env origin)
               H1 Hsel H).
    apply (selection_inlined "link" "style" (fetched env origin "href" ".css")
             (cureCSS_unit env origin) (goquery.Find "link" doc) doc d0 log0
             (cureCSS_unit_hit env origin Hs) (cureCSS_unit_miss env origin) H1);
      [intros x; reflexivity | exact H0].
  - intros Hsel H.
    destruct (each_returns (cureJS_unit env origin) (goquery.Find "script" doc)
                (cureJS_unit_returns env origin) doc) as [[d0 log0] H0].
    exists log0. unfold cureJS. rewrite H0. do 2 f_equal.
    rewrite (selection_inlined "script" "script" (fetched env origin "src" ".js")
               (cureJS_unit env origin) sel doc doc' log
               (cureJS_unit_hit env origin Hs) (cureJS_unit_miss env origin)
               H1 Hsel H).
    apply (selection_inlined "script" "script" (fetched env origin "src" ".js")
             (cureJS_unit env origin) (goquery.Find "script" doc) doc d0 log0
             (cureJS_unit_hit env origin Hs) (cureJS_unit_miss env origin) H1);
      [intros x; reflexivity | exact H0].
Qed.

Lemma goroutines_in_any_order_witness :
  exists log0,
    cureCSS envStyle originB pageA
    = Returns
        ([html.ElementNode (Some 1) "html" []
            [html.ElementNode (Some 2) "head" []
               [html.ElementNode (Some 4) "title" [] [html.TextNode "t"];
                html.ElementNode None "style" [] [html.TextNode "p{margin:0}"];
                html.ElementNode (Some 5) "meta" [] []];
             html.ElementNode (Some 6) "body" [] []]], log0).
Proof.
  apply (proj1 (goroutines_in_any_order envStyle originB pageA _ [linkA; linkA] []
                  ltac:(intros x y E; injection E as <-; split; reflexivity)
                  ltac:(repeat constructor; simpl; intuition discriminate))).
  - intros x. change (goquery.Find "link" pageA) with [linkA].
    split; [intros [E|[E|[]]]; left; exact E | intros [E|[]]; left; exact E].
  - reflexivity.
Defined.

Lemma hit_only_one (t1 t2 : string)
      (f1 f2 : list html.Attribute -> option string)
      (a : option nat) (d : string) (attrs : list html.Attribute) (s : string) :
  t1 <> t2 -> hit t1 f1 a d attrs = Some s -> hit t2 f2 a d attrs = None.
Proof.
  intros Hne H. destruct a as [p|]; [|reflexivity]. cbn [hit] in *.
  destruct (String.eqb_spec d t1) as [->|]; [|discriminate H].
  destruct (String.eqb_spec t1 t2) as [E|_]; [contradiction | reflexivity].
Qed.

Lemma inlined_node_inline (tag new : string)
      (target : list html.Attribute -> option string) (new' text : string) :
  inlined_node tag new target (inline new' text) = [inline new' text].
Proof.
  apply inlined_node_none. rewrite inline_headers. intros p d attrs [].
Qed.

(** Two routines that select different names commute on every tree. *)
Lemma inlined_node_commute (t1 n1 t2 n2 : string)
      (f1 f2 : list html.Attribute -> option string) (n : html.Node) :
  t1 <> t2 ->
  flat_map (inlined_node t1 n1 f1) (inlined_node t2 n2 f2 n)
  = flat_map (inlined_node t2 n2 f2) (inlined_node t1 n1 f1 n).
Proof.
  intros Hne.
  induction n as [d|d|d|a d attrs ch IH|m] using Node_forest_ind;
    try reflexivity.
  cbn [inlined_node].
  destruct (hit t2 f2 a d attrs) as [s2|] eqn:E2.
  - rewrite (hit_only_one t2 t1 f2 f1 a d attrs s2 (fun E => Hne (eq_sym E)) E2).
    cbn [flat_map]. rewrite !app_nil_r, inlined_node_inline.
    cbn [inlined_node]. rewrite E2. reflexivity.
  - destruct (hit t1 f1 a d attrs) as [s1|] eqn:E1.
    + cbn [flat_map]. rewrite !app_nil_r, inlined_node_inline.
      cbn [inlined_node]. rewrite E1. reflexivity.
    + cbn [flat_map]. rewrite !app_nil_r. cbn [inlined_node]. rewrite E1, E2.
      do 2 f_equal.
      induction IH as [|c ch Hc _ IHch]; [reflexivity|].
      cbn [flat_map]. rewrite !flat_map_app, Hc, IHch. reflexivity.
Qed.

Lemma inlined_commute (t1 n1 t2 n2 : string)
      (f1 f2 : list html.Attribute -> option string) (doc : goquery.Document) :
  t1 <> t2 ->
  inlined t1 n1 f1 (inlined t2 n2 f2 doc) = inlined t2 n2 f2 (inlined t1 n1 f1 doc).
Proof.
  intros Hne. unfold inlined. induction doc as [|n doc IH]; [reflexivity|].
  cbn [flat_map]. rewrite !flat_map_app, IH, (inlined_node_commute t1 n1 t2 n2 f1 f2 n Hne).
  reflexivity.
Qed.

(** X18. [cureAssets] starts [cureCSS] and [cureJS] at the same time; run
    one after the other, they leave the same tree in both orders, when every
    text that the network serves is read back as one raw-text element. *)
Theorem style_and_script_routines_commute
        (env : Env) (origin : url.URL) (page d1 d2 e1 e2 : goquery.Document)
        (l1 l2 m1 m2 : list error) :
  servesRawText env ->
  NoDup (flat_map addresses page) ->
  cureCSS env origin page = Returns (d1, l1) ->
  cureJS env origin d1 = Returns (d2, l2) ->
  cureJS env origin page = Returns (e1, m1) ->
  cureCSS env origin e1 = Returns (e2, m2) ->
  d2 = e2.
Proof.
  intros Hs Hnd C1 J1 J2 C2.
  pose proof (NoDup_oneHeaderPerAddress page Hnd) as F.
  pose proof (keeps_oneHeaderPerAddress page d1 (cureCSS_keeps env origin page d1 l1 C1) F)
    as F1.
  pose proof (keeps_oneHeaderPerAddress page e1 (cureJS_keeps env origin page e1 m1 J2) F)
    as G1.
  rewrite (cureJS_inlined env origin d1 d2 l2 Hs F1 J1).
  rewrite (cureCSS_inlined env origin page d1 l1 Hs F C1).
  rewrite (cureCSS_inlined env origin e1 e2 m2 Hs G1 C2).
  rewrite (cureJS_inlined env origin page e1 m1 Hs F J2).
  apply inlined_commute. discriminate.
Qed.

Lemma style_and_script_routines_commute_witness :
  spec_cured envStyle originB pageD
  = inlined "link" "style" (fetched envStyle originB "href" ".css")
      (inlined "script" "script" (fetched envStyle originB "src" ".js") pageD).
Proof.
  apply (style_and_script_routines_commute envStyle originB pageD
           (inlined "link" "style" (fetched envStyle originB "href" ".css") pageD)
           (spec_cured envStyle originB pageD)
           (inlined "script" "script" (fetched envStyle originB "src" ".js") pageD)
           (inlined "link" "style" (fetched envStyle originB "href" ".css")
              (inlined "script" "script" (fetched envStyle originB "src" ".js") pageD))
           [] [] [] []
           ltac:(intros x y E; injection E as <-; split; reflexivity)
           ltac:(repeat constructor; simpl; intuition discriminate)
           eq_refl eq_refl eq_refl eq_refl).
Defined.

(* ================================================================== *)
(** * The goroutines of [cureAssets]: the two joins *)
(* ================================================================== *)

(** ** Counting: basic equations *)

Lemma weight_cons (f : Instr -> nat) (x : Instr) (r : list Instr) :
  weight f (x :: r) = weigh f x + weight f r.
Proof. reflexivity. Qed.

Lemma weight_app (f : Instr -> nat) (a b : list Instr) :
  weight f (a ++ b)%list = weight f a + weight f b.
Proof. unfold weight. rewrite map_app, list_sum_app. reflexivity. Qed.

Lemma total_cons (f : Instr -> nat) (t : list Instr) (ts : list (list Instr)) :
  total f (t :: ts) = weight f t + total f ts.
Proof. reflexivity. Qed.

Lemma total_app (f : Instr -> nat) (a b : list (list Instr)) :
  total f (a ++ b)%list = total f a + total f b.
Proof. unfold total. rewrite map_app, list_sum_app. reflexivity. Qed.

Lemma weigh_spawned (f : Instr -> nat) (x : Instr) :
  weigh f x = f x + total f (spawned x).
Proof. destruct x; unfold total, weight; simpl; lia. Qed.

(** A step takes the instruction it runs out of the code that is left. *)
Lemma total_step (f : Instr -> nat) (pre post : list (list Instr)) (x : Instr)
      (rest : list Instr) :
  total f (pre ++ rest :: post ++ spawned x)%list + f x
  = total f (pre ++ (x :: rest) :: post)%list.
Proof.
  rewrite !total_app, !total_cons, total_app, weight_cons, weigh_spawned. lia.
Qed.

Lemma scanBody_Go (first second : Instr -> nat) (body : list Instr) :
  scanBody first second (Go body) = scan first second body.
Proof.
  simpl. induction body as [|x r IH]; [reflexivity|].
  simpl. rewrite IH. reflexivity.
Qed.

Lemma coveredBody_Go (w : WaitGroup) (body : list Instr) :
  coveredBody w (Go body) = covered w body.
Proof.
  simpl. induction body as [|x r IH]; [reflexivity|].
  simpl. rewrite IH. reflexivity.
Qed.

(** If [g] counts only instructions that [f] counts, code without the latter
    is without the former. *)
Lemma weigh_zero (f g : Instr -> nat) :
  (forall i, f i = 0 -> g i = 0) ->
  forall i, weigh f i = 0 -> weigh g i = 0.
Proof.
  intros Hfg. fix IH 1. intros [w n|w|w|body| e|]; simpl; intros H;
    try (rewrite Hfg by lia; reflexivity).
  apply Nat.eq_add_0 in H. destruct H as [H0 Hb]. rewrite (Hfg _ H0). simpl.
  clear H0. induction body as [|x r IHr]; [reflexivity|]. simpl in *.
  apply Nat.eq_add_0 in Hb. destruct Hb as [Hx Hr].
  rewrite (IH x Hx), (IHr Hr). reflexivity.
Qed.

Lemma weight_zero (f g : Instr -> nat) (code : list Instr) :
  (forall i, f i = 0 -> g i = 0) -> weight f code = 0 -> weight g code = 0.
Proof.
  intros Hfg. unfold weight. induction code as [|x r IH]; simpl; [reflexivity|].
  intros H. apply Nat.eq_add_0 in H. destruct H as [Hx Hr].
  rewrite (weigh_zero f g Hfg x Hx), (IH Hr). reflexivity.
Qed.

Lemma total_zero (f g : Instr -> nat) (ts : list (list Instr)) :
  (forall i, f i = 0 -> g i = 0) -> total f ts = 0 -> total g ts = 0.
Proof.
  intros Hfg. unfold total. induction ts as [|t r IH]; simpl; [reflexivity|].
  intros H. apply Nat.eq_add_0 in H. destruct H as [Hx Hr].
  rewrite (weight_zero f g t Hfg Hx), (IH Hr). reflexivity.
Qed.

(** Code without [second] passes the scan. *)
Lemma scan_without (first second : Instr -> nat) :
  forall code, weight second code = 0 -> scan first second code = true.
Proof.
  assert (B : forall i, weigh second i = 0 -> scanBody first second i = true).
  { fix IH 1. intros [w n|w|w|body|e|]; try reflexivity.
    simpl. intros H. apply Nat.eq_add_0 in H. destruct H as [_ H].
    induction body as [|x r IHr]; [reflexivity|]. simpl in H.
    apply Nat.eq_add_0 in H. destruct H as [Hx Hr].
    destruct (0 <? first x)%nat; [reflexivity|].
    assert (second x = 0) as -> by (destruct x; simpl in Hx; lia). simpl.
    rewrite (IH x Hx), (IHr Hr). reflexivity. }
  induction code as [|x r IH]; [reflexivity|].
  rewrite weight_cons. intros H. apply Nat.eq_add_0 in H. destruct H as [Hx Hr].
  simpl. destruct (0 <? first x)%nat; [reflexivity|].
  assert (second x = 0) as -> by (destruct x; simpl in Hx; lia). simpl.
  rewrite (B x Hx), (IH Hr). reflexivity.
Qed.

(** Covered code holds at least as many calls of [Done] as guarded events. *)
Lemma covered_balanced (w : WaitGroup) (code : list Instr) :
  covered w code = true -> weight (isGuarded w) code <= weight (isDone w) code.
Proof.
  destruct code; simpl; intros H.
  - unfold weight. simpl. lia.
  - apply andb_true_iff in H. destruct H as [H _].
    apply Nat.leb_le in H. exact H.
Qed.

Lemma covered_total (w : WaitGroup) (ts : list (list Instr)) :
  Forall (fun L => covered w L = true) ts ->
  total (isGuarded w) ts <= total (isDone w) ts.
Proof.
  induction 1 as [|t r Ht _ IH]; [unfold total; simpl; lia|].
  rewrite !total_cons. pose proof (covered_balanced w t Ht). lia.
Qed.

(** ** The invariant of the running program *)

Lemma ordered_step (first second : Instr -> nat)
      (pre post : list (list Instr)) (x : Instr) (rest : list Instr) :
  (0 < second x -> first x = 0) ->
  total first (pre ++ (x :: rest) :: post)%list <= 1 ->
  ordered first second (pre ++ (x :: rest) :: post)%list ->
  ordered first second (pre ++ rest :: post ++ spawned x)%list
  /\ (0 < second x -> total first (pre ++ (x :: rest) :: post)%list = 0).
Proof.
  intros Hdis Hone [Hz|Hs].
  - split; [|intros _; exact Hz]. left.
    pose proof (total_step first pre post x rest). lia.
  - apply Forall_app in Hs. destruct Hs as [Hpre Hs].
    inversion Hs as [|? ? Hx Hpost]; subst. simpl in Hx.
    destruct (Nat.ltb_spec 0 (first x)) as [Hf|Hf].
    + split.
      * left. pose proof (total_step first pre post x rest). lia.
      * intros H2. specialize (Hdis H2). lia.
    + destruct (Nat.ltb_spec 0 (second x)) as [H2|H2]; [discriminate|].
      split; [|lia]. right.
      apply andb_true_iff in Hx. destruct Hx as [Hb Hr].
      apply Forall_app. split; [assumption|]. constructor; [assumption|].
      apply Forall_app. split; [assumption|].
      destruct x; simpl; try constructor; [|constructor].
      rewrite scanBody_Go in Hb. exact Hb.
Qed.

Lemma isWait_is_Wait (w : WaitGroup) (x : Instr) : 0 < isWait w x -> x = Wait w.
Proof.
  destruct x; simpl; try lia. destruct (wg_eq_dec w w0); [subst; reflexivity | lia].
Qed.

Lemma isAdd_addAmount (w : WaitGroup) (i : Instr) : isAdd w i = 0 -> addAmount w i = 0.
Proof. destruct i; simpl; try reflexivity. destruct (wg_eq_dec w w0); [discriminate|reflexivity]. Qed.

Lemma isGuarded_isEmit (w : WaitGroup) (e : Event) (i : Instr) :
  guard e = Some w -> isGuarded w i = 0 -> isEmit e i = 0.
Proof.
  intros Hg. destruct i; simpl; try reflexivity.
  destruct (event_eq_dec e e0) as [<-|]; [|reflexivity].
  rewrite Hg. destruct (wg_eq_dec w w); [discriminate|congruence].
Qed.

(** When the [Wait] of [w] is about to run, nothing guarded by [w] is left. *)
Lemma wait_group_is_through
      (n : AssetClass -> nat) (pre post : list (list Instr)) (x : Instr)
      (rest : list Instr) (cnt : WaitGroup -> nat) (tr : list Event)
      (Hinv : invariant n (mkState (pre ++ (x :: rest) :: post) cnt tr false)) (w : WaitGroup) :
  total (isWait w) (pre ++ (x :: rest) :: post)%list = 0 ->
  forall e, programEvent n e -> guard e = Some w -> In e tr.
Proof.
  intros Hc e He Hg.
  destruct (inv_pending n _ Hinv e He) as [H|H]; [exact H|].
  exfalso.
  pose proof (inv_closed n _ Hinv w Hc) as Hd.
  pose proof (covered_total w _ (inv_covered n _ Hinv w)) as Hcov.
  cbn [threads events] in *.
  assert (Hz : total (isGuarded w) (pre ++ (x :: rest) :: post)%list = 0) by lia.
  rewrite (total_zero (isGuarded w) (isEmit e) _ (fun i => isGuarded_isEmit w e i Hg) Hz) in H.
  lia.
Qed.

Lemma step_joined
      (n : AssetClass -> nat) (pre post : list (list Instr)) (x : Instr)
      (rest : list Instr) (cnt : WaitGroup -> nat) (tr : list Event)
      (Hinv : invariant n (mkState (pre ++ (x :: rest) :: post) cnt tr false)) :
  joined n tr -> joined n (eventsAfter x tr).
Proof.
  intros Hj. destruct x as [w0 k|w0|w0|body|e'|]; try exact Hj.
  simpl. intros w l1 l2 E e He Hg.
  destruct l1 as [|e0 l1]; simpl in E.
  - injection E as -> <-.
    apply (wait_group_is_through n pre post (Emit (release w)) rest cnt tr Hinv w);
      [|assumption|assumption].
    refine (proj2 (ordered_step (isWait w) (isEmit (release w)) pre post
                     (Emit (release w)) rest _ (inv_waits n _ Hinv w)
                     (inv_wait_release n _ Hinv w)) _).
    + intros _. reflexivity.
    + simpl. destruct (event_eq_dec (release w) (release w)); [lia|congruence].
  - injection E as _ ->. exact (Hj w l1 l2 eq_refl e He Hg).
Qed.

Lemma step_invariant
      (n : AssetClass -> nat) (pre post : list (list Instr)) (x : Instr)
      (rest : list Instr) (cnt : WaitGroup -> nat) (tr : list Event)
      (Hinv : invariant n (mkState (pre ++ (x :: rest) :: post) cnt tr false))
      (Hen : enabled x cnt) :
  crashesAt x cnt = false ->
  invariant n (mkState (pre ++ rest :: post ++ spawned x) (countAfter x cnt)
                       (eventsAfter x tr) (crashesAt x cnt)).
Proof.
  intros Hcr. constructor; simpl.
  - intros w. pose proof (total_step (isAdd w) pre post x rest).
    pose proof (inv_adds n _ Hinv w). simpl in *. lia.
  - intros w. pose proof (total_step (isWait w) pre post x rest).
    pose proof (inv_waits n _ Hinv w). simpl in *. lia.
  - intros w. apply ordered_step.
    + destruct x; simpl; lia.
    + exact (inv_adds n _ Hinv w).
    + exact (inv_add_wait n _ Hinv w).
  - intros w. apply ordered_step.
    + destruct x; simpl; lia.
    + exact (inv_waits n _ Hinv w).
    + exact (inv_wait_release n _ Hinv w).
  - intros w.
    pose proof (total_step (addAmount w) pre post x rest) as Ha.
    pose proof (total_step (isDone w) pre post x rest) as Hd.
    pose proof (inv_count n _ Hinv w) as Hc. simpl in Hc.
    destruct x as [w0 k|w0|w0|body|e'|]; simpl in *; unfold bump;
      try lia.
    + destruct (wg_eq_dec w0 w) as [->|Hne].
      * destruct (wg_eq_dec w w); [lia|congruence].
      * destruct (wg_eq_dec w w0); [congruence|lia].
    + apply Nat.eqb_neq in Hcr.
      destruct (wg_eq_dec w0 w) as [->|Hne].
      * destruct (wg_eq_dec w w); [lia|congruence].
      * destruct (wg_eq_dec w w0); [congruence|lia].
  - intros w Hw.
    pose proof (total_step (isWait w) pre post x rest) as Hwt.
    pose proof (total_step (isDone w) pre post x rest) as Hd.
    destruct (Nat.eq_dec (total (isWait w) (pre ++ (x :: rest) :: post)%list) 0)
      as [Hz|Hnz].
    + pose proof (inv_closed n _ Hinv w Hz). simpl in *. lia.
    + assert (Hx : 0 < isWait w x) by lia.
      pose proof (isWait_is_Wait w x Hx) as Ex.
      pose proof (proj2 (ordered_step (isAdd w) (isWait w) pre post x rest
                           ltac:(rewrite Ex; simpl; reflexivity)
                           (inv_adds n _ Hinv w)
                           (inv_add_wait n _ Hinv w)) Hx) as Hadd.
      pose proof (total_zero (isAdd w) (addAmount w) _ (isAdd_addAmount w) Hadd) as Hamt.
      pose proof (inv_count n _ Hinv w) as Hc. simpl in Hc.
      rewrite Ex in Hen. simpl in Hen. lia.
  - intros w. pose proof (inv_covered n _ Hinv w) as Hc. simpl in Hc.
    apply Forall_app in Hc. destruct Hc as [Hpre Hc].
    inversion Hc as [|? ? Hx Hpost]; subst.
    cbn [covered] in Hx. apply andb_true_iff in Hx. destruct Hx as [_ Hx].
    apply andb_true_iff in Hx. destruct Hx as [Hb Hr].
    apply Forall_app. split; [assumption|]. constructor; [assumption|].
    apply Forall_app. split; [assumption|].
    destruct x; simpl; try constructor; [|constructor].
    rewrite coveredBody_Go in Hb. exact Hb.
  - intros e He.
    destruct (inv_pending n _ Hinv e He) as [H|H]; simpl in H.
    + left. destruct x; simpl; auto.
    + pose proof (total_step (isEmit e) pre post x rest) as Ht.
      destruct x as [w0 k|w0|w0|body|e'|]; simpl in *; try (right; lia).
      destruct (event_eq_dec e e') as [->|Hne]; [left; left; reflexivity | right; lia].
Qed.

(** ** The invariant at the start *)

Lemma classCode_parts (c : AssetClass) (n : nat) (panics : nat -> bool) :
  classCode c n panics
  = (Add (Inner c) n :: unitGoroutines c panics (seq 0 n) ++ classTail c)%list.
Proof. reflexivity. Qed.

Lemma weigh_unit (f : Instr -> nat) (c : AssetClass) (i : nat) (b : bool) :
  weigh f (Go (unitCode c i b))
  = f (Go (unitCode c i b)) + f (Emit (UnitEnd c i)) + f (Done (Inner c))
    + (if b then f Crash else 0).
Proof. destruct b; simpl; lia. Qed.

Lemma weight_units (f : Instr -> nat) (c : AssetClass) (panics : nat -> bool)
      (k : nat) (l : list nat) :
  (forall i b, weigh f (Go (unitCode c i b)) = k) ->
  weight f (unitGoroutines c panics l) = k * length l.
Proof.
  intros H. induction l as [|i l IH];
    [cbn [Datatypes.length]; rewrite Nat.mul_0_r; reflexivity|].
  unfold unitGoroutines in *. cbn [map]. rewrite weight_cons, IH, H.
  cbn [Datatypes.length]. rewrite Nat.mul_succ_r. lia.
Qed.

Lemma weight_classCode (f : Instr -> nat) (c : AssetClass) (n : nat)
      (panics : nat -> bool) (k : nat) :
  (forall i b, weigh f (Go (unitCode c i b)) = k) ->
  weight f (classCode c n panics)
  = f (Add (Inner c) n) + k * n
    + (f (Wait (Inner c)) + f (Emit (ClassEnd c)) + f (Done Outer)).
Proof.
  intros H. rewrite classCode_parts, weight_cons, weight_app,
    (weight_units f c panics k _ H), length_seq.
  unfold classTail, weight. simpl. lia.
Qed.

Lemma weight_class_isAdd (w : WaitGroup) (c : AssetClass) (n : nat) (p : nat -> bool) :
  weight (isAdd w) (classCode c n p) = here _ (wg_eq_dec w (Inner c)).
Proof.
  rewrite (weight_classCode (isAdd w) c n p 0).
  - simpl. unfold here. destruct (wg_eq_dec w (Inner c)); lia.
  - intros i b. rewrite weigh_unit. destruct b; reflexivity.
Qed.

Lemma weight_class_isWait (w : WaitGroup) (c : AssetClass) (n : nat) (p : nat -> bool) :
  weight (isWait w) (classCode c n p) = here _ (wg_eq_dec w (Inner c)).
Proof.
  rewrite (weight_classCode (isWait w) c n p 0).
  - simpl. unfold here. destruct (wg_eq_dec w (Inner c)); lia.
  - intros i b. rewrite weigh_unit. destruct b; reflexivity.
Qed.

Lemma weight_class_addAmount (w : WaitGroup) (c : AssetClass) (n : nat) (p : nat -> bool) :
  weight (addAmount w) (classCode c n p) = here _ (wg_eq_dec w (Inner c)) * n.
Proof.
  rewrite (weight_classCode (addAmount w) c n p 0).
  - simpl. unfold here. destruct (wg_eq_dec w (Inner c)); lia.
  - intros i b. rewrite weigh_unit. destruct b; reflexivity.
Qed.

Lemma weight_class_isDone (w : WaitGroup) (c : AssetClass) (n : nat) (p : nat -> bool) :
  weight (isDone w) (classCode c n p)
  = here _ (wg_eq_dec w (Inner c)) * n + here _ (wg_eq_dec w Outer).
Proof.
  rewrite (weight_classCode (isDone w) c n p (here _ (wg_eq_dec w (Inner c)))).
  - simpl. unfold here. destruct (wg_eq_dec w (Inner c)); destruct (wg_eq_dec w Outer); lia.
  - intros i b. rewrite weigh_unit. unfold here. simpl.
    destruct (wg_eq_dec w (Inner c)); destruct b; reflexivity.
Qed.

Lemma weight_class_isGuarded (w : WaitGroup) (c : AssetClass) (n : nat) (p : nat -> bool) :
  weight (isGuarded w) (classCode c n p)
  = here _ (wg_eq_dec w (Inner c)) * n + here _ (wg_eq_dec w Outer).
Proof.
  rewrite (weight_classCode (isGuarded w) c n p (here _ (wg_eq_dec w (Inner c)))).
  - simpl. unfold here. destruct (wg_eq_dec w (Inner c)); destruct (wg_eq_dec w Outer); lia.
  - intros i b. rewrite weigh_unit. unfold here. simpl.
    destruct (wg_eq_dec w (Inner c)); destruct b; reflexivity.
Qed.

Lemma weight_class_isEmit_release (w : WaitGroup) (c : AssetClass) (n : nat)
      (p : nat -> bool) :
  weight (isEmit (release w)) (classCode c n p) = here _ (wg_eq_dec w (Inner c)).
Proof.
  rewrite (weight_classCode (isEmit (release w)) c n p 0).
  - simpl. unfold here.
    destruct (event_eq_dec (release w) (ClassEnd c)) as [E|E];
      destruct (wg_eq_dec w (Inner c)) as [W|W]; try reflexivity.
    + destruct w; simpl in E; [discriminate | injection E as ->; congruence].
    + subst w. simpl in E. congruence.
  - intros i b. rewrite weigh_unit. simpl.
    destruct (event_eq_dec (release w) (UnitEnd c i)) as [E|E];
      [destruct w; discriminate E | destruct b; reflexivity].
Qed.

Lemma weigh_le_weight (f : Instr -> nat) (x : Instr) (l : list Instr) :
  In x l -> weigh f x <= weight f l.
Proof.
  induction l as [|y l IH]; [intros []|]. rewrite weight_cons.
  intros [->|H]; [lia | specialize (IH H); lia].
Qed.

Lemma weight_class_isEmit_unit (c : AssetClass) (n i : nat) (p : nat -> bool) :
  i < n -> 1 <= weight (isEmit (UnitEnd c i)) (classCode c n p).
Proof.
  intros Hi. rewrite classCode_parts, weight_cons, weight_app.
  assert (In (Go (unitCode c i (p i))) (unitGoroutines c p (seq 0 n))) as Hin.
  { unfold unitGoroutines. apply in_map_iff. exists i. split; [reflexivity|].
    apply in_seq. lia. }
  pose proof (weigh_le_weight (isEmit (UnitEnd c i)) _ _ Hin) as H.
  rewrite weigh_unit in H. simpl in H.
  destruct (event_eq_dec (UnitEnd c i) (UnitEnd c i)); [|congruence].
  lia.
Qed.

Lemma weight_class_isEmit_class (c : AssetClass) (n : nat) (p : nat -> bool) :
  1 <= weight (isEmit (ClassEnd c)) (classCode c n p).
Proof.
  rewrite classCode_parts, weight_cons, weight_app. unfold classTail, weight at 2.
  simpl. destruct (event_eq_dec (ClassEnd c) (ClassEnd c)); [lia|congruence].
Qed.

Lemma scanBody_without (first second : Instr -> nat) (i : Instr) :
  weigh second i = 0 -> scanBody first second i = true.
Proof.
  destruct i as [w n|w|w|body|e|]; try reflexivity.
  rewrite scanBody_Go. intros H. apply scan_without.
  cbn [weigh] in H. unfold weight. lia.
Qed.

Lemma weigh_leaf_zero (f : Instr -> nat) (i : Instr) : weigh f i = 0 -> f i = 0.
Proof. destruct i; simpl; lia. Qed.

Lemma scan_app (first second : Instr -> nat) (a b : list Instr) :
  weight second a = 0 ->
  scan first second b = true ->
  scan first second (a ++ b)%list = true.
Proof.
  intros Ha Hb. induction a as [|x a IH]; [exact Hb|].
  rewrite weight_cons in Ha. apply Nat.eq_add_0 in Ha. destruct Ha as [Hx Ha].
  cbn [app scan]. destruct (0 <? first x)%nat; [reflexivity|].
  rewrite (weigh_leaf_zero second x Hx). cbn [Nat.ltb Nat.leb].
  rewrite (scanBody_without first second x Hx), (IH Ha). reflexivity.
Qed.

Lemma scan_class_add_wait (w : WaitGroup) (c : AssetClass) (n : nat) (p : nat -> bool) :
  scan (isAdd w) (isWait w) (classCode c n p) = true.
Proof.
  destruct (wg_eq_dec w (Inner c)) as [->|Hne].
  - rewrite classCode_parts. cbn [scan isAdd].
    destruct (wg_eq_dec (Inner c) (Inner c)); [reflexivity|congruence].
  - apply scan_without. rewrite weight_class_isWait. unfold here.
    destruct (wg_eq_dec w (Inner c)); [congruence|reflexivity].
Qed.

Lemma scan_class_wait_release (w : WaitGroup) (c : AssetClass) (n : nat)
      (p : nat -> bool) :
  scan (isWait w) (isEmit (release w)) (classCode c n p) = true.
Proof.
  destruct (wg_eq_dec w (Inner c)) as [->|Hne].
  - rewrite classCode_parts. cbn [scan isWait isEmit scanBody Nat.ltb Nat.leb andb].
    apply scan_app.
    + rewrite (weight_units _ c p 0); [reflexivity|].
      intros i b. rewrite weigh_unit. cbn [isEmit release].
      destruct (event_eq_dec (ClassEnd c) (UnitEnd c i)); [discriminate|].
      destruct b; reflexivity.
    + unfold classTail. cbn [scan isWait].
      destruct (wg_eq_dec (Inner c) (Inner c)); [reflexivity|congruence].
  - apply scan_without. rewrite weight_class_isEmit_release. unfold here.
    destruct (wg_eq_dec w (Inner c)); [congruence|reflexivity].
Qed.

Lemma scan_main_add_wait (w : WaitGroup) (n : AssetClass -> nat)
      (p : AssetClass -> nat -> bool) :
  scan (isAdd w) (isWait w) (mainCode n p) = true.
Proof.
  unfold mainCode. cbn [scan isAdd isWait].
  destruct (wg_eq_dec w Outer) as [->|Hne]; [reflexivity|].
  cbn [Nat.ltb Nat.leb]. rewrite !scanBody_Go, !scan_class_add_wait. reflexivity.
Qed.

Lemma scan_main_wait_release (w : WaitGroup) (n : AssetClass -> nat)
      (p : AssetClass -> nat -> bool) :
  scan (isWait w) (isEmit (release w)) (mainCode n p) = true.
Proof.
  unfold mainCode. cbn [scan isWait isEmit Nat.ltb Nat.leb].
  rewrite !scanBody_Go, !scan_class_wait_release. cbn [scanBody andb].
  destruct (wg_eq_dec w Outer) as [->|Hne]; [reflexivity|].
  cbn [Nat.ltb Nat.leb].
  destruct (event_eq_dec (release w) Serialized) as [E|E]; [|reflexivity].
  destruct w; [congruence | discriminate E].
Qed.

(** *** Covered code *)

Lemma covered_unit (w : WaitGroup) (c : AssetClass) (i : nat) (b : bool) :
  covered w (unitCode c i b) = true.
Proof.
  unfold unitCode. destruct b; cbn [app covered coveredBody balanced];
    unfold balanced, weight; cbn [map list_sum weigh isGuarded isDone guard];
    destruct (wg_eq_dec w (Inner c)); reflexivity.
Qed.

Lemma covered_app_units (w : WaitGroup) (c : AssetClass) (p : nat -> bool)
      (l : list nat) (tail : list Instr) :
  covered w tail = true ->
  covered w (unitGoroutines c p l ++ tail)%list = true.
Proof.
  intros Ht. induction l as [|i l IH]; [exact Ht|].
  unfold unitGoroutines in *. cbn [map app covered].
  rewrite coveredBody_Go, covered_unit, IH. cbn [andb]. rewrite andb_true_r.
  unfold balanced. apply Nat.leb_le. rewrite !weight_cons.
  pose proof (covered_balanced w _ IH) as Hb.
  rewrite !weigh_unit. cbn [isGuarded isDone guard].
  destruct (wg_eq_dec w (Inner c)); destruct (p i); lia.
Qed.

Lemma covered_classTail (w : WaitGroup) (c : AssetClass) :
  covered w (classTail c) = true.
Proof.
  unfold classTail. cbn [covered coveredBody].
  unfold balanced, weight; cbn [map list_sum weigh isGuarded isDone guard].
  destruct (wg_eq_dec w Outer); reflexivity.
Qed.

Lemma covered_class (w : WaitGroup) (c : AssetClass) (n : nat) (p : nat -> bool) :
  covered w (classCode c n p) = true.
Proof.
  pose proof (covered_app_units w c p (seq 0 n) (classTail c) (covered_classTail w c)) as H.
  rewrite classCode_parts. cbn [covered coveredBody]. rewrite H, andb_true_r.
  unfold balanced. apply Nat.leb_le. rewrite !weight_cons.
  pose proof (covered_balanced w _ H). cbn [weigh isGuarded isDone]. lia.
Qed.

Lemma weigh_Go (f : Instr -> nat) (body : list Instr) :
  weigh f (Go body) = f (Go body) + weight f body.
Proof. reflexivity. Qed.

Lemma covered_main (w : WaitGroup) (n : AssetClass -> nat)
      (p : AssetClass -> nat -> bool) :
  covered w (mainCode n p) = true.
Proof.
  unfold mainCode. cbn [covered].
  rewrite !coveredBody_Go, !covered_class. cbn [coveredBody andb]. rewrite !andb_true_r.
  unfold balanced. rewrite !weight_cons, !weigh_Go.
  rewrite !weight_class_isGuarded, !weight_class_isDone. cbn [weigh].
  cbn [isGuarded isDone guard].
  unfold weight. cbn [map list_sum].
  repeat (apply andb_true_iff; split); apply Nat.leb_le; lia.
Qed.

Lemma weight_main (f : Instr -> nat) (n : AssetClass -> nat)
      (p : AssetClass -> nat -> bool) :
  weight f (mainCode n p)
  = f (Add Outer 3)
    + (f (Go (classCode CSS (n CSS) (p CSS))) + weight f (classCode CSS (n CSS) (p CSS)))
    + (f (Go (classCode JS (n JS) (p JS))) + weight f (classCode JS (n JS) (p JS)))
    + (f (Go (classCode Images (n Images) (p Images)))
       + weight f (classCode Images (n Images) (p Images)))
    + f (Wait Outer) + f (Emit Serialized).
Proof.
  unfold mainCode. rewrite !weight_cons, !weigh_Go. cbn [weigh].
  change (weight f []) with 0. lia.
Qed.

Lemma total_single (f : Instr -> nat) (code : list Instr) :
  total f [code] = weight f code.
Proof. unfold total. simpl. lia. Qed.

Ltac wg_cases :=
  unfold here;
  repeat match goal with
         | |- context [wg_eq_dec ?a ?b] => destruct (wg_eq_dec a b)
         | |- context [event_eq_dec ?a ?b] => destruct (event_eq_dec a b)
         end;
  try congruence; try lia.

Lemma initial_invariant (n : AssetClass -> nat) (p : AssetClass -> nat -> bool) :
  invariant n (initial n p).
Proof.
  constructor; cbn [initial threads count events].
  - intros w. rewrite total_single, weight_main, !weight_class_isAdd.
    cbn [isAdd]. destruct w as [|[]]; wg_cases.
  - intros w. rewrite total_single, weight_main, !weight_class_isWait.
    cbn [isWait]. destruct w as [|[]]; wg_cases.
  - intros w. right. constructor; [apply scan_main_add_wait | constructor].
  - intros w. right. constructor; [apply scan_main_wait_release | constructor].
  - intros w. rewrite !total_single, !weight_main, !weight_class_addAmount,
      !weight_class_isDone. cbn [addAmount isDone].
    destruct w as [|[]]; wg_cases.
  - intros w. rewrite total_single, weight_main, !weight_class_isWait.
    cbn [isWait]. destruct w as [|[]]; wg_cases.
  - intros w. constructor; [apply covered_main | constructor].
  - intros e He. right. rewrite total_single, weight_main.
    destruct e as [c i|c|]; cbn [programEvent] in He.
    + pose proof (weight_class_isEmit_unit c (n c) i (p c) He). destruct c; lia.
    + pose proof (weight_class_isEmit_class c (n c) (p c)). destruct c; lia.
    + cbn [isEmit]. wg_cases.
Qed.

(** ** The two-level join holds in every reachable state *)

Lemma reachable_joined (n : AssetClass -> nat) (p : AssetClass -> nat -> bool)
      (s : State) :
  reachable (initial n p) s ->
  joined n (events s) /\ (crashed s = false -> invariant n s).
Proof.
  induction 1 as [|s s' _ [Hj Hi] Hstep].
  - split; [|intros _; apply initial_invariant].
    intros w l1 l2 E. destruct l1; discriminate E.
  - destruct Hstep as [pre post x rest cnt tr Hen].
    specialize (Hi eq_refl). cbn [events crashed] in *. split.
    + exact (step_joined n pre post x rest cnt tr Hi Hj).
    + intros Hcr. exact (step_invariant n pre post x rest cnt tr Hi Hen Hcr).
Qed.

(** ** Schedules *)

Open Scope list_scope.

Lemma reachable_run (s0 : State) (ts pre post : list (list Instr)) (x : Instr)
      (rest : list Instr) (cnt : WaitGroup -> nat) (tr : list Event) :
  ts = (pre ++ (x :: rest) :: post)%list ->
  enabled x cnt ->
  reachable s0 (mkState ts cnt tr false) ->
  reachable s0 (mkState (pre ++ rest :: post ++ spawned x) (countAfter x cnt)
                        (eventsAfter x tr) (crashesAt x cnt)).
Proof.
  intros -> Hen H. eapply reach_step; [exact H | constructor; exact Hen].
Qed.

(** A goroutine that starts a list of goroutines has started them all. *)
Lemma spawn_all (s0 : State) (bodies : list (list Instr)) (rest : list Instr)
      (pre : list (list Instr)) (cnt : WaitGroup -> nat) (tr : list Event) :
  forall post,
    reachable s0 (mkState (pre ++ (map Go bodies ++ rest) :: post) cnt tr false) ->
    reachable s0 (mkState (pre ++ rest :: post ++ bodies) cnt tr false).
Proof.
  induction bodies as [|b bodies IH]; intros post H.
  - rewrite app_nil_r. exact H.
  - cbn [map app] in H.
    apply (reachable_run s0 _ pre post (Go b) (map Go bodies ++ rest) cnt tr eq_refl I)
      in H.
    cbn [spawned countAfter eventsAfter crashesAt] in H.
    apply IH in H. rewrite <- app_assoc in H. exact H.
Qed.

Lemma unitGoroutines_bodies (c : AssetClass) (p : nat -> bool) (l : list nat) :
  unitGoroutines c p l = map Go (unitBodies c p l).
Proof. unfold unitGoroutines, unitBodies. rewrite map_map. reflexivity. Qed.

(** A curing routine has called [wg.Add] and started its goroutines. *)
Lemma class_spawns (s0 : State) (c : AssetClass) (k : nat) (p : nat -> bool)
      (pre post : list (list Instr)) (cnt : WaitGroup -> nat) (tr : list Event) :
  reachable s0 (mkState (pre ++ classCode c k p :: post) cnt tr false) ->
  reachable s0 (mkState (pre ++ classTail c :: post ++ unitBodies c p (seq 0 k))
                        (bump (Inner c) (fun j => j + k) cnt) tr false).
Proof.
  intros H. rewrite classCode_parts in H.
  apply (reachable_run s0 _ pre post (Add (Inner c) k) _ cnt tr eq_refl I) in H.
  cbn [spawned countAfter eventsAfter crashesAt] in H.
  rewrite app_nil_r, unitGoroutines_bodies in H.
  apply spawn_all in H. exact H.
Qed.

Lemma reachable_allStarted (n : AssetClass -> nat) (p : AssetClass -> nat -> bool) :
  reachable (initial n p) (allStarted n p).
Proof.
  pose proof (reach_start (initial n p)) as H. unfold initial, mainCode in H.
  apply (reachable_run _ _ [] [] (Add Outer 3) _ _ _ eq_refl I) in H.
  cbn [spawned countAfter eventsAfter crashesAt app] in H.
  apply (spawn_all _ [classCode CSS (n CSS) (p CSS); classCode JS (n JS) (p JS);
                      classCode Images (n Images) (p Images)] mainTail [] _ _ []) in H.
  cbn [app] in H.
  apply (class_spawns _ CSS _ _ [mainTail] [_; _]) in H. cbn [app] in H.
  apply (class_spawns _ JS _ _ [mainTail; classTail CSS] (_ :: _)) in H. cbn [app] in H.
  apply (class_spawns _ Images _ _ [mainTail; classTail CSS; classTail JS] _) in H.
  exact H.
Qed.

Lemma allStarted_unit (n : AssetClass -> nat) (p : AssetClass -> nat -> bool)
      (c : AssetClass) (i : nat) :
  i < n c -> In (unitCode c i (p c i)) (threads (allStarted n p)).
Proof.
  intros Hi.
  assert (In (unitCode c i (p c i)) (unitBodies c (p c) (seq 0 (n c)))) as H.
  { unfold unitBodies. apply in_map_iff. exists i. split; [reflexivity|].
    apply in_seq. lia. }
  cbn [allStarted threads]. apply in_or_app. right.
  destruct c.
  - apply in_or_app. left. apply in_or_app. left. exact H.
  - apply in_or_app. left. apply in_or_app. right. exact H.
  - apply in_or_app. right. exact H.
Qed.

(** Two goroutines that are about to emit can do so in either order. *)
Lemma emit_two (s0 : State) (ts : list (list Instr)) (cnt : WaitGroup -> nat)
      (e1 e2 : Event) (r1 r2 : list Instr) :
  In (Emit e1 :: r1) ts -> In (Emit e2 :: r2) ts ->
  (Emit e1 :: r1) <> (Emit e2 :: r2) ->
  reachable s0 (mkState ts cnt [] false) ->
  exists s, reachable s0 s /\ events s = [e2; e1] /\ crashed s = false.
Proof.
  intros H1 H2 Hne H.
  destruct (in_split _ _ H1) as [a [b ->]].
  apply in_app_or in H2. destruct H2 as [H2|[H2|H2]]; [| congruence |].
  - destruct (in_split _ _ H2) as [a1 [a2 ->]].
    apply (reachable_run s0 _ (a1 ++ (Emit e2 :: r2) :: a2) b (Emit e1) r1 cnt []
             eq_refl I) in H.
    cbn [spawned countAfter eventsAfter crashesAt] in H.
    apply (reachable_run s0 _ a1 (a2 ++ r1 :: b ++ []) (Emit e2) r2 cnt [e1]) in H;
      [| rewrite <- app_assoc; reflexivity | exact I].
    eexists. split; [exact H|]. split; reflexivity.
  - destruct (in_split _ _ H2) as [b1 [b2 ->]].
    apply (reachable_run s0 _ a (b1 ++ (Emit e2 :: r2) :: b2) (Emit e1) r1 cnt []
             eq_refl I) in H.
    cbn [spawned countAfter eventsAfter crashesAt] in H.
    apply (reachable_run s0 _ (a ++ r1 :: b1) (b2 ++ []) (Emit e2) r2 cnt [e1]) in H;
      [| rewrite <- !app_assoc; reflexivity | exact I].
    eexists. split; [exact H|]. split; reflexivity.
Qed.

(** No order between two goroutines of elements: each can be through first. *)
Lemma units_in_either_order (n : AssetClass -> nat) (p : AssetClass -> nat -> bool)
      (c1 c2 : AssetClass) (i1 i2 : nat) :
  i1 < n c1 -> i2 < n c2 -> UnitEnd c1 i1 <> UnitEnd c2 i2 ->
  exists s, reachable (initial n p) s
            /\ events s = [UnitEnd c2 i2; UnitEnd c1 i1]
            /\ crashed s = false.
Proof.
  intros H1 H2 Hne.
  pose proof (allStarted_unit n p c1 i1 H1) as In1.
  pose proof (allStarted_unit n p c2 i2 H2) as In2.
  unfold unitCode in In1, In2. cbn [app] in In1, In2.
  eapply emit_two; [exact In1 | exact In2 | | apply reachable_allStarted].
  intros E. injection E as -> ->. congruence.
Qed.

(** *** Runs to the end, for goroutines that do not panic *)

Lemma upd_same (A : Type) (x : AssetClass) (v : A) (f : AssetClass -> A) :
  upd x v f x = v.
Proof. unfold upd. destruct (class_eq_dec x x); [reflexivity|congruence]. Qed.

Lemma upd_other (A : Type) (x y : AssetClass) (v : A) (f : AssetClass -> A) :
  x <> y -> upd x v f y = f y.
Proof. intros H. unfold upd. destruct (class_eq_dec x y); [congruence|reflexivity]. Qed.

Lemma bump_same (w : WaitGroup) (f : nat -> nat) (cnt : WaitGroup -> nat) :
  bump w f cnt w = f (cnt w).
Proof. unfold bump. destruct (wg_eq_dec w w); [reflexivity|congruence]. Qed.

Lemma bump_other (w w' : WaitGroup) (f : nat -> nat) (cnt : WaitGroup -> nat) :
  w <> w' -> bump w f cnt w' = cnt w'.
Proof. intros H. unfold bump. destruct (wg_eq_dec w w'); [congruence|reflexivity]. Qed.

(** The goroutines of the elements of a class run to their end. *)
Lemma units_run (s0 : State) (c : AssetClass) (l : list nat) :
  forall (pre post : list (list Instr)) (cnt : WaitGroup -> nat) (tr : list Event),
    length l <= cnt (Inner c) ->
    reachable s0 (mkState (pre ++ unitBodies c noPanic l ++ post) cnt tr false) ->
    exists cnt',
      reachable s0 (mkState (pre ++ map (fun _ => []) l ++ post) cnt'
                            (rev (map (UnitEnd c) l) ++ tr) false)
      /\ cnt' (Inner c) = cnt (Inner c) - length l
      /\ (forall w, w <> Inner c -> cnt' w = cnt w).
Proof.
  induction l as [|i l IH]; intros pre post cnt tr Hc H.
  - exists cnt. cbn [unitBodies map app length rev] in *.
    split; [exact H|]. split; [lia | reflexivity].
  - cbn [unitBodies map app length] in *. fold (unitBodies c noPanic l) in H.
    unfold unitCode, noPanic in H. cbn [app] in H.
    apply (reachable_run s0 _ pre (unitBodies c noPanic l ++ post)
             (Emit (UnitEnd c i)) [Done (Inner c)] cnt tr eq_refl I) in H.
    cbn [spawned countAfter eventsAfter crashesAt] in H. rewrite app_nil_r in H.
    apply (reachable_run s0 _ pre (unitBodies c noPanic l ++ post)
             (Done (Inner c)) [] cnt _ eq_refl I) in H.
    cbn [spawned countAfter eventsAfter crashesAt] in H. rewrite app_nil_r in H.
    assert ((cnt (Inner c) =? 0)%nat = false) as E by (apply Nat.eqb_neq; lia).
    rewrite E in H.
    destruct (IH (pre ++ [[]]) post (bump (Inner c) Nat.pred cnt) (UnitEnd c i :: tr))
      as [cnt' [Hr [H1 H2]]].
    + rewrite bump_same. lia.
    + rewrite <- app_assoc. exact H.
    + exists cnt'. rewrite <- app_assoc in Hr. cbn [rev]. rewrite <- app_assoc.
      split; [exact Hr|].
      split; [rewrite H1, bump_same; lia|].
      intros w Hw. rewrite (H2 w Hw). apply bump_other. congruence.
Qed.

(** A routine whose goroutines are through runs to its end. *)
Lemma class_tail_runs (s0 : State) (c : AssetClass) (pre post : list (list Instr))
      (cnt : WaitGroup -> nat) (tr : list Event) :
  cnt (Inner c) = 0 -> 1 <= cnt Outer ->
  reachable s0 (mkState (pre ++ classTail c :: post) cnt tr false) ->
  reachable s0 (mkState (pre ++ [] :: post) (bump Outer Nat.pred cnt)
                        (ClassEnd c :: tr) false).
Proof.
  intros H0 H1 H. unfold classTail in H.
  apply (reachable_run s0 _ pre post (Wait (Inner c)) _ cnt tr eq_refl H0) in H.
  cbn [spawned countAfter eventsAfter crashesAt] in H. rewrite app_nil_r in H.
  apply (reachable_run s0 _ pre post (Emit (ClassEnd c)) _ cnt tr eq_refl I) in H.
  cbn [spawned countAfter eventsAfter crashesAt] in H. rewrite app_nil_r in H.
  apply (reachable_run s0 _ pre post (Done Outer) _ cnt _ eq_refl I) in H.
  cbn [spawned countAfter eventsAfter crashesAt] in H. rewrite app_nil_r in H.
  assert ((cnt Outer =? 0)%nat = false) as E by (apply Nat.eqb_neq; lia).
  rewrite E in H. exact H.
Qed.

Lemma layout_units_split (m : list Instr) (f : AssetClass -> list Instr)
      (g : AssetClass -> list (list Instr)) (x : AssetClass) :
  exists pre post,
    forall g', (forall y, x <> y -> g' y = g y) ->
               layout m f g' = pre ++ g' x ++ post.
Proof.
  destruct x.
  - exists [m; f CSS; f JS; f Images], (g JS ++ g Images). intros g' H.
    unfold layout. rewrite (H JS), (H Images) by discriminate.
    rewrite <- app_assoc. reflexivity.
  - exists ([m; f CSS; f JS; f Images] ++ g CSS), (g Images). intros g' H.
    unfold layout. rewrite (H CSS), (H Images) by discriminate.
    rewrite <- !app_assoc. reflexivity.
  - exists ([m; f CSS; f JS; f Images] ++ g CSS ++ g JS), []. intros g' H.
    unfold layout. rewrite (H CSS), (H JS) by discriminate.
    rewrite app_nil_r, <- !app_assoc. reflexivity.
Qed.

Lemma layout_tail_split (m : list Instr) (f : AssetClass -> list Instr)
      (g : AssetClass -> list (list Instr)) (x : AssetClass) :
  exists pre post,
    forall f', (forall y, x <> y -> f' y = f y) ->
               layout m f' g = pre ++ f' x :: post.
Proof.
  destruct x.
  - exists [m], ([f JS; f Images] ++ (g CSS ++ g JS) ++ g Images). intros f' H.
    unfold layout. rewrite (H JS), (H Images) by discriminate. reflexivity.
  - exists [m; f CSS], ([f Images] ++ (g CSS ++ g JS) ++ g Images). intros f' H.
    unfold layout. rewrite (H CSS), (H Images) by discriminate. reflexivity.
  - exists [m; f CSS; f JS], ((g CSS ++ g JS) ++ g Images). intros f' H.
    unfold layout. rewrite (H CSS), (H JS) by discriminate. reflexivity.
Qed.

(** One class is cured: its elements one after the other, then its routine. *)
Lemma class_runs (s0 : State) (n : AssetClass -> nat) (m : list Instr)
      (f : AssetClass -> list Instr) (g : AssetClass -> list (list Instr))
      (x : AssetClass) (cnt : WaitGroup -> nat) (tr : list Event) :
  f x = classTail x -> g x = unitBodies x noPanic (seq 0 (n x)) ->
  cnt (Inner x) = n x -> 1 <= cnt Outer ->
  reachable s0 (mkState (layout m f g) cnt tr false) ->
  exists cnt',
    reachable s0 (mkState (layout m (upd x [] f)
                                  (upd x (map (fun _ => []) (seq 0 (n x))) g))
                          cnt' (ClassEnd x :: unitsDone n x ++ tr) false)
    /\ cnt' Outer = cnt Outer - 1
    /\ (forall y, x <> y -> cnt' (Inner y) = cnt (Inner y)).
Proof.
  intros Hf Hg Hc Ho H.
  destruct (layout_units_split m f g x) as [pre [post E]].
  rewrite (E g (fun _ _ => eq_refl)), Hg in H.
  apply units_run in H; [| rewrite length_seq; lia].
  destruct H as [cnt1 [H [H1 H2]]].
  rewrite length_seq, Hc, Nat.sub_diag in H1.
  set (g1 := upd x (map (fun _ : nat => @nil Instr) (seq 0 (n x))) g).
  assert (Eg : layout m f g1 = pre ++ map (fun _ => []) (seq 0 (n x)) ++ post).
  { rewrite (E g1); [unfold g1; rewrite upd_same; reflexivity|].
    intros y Hy. apply upd_other. exact Hy. }
  rewrite <- Eg in H.
  destruct (layout_tail_split m f g1 x) as [pre' [post' E']].
  rewrite (E' f (fun _ _ => eq_refl)), Hf in H.
  apply class_tail_runs in H;
    [| exact H1 | rewrite (H2 Outer) by discriminate; exact Ho].
  exists (bump Outer Nat.pred cnt1). split; [| split].
  - rewrite (E' (upd x [] f)); [rewrite upd_same; exact H|].
    intros y Hy. apply upd_other. exact Hy.
  - rewrite bump_same, (H2 Outer) by discriminate. lia.
  - intros y Hy. rewrite bump_other by discriminate. apply H2. congruence.
Qed.

(** The three classes can be cured one after the other, in any order. *)
Lemma reachable_sequential (n : AssetClass -> nat) (a b c : AssetClass) :
  a <> b -> a <> c -> b <> c ->
  exists s, reachable (initial n (fun _ => noPanic)) s
            /\ events s = sequential n a b c /\ crashed s = false.
Proof.
  intros Hab Hac Hbc.
  pose proof (reachable_allStarted n (fun _ => noPanic)) as H.
  unfold allStarted in H.
  set (cnt0 := bump (Inner Images) _ _) in H.
  assert (CO : cnt0 Outer = 3).
  { unfold cnt0. rewrite !bump_other by discriminate. apply bump_same. }
  assert (CI : forall y, cnt0 (Inner y) = n y).
  { unfold cnt0. intros [| |];
      repeat (rewrite bump_same || (rewrite bump_other by discriminate));
      reflexivity. }
  change (reachable (initial n (fun _ => noPanic))
            (mkState (layout mainTail classTail
                             (fun y => unitBodies y noPanic (seq 0 (n y))))
                     cnt0 [] false)) in H.
  apply (class_runs _ n _ _ _ a) in H;
    [| reflexivity | reflexivity | apply CI | lia].
  destruct H as [cnt1 [H [O1 K1]]].
  apply (class_runs _ n _ _ _ b) in H;
    [| rewrite upd_other by exact Hab; reflexivity
     | rewrite upd_other by exact Hab; reflexivity
     | rewrite (K1 b Hab); apply CI | lia].
  destruct H as [cnt2 [H [O2 K2]]].
  apply (class_runs _ n _ _ _ c) in H;
    [| rewrite !upd_other by assumption; reflexivity
     | rewrite !upd_other by assumption; reflexivity
     | rewrite (K2 c Hbc), (K1 c Hac); apply CI | lia].
  destruct H as [cnt3 [H [O3 K3]]].
  unfold layout, mainTail in H. cbn [app] in H.
  apply (reachable_run _ _ [] _ (Wait Outer) _ _ _ eq_refl) in H;
    [| cbn [enabled]; lia].
  cbn [spawned countAfter eventsAfter crashesAt app] in H.
  apply (reachable_run _ _ [] _ (Emit Serialized) _ _ _ eq_refl I) in H.
  cbn [spawned countAfter eventsAfter crashesAt app] in H.
  eexists. split; [exact H|]. split; [| reflexivity].
  cbn [events]. unfold sequential. cbn [app]. rewrite app_nil_r. reflexivity.
Qed.

Lemma In_unitsDone (n : AssetClass -> nat) (x : AssetClass) (i : nat) :
  i < n x -> In (UnitEnd x i) (unitsDone n x).
Proof.
  intros H. unfold unitsDone. apply in_rev. rewrite rev_involutive.
  apply in_map. apply in_seq. lia.
Qed.

Lemma happensBefore_app_r (l1 l2 : list Event) (e1 e2 : Event) :
  happensBefore l2 e1 e2 -> happensBefore (l1 ++ l2) e1 e2.
Proof.
  intros [m1 [m2 [-> H]]]. exists (l1 ++ m1), m2.
  split; [rewrite <- app_assoc; reflexivity | exact H].
Qed.

Lemma happensBefore_app_l (l1 l2 : list Event) (e1 e2 : Event) :
  In e2 l1 -> In e1 l2 -> happensBefore (l1 ++ l2) e1 e2.
Proof.
  intros H2 H1. destruct (in_split _ _ H2) as [m1 [m2 ->]].
  exists m1, (m2 ++ l2). split; [rewrite <- app_assoc; reflexivity|].
  apply in_or_app. right. exact H1.
Qed.

Lemma third_class (c1 c2 : AssetClass) :
  c1 <> c2 -> exists t, c1 <> t /\ c2 <> t.
Proof.
  intros H. destruct c1, c2; try congruence;
    [exists Images | exists JS | exists Images | exists CSS | exists JS | exists CSS];
    split; discriminate.
Qed.

Lemma other_classes (c : AssetClass) :
  exists y z, c <> y /\ c <> z /\ y <> z.
Proof.
  destruct c; [exists JS, Images | exists CSS, Images | exists CSS, JS];
    repeat split; discriminate.
Qed.

Ltac member :=
  solve [ apply in_eq
        | apply In_unitsDone; assumption
        | apply in_or_app; left; member
        | apply in_or_app; right; member ].

Ltac in_order :=
  solve [ apply happensBefore_app_l; [member | member]
        | apply happensBefore_app_r; in_order ].

(** Every event of the program is in the trace of a run to the end. *)
Lemma sequential_complete (n : AssetClass -> nat) (a b c : AssetClass) (e : Event) :
  a <> b -> a <> c -> b <> c -> programEvent n e -> In e (sequential n a b c).
Proof.
  intros Hab Hac Hbc He. unfold sequential.
  assert (forall x, x = a \/ x = b \/ x = c) as Hx.
  { intros x. destruct x, a, b, c; try congruence; auto. }
  destruct e as [x i| x |].
  - cbn [programEvent] in He.
    destruct (Hx x) as [->|[->| ->]]; member.
  - destruct (Hx x) as [->|[->| ->]]; member.
  - member.
Qed.

(** C8. The two-level join of [Cure] is enforced, and it is the only order.
    In every state that the goroutines of [cureAssets] can reach, whether
    or not some of them panic: when a curing routine is through, the
    goroutine of each of its elements was through before it; when the tree
    is serialized, the three routines and the goroutines of all elements
    were through before it.  Between any two other distinct events nothing
    is enforced: whenever the join does not put [e1] before [e2], some run
    of the program has [e2] before [e1] (two elements of one class or of
    two classes, two routines, an element of one class and the routine of
    another). *)
Theorem two_level_join_is_the_only_order (n : AssetClass -> nat) :
  (forall (p : AssetClass -> nat -> bool) (s : State),
      reachable (initial n p) s ->
      forall e1 e2, programEvent n e1 -> joinOrder e1 e2 ->
      forall l1 l2, events s = l1 ++ e2 :: l2 -> In e1 l2)
  /\ (forall e1 e2, programEvent n e1 -> programEvent n e2 ->
        e1 <> e2 -> ~ joinOrder e1 e2 ->
        exists s, reachable (initial n (fun _ => noPanic)) s
                  /\ crashed s = false
                  /\ happensBefore (events s) e2 e1).
Proof.
  split.
  - intros p s Hs e1 e2 He1 Hj l1 l2 E.
    destruct (reachable_joined n p s Hs) as [J _].
    destruct e1 as [c i| c |], e2 as [c' i'| c' |]; cbn [joinOrder] in Hj;
      try contradiction.
    + subst c'. exact (J (Inner c) l1 l2 E (UnitEnd c i) He1 eq_refl).
    + pose proof (J Outer l1 l2 E (ClassEnd c) I eq_refl) as Hc.
      destruct (in_split _ _ Hc) as [m1 [m2 ->]].
      apply in_or_app. right. right.
      apply (J (Inner c) (l1 ++ Serialized :: m1) m2); [| exact He1 | reflexivity].
      rewrite E, <- app_assoc. reflexivity.
    + exact (J Outer l1 l2 E (ClassEnd c) I eq_refl).
  - intros e1 e2 He1 He2 Hne Hj.
    destruct e1 as [c i| c |], e2 as [c' i'| c' |]; cbn [joinOrder programEvent] in *.
    + destruct (units_in_either_order n (fun _ => noPanic) c' c i' i He2 He1)
        as [s [Hs [E Hc]]]; [congruence|].
      exists s. split; [exact Hs|]. split; [exact Hc|].
      exists [], [UnitEnd c' i']. split; [exact E | left; reflexivity].
    + destruct (third_class c' c (fun E => Hj (eq_sym E))) as [t [H1 H2]].
      destruct (reachable_sequential n c' c t) as [s [Hs [E Hc]]];
        [congruence | exact H1 | exact H2 |].
      exists s. split; [exact Hs|]. split; [exact Hc|].
      rewrite E. unfold sequential. in_order.
    + exfalso. apply Hj. exact I.
    + destruct (class_eq_dec c' c) as [->|Hd].
      * destruct (other_classes c) as [y [z [H1 [H2 H3]]]].
        destruct (reachable_sequential n c y z H1 H2 H3) as [s [Hs [E Hc]]].
        exists s. split; [exact Hs|]. split; [exact Hc|].
        rewrite E. unfold sequential. in_order.
      * destruct (third_class c' c Hd) as [t [H1 H2]].
        destruct (reachable_sequential n c' c t Hd H1 H2) as [s [Hs [E Hc]]].
        exists s. split; [exact Hs|]. split; [exact Hc|].
        rewrite E. unfold sequential. in_order.
    + assert (c' <> c) as Hd by congruence.
      destruct (third_class c' c Hd) as [t [H1 H2]].
      destruct (reachable_sequential n c' c t Hd H1 H2) as [s [Hs [E Hc]]].
      exists s. split; [exact Hs|]. split; [exact Hc|].
      rewrite E. unfold sequential. in_order.
    + exfalso. apply Hj. exact I.
    + destruct (reachable_sequential n CSS JS Images) as [s [Hs [E Hc]]];
        try discriminate.
      exists s. split; [exact Hs|]. split; [exact Hc|].
      rewrite E. unfold sequential. apply happensBefore_app_l; [member|].
      pose proof (sequential_complete n CSS JS Images (UnitEnd c' i')) as Hin.
      unfold sequential in Hin.
      apply in_app_or in Hin; try discriminate; [| exact He2].
      destruct Hin as [[Hin|[]]|Hin]; [discriminate Hin | exact Hin].
    + destruct (reachable_sequential n CSS JS Images) as [s [Hs [E Hc]]];
        try discriminate.
      exists s. split; [exact Hs|]. split; [exact Hc|].
      rewrite E. unfold sequential. apply happensBefore_app_l; [member|].
      pose proof (sequential_complete n CSS JS Images (ClassEnd c')) as Hin.
      unfold sequential in Hin.
      apply in_app_or in Hin; try discriminate; [| exact I].
      destruct Hin as [[Hin|[]]|Hin]; [discriminate Hin | exact Hin].
    + congruence.
Qed.

(** A page with one element of each class: in some run the script routine
    is through before the goroutine of the stylesheet, and in that run the
    goroutine of the script was through before its routine. *)
Lemma two_level_join_is_the_only_order_witness :
  exists s, reachable (initial (fun _ => 1) (fun _ => noPanic)) s
            /\ happensBefore (events s) (ClassEnd JS) (UnitEnd CSS 0)
            /\ happensBefore (events s) (UnitEnd JS 0) (ClassEnd JS).
Proof.
  destruct (proj2 (two_level_join_is_the_only_order (fun _ => 1))
              (UnitEnd CSS 0) (ClassEnd JS))
    as [s [Hs [_ Hb]]].
  - cbn [programEvent]. lia.
  - exact I.
  - discriminate.
  - cbn [joinOrder]. discriminate.
  - exists s. split; [exact Hs|]. split; [exact Hb|].
    destruct Hb as [l1 [l2 [E Hin]]].
    destruct (in_split _ _ Hin) as [m1 [m2 ->]].
    exists (l1 ++ UnitEnd CSS 0 :: m1), m2. split.
    + rewrite E, <- app_assoc. reflexivity.
    + apply (proj1 (two_level_join_is_the_only_order (fun _ => 1))
               (fun _ => noPanic) s Hs (UnitEnd JS 0) (ClassEnd JS))
        with (l1 := l1 ++ UnitEnd CSS 0 :: m1).
      * cbn [programEvent]. lia.
      * reflexivity.
      * rewrite E, <- app_assoc. reflexivity.
Defined.
